(** * Branch statistics over tree sequences (msprime/branch_stats.py)

    A shallow embedding of the five functions of [msprime/branch_stats.py]
    and proofs about them.

    Conventions of the embedding:
    - node ids are Python ints, here [Z]; [-1] is the null node;
    - times, branch lengths, spans and the running totals are Python
      floats (binary64).  The five functions are embedded over the exact
      rationals [Q], compared with [==]: a statement about a value names
      the terms that the loops add up.  Where the order or the rounding
      of the additions matters, module [Numeric] has [path_length] and
      [branch_length_diversity] over any arithmetic, binary64 included;
    - [a is not b] on node ids is the identity of Python objects, see
      [py_is_not];
    - Python exceptions are explicit ([Raise]); a [while] loop takes a
      bound on its number of iterations and yields [Timeout] beyond it;
    - a Python list indexed by an int is a [list] read and written through
      [py_get] and [py_set], which follow Python's rule for negative
      indices and raise [IndexError] out of range;
    - the accumulator [S] of the source is written [S_], [S] being the
      successor of [nat]. *)

From Stdlib Require Import ZArith QArith Lqa String Bool Floats.
From stdpp Require Import base list gmap.

Local Open Scope Z_scope.

(** ** Outcomes of a Python computation *)

Inductive exn : Type :=
| TypeError (msg : string)
| IndexError
| KeyError
| StopIteration
| ZeroDivisionError.

Inductive result (A : Type) : Type :=
| Ok (a : A)
| Raise (e : exn)
| Timeout.

Arguments Ok {A} a.
Arguments Raise {A} e.
Arguments Timeout {A}.

Global Instance result_ret : MRet result := fun A a => Ok a.

Global Instance result_bind : MBind result := fun A B k r =>
  match r with
  | Ok a => k a
  | Raise e => Raise e
  | Timeout => Timeout
  end.

(** [for x in xs: acc = body(acc, x)], stopping at the first failure. *)
Fixpoint for_each {A S} (xs : list A) (body : S -> A -> result S) (acc : S)
  : result S :=
  match xs with
  | [] => Ok acc
  | x :: rest => acc' ← body acc x; for_each rest body acc'
  end.

(** A result that is a number equal to [q]. *)
Definition returns (r : result Q) (q : Q) : Prop :=
  match r with
  | Ok v => v == q
  | _ => False
  end.

(** Two outcomes that agree: the same failure, or equal numbers. *)
Definition same_outcome (r1 r2 : result Q) : Prop :=
  match r1, r2 with
  | Ok v1, Ok v2 => v1 == v2
  | Raise e1, Raise e2 => e1 = e2
  | Timeout, Timeout => True
  | _, _ => False
  end.

(** ** Python list indexing *)

Definition py_index (len : nat) (i : Z) : option nat :=
  if (0 <=? i) && (i <? Z.of_nat len) then Some (Z.to_nat i)
  else if (i <? 0) && (- Z.of_nat len <=? i) then Some (Z.to_nat (Z.of_nat len + i))
  else None.

Definition py_get {A} (l : list A) (i : Z) : result A :=
  match py_index (length l) i with
  | Some n =>
      match l !! n with
      | Some a => Ok a
      | None => Raise IndexError
      end
  | None => Raise IndexError
  end.

Definition py_set {A} (l : list A) (i : Z) (a : A) : result (list A) :=
  match py_index (length l) i with
  | Some n => Ok (<[n := a]> l)
  | None => Raise IndexError
  end.

(** ** The single-tree query interface *)

Record Mutation := { mut_position : Q; mut_node : Z }.

Module SparseTree.
(** Modelled from the spec: the tree snapshot of the ancestry engine,
    which [branch_stats.py] only queries ([mrca], [parent], [root],
    [nodes()], [num_tracked_leaves], [mutations()], [length]).  The
    snapshot is any value offering these queries. *)
Record t := {
  mrca : Z -> Z -> Z;
  parent : Z -> Z;
  time : Z -> Q;
  length : Q;
  root : Z;
  nodes : list Z;
  num_tracked_leaves : Z -> Z;
  mutations : list Mutation
}.

(** Modelled from the spec: branch_length(u) = time(parent(u)) - time(u). *)
Definition branch_length (tr : t) (u : Z) : Q :=
  (time tr (parent tr u) - time tr u)%Q.
End SparseTree.

(** ** path_length *)

(** The inner loop [while u != mrca: L += tr.branch_length(u); u = tr.parent(u)];
    [fuel] bounds the number of times the body runs. *)
Fixpoint climb (tr : SparseTree.t) (mrca : Z) (fuel : nat) (u : Z) (L : Q)
  : result Q :=
  if u =? mrca then Ok L
  else match fuel with
       | O => Timeout
       | S fuel' =>
           climb tr mrca fuel' (SparseTree.parent tr u)
                 (L + SparseTree.branch_length tr u)%Q
       end.

Definition path_length (fuel : nat) (tr : SparseTree.t) (x y : Z) : result Q :=
  let L := 0%Q in
  let mrca := SparseTree.mrca tr x y in
  for_each [x; y] (fun L u => climb tr mrca fuel u L) L.

(** The same walk, recording the nodes on which the loop body runs (the
    nodes whose branch length and parent are queried). *)
Fixpoint climb_visits (tr : SparseTree.t) (mrca : Z) (fuel : nat) (u : Z)
  (seen : list Z) : result (list Z) :=
  if u =? mrca then Ok seen
  else match fuel with
       | O => Timeout
       | S fuel' =>
           climb_visits tr mrca fuel' (SparseTree.parent tr u) (seen ++ [u])
       end.

Definition path_visits (fuel : nat) (tr : SparseTree.t) (x y : Z)
  : result (list Z) :=
  let mrca := SparseTree.mrca tr x y in
  for_each [x; y] (fun seen u => climb_visits tr mrca fuel u seen) [].

(** The first [k] nodes of the chain [u, parent u, parent (parent u), ...]. *)
Fixpoint chain (tr : SparseTree.t) (k : nat) (u : Z) : list Z :=
  match k with
  | O => []
  | S k' => u :: chain tr k' (SparseTree.parent tr u)
  end.

Fixpoint Qsum (l : list Q) : Q :=
  match l with
  | [] => 0%Q
  | q :: rest => (q + Qsum rest)%Q
  end.

(** The node [k] parent steps above [u]. *)
Fixpoint nth_parent (tr : SparseTree.t) (k : nat) (u : Z) : Z :=
  match k with
  | O => u
  | S k' => nth_parent tr k' (SparseTree.parent tr u)
  end.

(** [m] is reached from [u] after exactly [k] parent steps and not before. *)
Definition reaches (tr : SparseTree.t) (u : Z) (k : nat) (m : Z) : Prop :=
  nth_parent tr k u = m /\ (m ∉ chain tr k u).

(** ** The tree-sequence interface *)

(** An edge record as the diff stream yields it: [(node, children, time)]. *)
Definition edge_record : Type := Z * list Z * Q.

(** A diff event: [(length, records_out, records_in)]. *)
Definition diff_event : Type := Q * list edge_record * list edge_record.

Module TreeSequence.
(** Modelled from the spec: the tree sequence of the ancestry engine as
    [branch_stats.py] consumes it.  [trees ts tracked] are the snapshots
    that [ts.trees(tracked_leaves=tracked, ...)] yields from left to
    right ([ts.trees()] is [trees ts []]); [diffs ts] are the events
    that [ts.diffs()] yields. *)
Record t := {
  trees : list Z -> list SparseTree.t;
  diffs : list diff_event;
  num_trees : nat;
  num_nodes : nat;
  sequence_length : Q
}.

Definition get_sequence_length (ts : t) : Q := sequence_length ts.

(** Every iterator over the trees yields [num_trees] snapshots. *)
Definition consistent (ts : t) : Prop :=
  forall tracked, List.length (trees ts tracked) = num_trees ts.
End TreeSequence.

(** True division of floats: [a / b] raises on a zero divisor. *)
Definition py_div (a b : Q) : result Q :=
  if Qeq_bool b 0 then Raise ZeroDivisionError else Ok (a / b)%Q.

(** [range(n)] as Python ints. *)
Definition py_range (n : nat) : list Z := Z.of_nat <$> seq 0 n.

(** ** branch_length_diversity *)

Definition branch_length_diversity (fuel : nat) (ts : TreeSequence.t) (x y : Z)
  : result Q :=
  let S_ := 0%Q in
  S_ ← for_each (TreeSequence.trees ts []) (fun S_ tr =>
         p ← path_length fuel tr x y;
         Ok (S_ + p * SparseTree.length tr)%Q) S_;
  py_div S_ (TreeSequence.sequence_length ts).

(** The values of a list of outcomes, or the first failure. *)
Fixpoint all_ok {A} (rs : list (result A)) : result (list A) :=
  match rs with
  | [] => Ok []
  | r :: rest => a ← r; others ← all_ok rest; Ok (a :: others)
  end.

(** The words of the spec for the same statistic: the sum over the tree
    snapshots of the path length times the span of the tree, divided by
    the sequence length. *)
Definition branch_length_diversity_spec (fuel : nat) (ts : TreeSequence.t)
  (x y : Z) : result Q :=
  ps ← all_ok (map (fun tr => path_length fuel tr x y)
                 (TreeSequence.trees ts []));
  py_div (Qsum (zip_with (fun p tr => p * SparseTree.length tr)%Q
                  ps (TreeSequence.trees ts [])))
         (TreeSequence.sequence_length ts).

(** ** path_length and branch_length_diversity over any arithmetic *)

Module Numeric.
(** The numbers of the program and their operations: [quot a b] is
    [a / b] for a divisor that is not zero, and [is_zero] is the test on
    the divisor that makes a division raise. *)
Record arithmetic := {
  num : Type;
  zero : num;
  add : num -> num -> num;
  sub : num -> num -> num;
  mul : num -> num -> num;
  quot : num -> num -> num;
  is_zero : num -> bool
}.

(** Python floats: IEEE 754 binary64 with rounding to nearest. *)
Definition binary64 : arithmetic :=
  {| num := float;
     zero := 0%float;
     add := PrimFloat.add;
     sub := PrimFloat.sub;
     mul := PrimFloat.mul;
     quot := PrimFloat.div;
     is_zero := fun b => PrimFloat.eqb b 0%float |}.

(** The exact arithmetic of the rationals. *)
Definition rational : arithmetic :=
  {| num := Q;
     zero := 0%Q;
     add := Qplus;
     sub := Qminus;
     mul := Qmult;
     quot := Qdiv;
     is_zero := fun b => Qeq_bool b 0 |}.

Section Functions.
Context {A : arithmetic}.

(** Modelled from the spec: the queries of a tree snapshot that
    [path_length] and [branch_length_diversity] make, with times and span
    in the arithmetic [A]. *)
Record tree := {
  mrca : Z -> Z -> Z;
  parent : Z -> Z;
  time : Z -> num A;
  length : num A
}.

(** Modelled from the spec: branch_length(u) = time(parent(u)) - time(u). *)
Definition branch_length (tr : tree) (u : Z) : num A :=
  sub A (time tr (parent tr u)) (time tr u).

(** [while u != mrca: L += tr.branch_length(u); u = tr.parent(u)] *)
Fixpoint climb (tr : tree) (mrca : Z) (fuel : nat) (u : Z) (L : num A)
  : result (num A) :=
  if u =? mrca then Ok L
  else match fuel with
       | O => Timeout
       | S fuel' =>
           climb tr mrca fuel' (parent tr u) (add A L (branch_length tr u))
       end.

Definition path_length (fuel : nat) (tr : tree) (x y : Z)
  : result (num A) :=
  let L := zero A in
  let mrca := mrca tr x y in
  for_each [x; y] (fun L u => climb tr mrca fuel u L) L.

(** The first [k] nodes of the chain [u, parent u, ...], and what a walk
    over the nodes of [l] makes of [L]: it adds their branch lengths one
    after the other. *)
Fixpoint chain (tr : tree) (k : nat) (u : Z) : list Z :=
  match k with
  | O => []
  | S k' => u :: chain tr k' (parent tr u)
  end.

Definition walked (tr : tree) (l : list Z) (L : num A) : num A :=
  fold_left (fun L u => add A L (branch_length tr u)) l L.

(** The node [k] parent steps above [u]. *)
Fixpoint nth_parent (tr : tree) (k : nat) (u : Z) : Z :=
  match k with
  | O => u
  | S k' => nth_parent tr k' (parent tr u)
  end.

(** [m] is reached from [u] after exactly [k] parent steps and not
    before. *)
Definition reaches (tr : tree) (u : Z) (k : nat) (m : Z) : Prop :=
  nth_parent tr k u = m /\ (m ∉ chain tr k u).

(** [a / b], which raises on a zero divisor. *)
Definition div (a b : num A) : result (num A) :=
  if is_zero A b then Raise ZeroDivisionError else Ok (quot A a b).

(** [trees] are the snapshots that [ts.trees()] yields. *)
Definition branch_length_diversity (fuel : nat) (trees : list tree)
  (sequence_length : num A) (x y : Z) : result (num A) :=
  let S_ := zero A in
  S_ ← for_each trees (fun S_ tr =>
         p ← path_length fuel tr x y;
         Ok (add A S_ (mul A p (length tr)))) S_;
  div S_ sequence_length.
End Functions.

Arguments tree A : clear implicits.

(** The snapshot [tr], whose numbers are rationals, as a tree of the
    arithmetic [rational]. *)
Definition of_tree (tr : SparseTree.t) : tree rational :=
  @Build_tree rational (SparseTree.mrca tr) (SparseTree.parent tr)
    (SparseTree.time tr) (SparseTree.length tr).
End Numeric.

(** ** branch_length_Y *)

(** The body of the loop over trees: the new value of [S]. *)
Definition branch_length_Y_tree (fuel : nat) (tr : SparseTree.t) (x y z : Z)
  (S_ : Q) : result Q :=
  let xy_mrca := SparseTree.mrca tr x y in
  let xz_mrca := SparseTree.mrca tr x z in
  let yz_mrca := SparseTree.mrca tr y z in
  if xy_mrca =? xz_mrca then
    p ← path_length fuel tr x yz_mrca; Ok (S_ + p * SparseTree.length tr)%Q
  else if xy_mrca =? yz_mrca then
    p ← path_length fuel tr x xz_mrca; Ok (S_ + p * SparseTree.length tr)%Q
  else if xz_mrca =? yz_mrca then
    p ← path_length fuel tr x xy_mrca; Ok (S_ + p * SparseTree.length tr)%Q
  else Ok S_.

Definition branch_length_Y (fuel : nat) (ts : TreeSequence.t) (x y z : Z)
  : result Q :=
  let S_ := 0%Q in
  S_ ← for_each (TreeSequence.trees ts [])
        (fun S_ tr => branch_length_Y_tree fuel tr x y z S_) S_;
  py_div S_ (TreeSequence.sequence_length ts).

(** ** branch_stats_node_iter *)

(** [[ next(x) for x in tr_its ]]: the snapshots taken, and the advanced
    iterators; an exhausted iterator raises. *)
Fixpoint next_all (tr_its : list (list SparseTree.t))
  : result (list SparseTree.t * list (list SparseTree.t)) :=
  match tr_its with
  | [] => Ok ([], [])
  | it :: others =>
      match it with
      | [] => Raise StopIteration
      | tr :: it' =>
          '(trs, others') ← next_all others;
          Ok (tr :: trs, it' :: others')
      end
  end.

(** [dict(pairs)]: a later pair replaces an earlier one with the same key. *)
Definition py_dict (pairs : list (Z * bool)) : gmap Z bool :=
  foldl (fun d kv => <[kv.1 := kv.2]> d) ∅ pairs.

Definition dict_get (d : gmap Z bool) (k : Z) : result bool :=
  match d !! k with
  | Some v => Ok v
  | None => Raise KeyError
  end.

(** The count vector of [node]: [[ tr.num_tracked_leaves(node) for tr in trs ]]. *)
Definition tracked_counts (trs : list SparseTree.t) (node : Z) : list Z :=
  (fun tr => SparseTree.num_tracked_leaves tr node) <$> trs.

(** The ints that CPython keeps as one shared object each: -5 to 256. *)
Definition small_int (a : Z) : bool := (-5 <=? a) && (a <=? 256).

(** [a is not b] for two node ids that two queries of the tree have
    handed out: false only when the two are one object, that is when the
    ids are equal and CPython shares the object of that int.  Equal ids
    above 256 (or below -5) are two objects, and [a is not b] holds. *)
Definition py_is_not (a b : Z) : bool := negb ((a =? b) && small_int a).

(** The body of the loop over [k] in [range(ts.num_trees)]. *)
Definition node_iter_tree (condition : list Z -> bool) (method : string)
  (acc : Q * list (list SparseTree.t)) : result (Q * list (list SparseTree.t)) :=
  let '(S_, tr_its) := acc in
  '(trs, tr_its) ← next_all tr_its;
  tr0 ← py_get trs 0;
  let root := SparseTree.root tr0 in
  let tr_len := SparseTree.length tr0 in
  if String.eqb method "length" then
    S_ ← for_each (SparseTree.nodes tr0) (fun S_ node =>
          if py_is_not node root then
            let x := tracked_counts trs node in
            if condition x
            then Ok (S_ + SparseTree.branch_length tr0 node * tr_len)%Q
            else Ok S_
          else Ok S_) S_;
    Ok (S_, tr_its)
  else if String.eqb method "mutations" then
    let count_nodes :=
      py_dict ((fun node => (node, condition (tracked_counts trs node)))
                 <$> filter (fun node => py_is_not node root = true)
                       (SparseTree.nodes tr0)) in
    S_ ← for_each (SparseTree.mutations tr0) (fun S_ mut =>
          counted ← dict_get count_nodes (mut_node mut);
          if counted : bool then Ok (S_ + 1)%Q else Ok S_) S_;
    Ok (S_, tr_its)
  else Raise (TypeError ("Unknown method " ++ method)).

Definition branch_stats_node_iter (ts : TreeSequence.t)
  (leaf_sets : list (list Z)) (condition : list Z -> bool) (method : string)
  : result Q :=
  let tr_its := (fun x => TreeSequence.trees ts x) <$> leaf_sets in
  let S_ := 0%Q in
  '(S_, _) ← for_each (py_range (TreeSequence.num_trees ts))
              (fun acc _ => node_iter_tree condition method acc) (S_, tr_its);
  py_div S_ (TreeSequence.get_sequence_length ts).

(** The snapshots in hand at step [k]: the [k]-th snapshot of each
    iterator. *)
Definition row_at (tr_its : list (list SparseTree.t)) (k : nat)
  : list SparseTree.t :=
  omap (fun it => it !! k) tr_its.

(** The number of mutations of a tree that sit on a node whose count
    vector satisfies the predicate. *)
Definition counted_mutations (condition : list Z -> bool)
  (trs : list SparseTree.t) : Z :=
  match trs with
  | [] => 0
  | tr0 :: _ =>
      Z.of_nat (List.length
        (List.filter (fun mut => condition (tracked_counts trs (mut_node mut)))
           (SparseTree.mutations tr0)))
  end.

Fixpoint Zsum (l : list Z) : Z :=
  match l with
  | [] => 0
  | z :: rest => z + Zsum rest
  end.

(** The counted mutations of all the trees of the sequence. *)
Definition total_counted_mutations (ts : TreeSequence.t)
  (leaf_sets : list (list Z)) (condition : list Z -> bool) : Z :=
  let tr_its := (fun x => TreeSequence.trees ts x) <$> leaf_sets in
  Zsum (map (fun k => counted_mutations condition (row_at tr_its k))
          (seq 0 (TreeSequence.num_trees ts))).

(** Every mutation of the tree sits on a node of the tree other than the
    root. *)
Definition mutations_on_branches (tr : SparseTree.t) : Prop :=
  Forall (fun mut => mut_node mut ∈ SparseTree.nodes tr
                     /\ mut_node mut ≠ SparseTree.root tr)
         (SparseTree.mutations tr).

(** Every mutation of the tree sits on a node that [nodes()] lists and
    that [is not] the root, so that [count_nodes] has its entry. *)
Definition mutations_have_entries (tr : SparseTree.t) : Prop :=
  Forall (fun mut => mut_node mut ∈ SparseTree.nodes tr
                     /\ py_is_not (mut_node mut) (SparseTree.root tr) = true)
         (SparseTree.mutations tr).

(** ** branch_stats *)

(** The working state of the incremental engine: the count vectors [X],
    the parent array [pi], the array [node_time] and the running length
    [L] of the current tree. *)
Record engine := {
  st_X : list (list Z);
  st_pi : list Z;
  st_node_time : list Q;
  st_L : Q
}.

Definition with_X (st : engine) (X : list (list Z)) : engine :=
  {| st_X := X; st_pi := st_pi st; st_node_time := st_node_time st;
     st_L := st_L st |}.
Definition with_pi (st : engine) (pi : list Z) : engine :=
  {| st_X := st_X st; st_pi := pi; st_node_time := st_node_time st;
     st_L := st_L st |}.
Definition with_node_time (st : engine) (nt : list Q) : engine :=
  {| st_X := st_X st; st_pi := st_pi st; st_node_time := nt;
     st_L := st_L st |}.
Definition with_L (st : engine) (L : Q) : engine :=
  {| st_X := st_X st; st_pi := st_pi st; st_node_time := st_node_time st;
     st_L := L |}.

(** [X[u][k]] and [X[u][k] = v]; the rows of [X] are distinct list
    objects, so a write to one row leaves the others as they are. *)
Definition X_get (X : list (list Z)) (u k : Z) : result Z :=
  row ← py_get X u; py_get row k.

Definition X_set (X : list (list Z)) (u k v : Z) : result (list (list Z)) :=
  row ← py_get X u; row' ← py_set row k v; py_set X u row'.

(** [node_time[pi[u]] - node_time[u]] *)
Definition pi_branch (st : engine) (u : Z) : result Q :=
  p ← py_get (st_pi st) u;
  tp ← py_get (st_node_time st) p;
  tu ← py_get (st_node_time st) u;
  Ok (tp - tu)%Q.

(** [for k in range(num_leaf_sets): X[u][k] -= X[node][k]] *)
Definition X_sub_row (num_leaf_sets : nat) (X : list (list Z)) (u node : Z)
  : result (list (list Z)) :=
  for_each (py_range num_leaf_sets) (fun X k =>
    a ← X_get X u k; b ← X_get X node k; X_set X u k (a - b)) X.

(** [for k in range(num_leaf_sets): X[u][k] += dx[k]] *)
Definition X_add_vec (num_leaf_sets : nat) (X : list (list Z)) (u : Z)
  (dx : list Z) : result (list (list Z)) :=
  for_each (py_range num_leaf_sets) (fun X k =>
    a ← X_get X u k; b ← py_get dx k; X_set X u k (a + b)) X.

(** [for k in range(num_leaf_sets): X[node][k] = 0] *)
Definition X_zero_row (num_leaf_sets : nat) (X : list (list Z)) (node : Z)
  : result (list (list Z)) :=
  for_each (py_range num_leaf_sets) (fun X k => X_set X node k 0) X.

(** [for k in range(num_leaf_sets): X[node][k] = dx[k]] *)
Definition X_assign_row (num_leaf_sets : nat) (X : list (list Z)) (node : Z)
  (dx : list Z) : result (list (list Z)) :=
  for_each (py_range num_leaf_sets) (fun X k =>
    b ← py_get dx k; X_set X node k b) X.

(** [for k in range(num_leaf_sets): dx[k] += X[child][k]] *)
Definition dx_add_row (num_leaf_sets : nat) (X : list (list Z)) (dx : list Z)
  (child : Z) : result (list Z) :=
  for_each (py_range num_leaf_sets) (fun dx k =>
    a ← py_get dx k; b ← X_get X child k; py_set dx k (a + b)) dx.

(** The loop [while u != -1] that walks up from the parent of the node of
    an edge record, common to the two kinds of record: [update X u]
    changes the count vector of [u] ([X_sub_row] for a record leaving,
    [X_add_vec] for a record entering).  [fuel] bounds the number of
    times the body runs. *)
Fixpoint propagate (condition : list Z -> bool)
  (update : list (list Z) -> Z -> result (list (list Z)))
  (fuel : nat) (st : engine) (u next_u : Z) : result engine :=
  if u =? -1 then Ok st
  else match fuel with
       | O => Timeout
       | S fuel' =>
           xu ← py_get (st_X st) u;
           let old_f := condition xu in
           X ← update (st_X st) u;
           let st := with_X st X in
           xu ← py_get (st_X st) u;
           let new_f := condition xu in
           st ← (if negb (next_u =? -1) then
                   st ← (if old_f && negb new_f then
                           b ← pi_branch st u; Ok (with_L st (st_L st - b)%Q)
                         else Ok st);
                   (if new_f && negb old_f then
                      b ← pi_branch st u; Ok (with_L st (st_L st + b)%Q)
                    else Ok st)
                 else Ok st);
           let u := next_u in
           next_u ← py_get (st_pi st) next_u;
           propagate condition update fuel' st u next_u
       end.

(** [u = pi[node]; if u != -1: next_u = pi[u]; while u != -1: ...] *)
Definition propagate_from (condition : list Z -> bool)
  (update : list (list Z) -> Z -> result (list (list Z)))
  (fuel : nat) (st : engine) (node : Z) : result engine :=
  u ← py_get (st_pi st) node;
  if negb (u =? -1) then
    next_u ← py_get (st_pi st) u;
    propagate condition update fuel st u next_u
  else Ok st.

(** [if pi[node] != -1 and condition(X[node])] *)
Definition attached_and_counted (condition : list Z -> bool) (st : engine)
  (node : Z) : result bool :=
  p ← py_get (st_pi st) node;
  if negb (p =? -1) then xn ← py_get (st_X st) node; Ok (condition xn)
  else Ok false.

(** The body of [for node,children,time in records_out]. *)
Definition record_out (num_leaf_sets : nat) (condition : list Z -> bool)
  (fuel : nat) (st : engine) (r : edge_record) : result engine :=
  let '(node, children, time) := r in
  st ← for_each children (fun st child =>
         xc ← py_get (st_X st) child;
         st ← (if condition xc then
                 b ← pi_branch st child; Ok (with_L st (st_L st - b)%Q)
               else Ok st);
         pi ← py_set (st_pi st) child (-1);
         Ok (with_pi st pi)) st;
  c ← attached_and_counted condition st node;
  st ← (if c : bool then b ← pi_branch st node; Ok (with_L st (st_L st - b)%Q)
        else Ok st);
  st ← propagate_from condition
         (fun X u => X_sub_row num_leaf_sets X u node) fuel st node;
  X ← X_zero_row num_leaf_sets (st_X st) node;
  Ok (with_X st X).

(** The body of [for node,children,time in records_in]. *)
Definition record_in (num_leaf_sets : nat) (condition : list Z -> bool)
  (fuel : nat) (st : engine) (r : edge_record) : result engine :=
  let '(node, children, time) := r in
  let dx := replicate num_leaf_sets 0 in
  nt ← py_set (st_node_time st) node time;
  let st := with_node_time st nt in
  '(st, dx) ← for_each children (fun '(st, dx) child =>
         xc ← py_get (st_X st) child;
         st ← (if condition xc then
                 tn ← py_get (st_node_time st) node;
                 tc ← py_get (st_node_time st) child;
                 Ok (with_L st (st_L st + (tn - tc))%Q)
               else Ok st);
         pi ← py_set (st_pi st) child node;
         let st := with_pi st pi in
         dx ← dx_add_row num_leaf_sets (st_X st) dx child;
         Ok (st, dx)) (st, dx);
  X ← X_assign_row num_leaf_sets (st_X st) node dx;
  let st := with_X st X in
  c ← attached_and_counted condition st node;
  st ← (if c : bool then b ← pi_branch st node; Ok (with_L st (st_L st + b)%Q)
        else Ok st);
  propagate_from condition
    (fun X u => X_add_vec num_leaf_sets X u dx) fuel st node.

(** The body of [for length,records_out,records_in in ts.diffs()]: the
    state after the event and the new value of [S]. *)
Definition diff_step (num_leaf_sets : nat) (condition : list Z -> bool)
  (fuel : nat) (acc : engine * Q) (ev : diff_event) : result (engine * Q) :=
  let '(st, S_) := acc in
  let '(length, records_out, records_in) := ev in
  st ← for_each records_out (record_out num_leaf_sets condition fuel) st;
  st ← for_each records_in (record_in num_leaf_sets condition fuel) st;
  Ok (st, (S_ + st_L st * length)%Q).

(** The state before the first event. *)
Definition initial_engine (N : nat) (leaf_sets : list (list Z)) : engine :=
  {| st_X := (fun u => (fun a => Z.b2z (bool_decide (u ∈ a))) <$> leaf_sets)
               <$> py_range N;
     st_pi := replicate N (-1);
     st_node_time := replicate N 0%Q;
     st_L := 0%Q |}.

(** The state and the sum [S] after all the events (before the final
    division). *)
Definition branch_stats_run (fuel : nat) (ts : TreeSequence.t)
  (leaf_sets : list (list Z)) (condition : list Z -> bool)
  : result (engine * Q) :=
  let num_leaf_sets := List.length leaf_sets in
  let S_ := 0%Q in
  let N := TreeSequence.num_nodes ts in
  for_each (TreeSequence.diffs ts) (diff_step num_leaf_sets condition fuel)
    (initial_engine N leaf_sets, S_).

(** [method] is accepted and not looked at, as in the source. *)
Definition branch_stats (fuel : nat) (ts : TreeSequence.t)
  (leaf_sets : list (list Z)) (condition : list Z -> bool) (method : string)
  : result Q :=
  '(_, S_) ← branch_stats_run fuel ts leaf_sets condition;
  py_div S_ (TreeSequence.get_sequence_length ts).

(** The node [u] followed by its ancestors in the parent array [pi], at
    most [fuel] of them: [pi[u]], [pi[pi[u]]], ... up to the first [-1]. *)
Fixpoint path_up (fuel : nat) (pi : list Z) (u : Z) : list Z :=
  u :: match fuel with
       | O => []
       | S fuel' =>
           match py_get pi u with
           | Ok p => if p =? -1 then [] else path_up fuel' pi p
           | _ => []
           end
       end.

(** [j] is the row of no node of [path] in a list of [len] rows. *)
Definition off_path (len : nat) (path : list Z) (j : nat) : Prop :=
  forall u, u ∈ path -> py_index len u ≠ Some j.

(** [X'] has the rows of [X], except perhaps the row of [u]. *)
Definition only_row (u : Z) (X X' : list (list Z)) : Prop :=
  List.length X' = List.length X
  /\ forall j, py_index (List.length X) u ≠ Some j -> X' !! j = X !! j.

(** ** A concrete tree sequence *)

Module Tables.
(** Modelled from the spec: the ancestry engine that builds a tree
    sequence is not part of [branch_stats.py].  Following the data model
    of the spec, a tree sequence is given by the time of each node, the
    stream of diff events, the mutations (a position and a node each)
    and the sequence length; the snapshot of each interval is the
    parent-pointer forest of the edges in effect once the event of that
    interval has been consumed. *)
Record t := {
  node_times : list Q;
  events : list diff_event;
  site_mutations : list Mutation;
  total_length : Q
}.

Definition edge_node (e : edge_record) : Z := e.1.1.
Definition edge_children (e : edge_record) : list Z := e.1.2.

Definition same_edge (e1 e2 : edge_record) : bool :=
  bool_decide (edge_node e1 = edge_node e2
               /\ edge_children e1 = edge_children e2).

(** Modelled from the spec: the edges in effect after an event are those
    in effect before it that do not leave, followed by those that enter. *)
Definition edges_after (before : list edge_record) (ev : diff_event)
  : list edge_record :=
  let '(_, records_out, records_in) := ev in
  List.filter (fun e => negb (existsb (same_edge e) records_out)) before
    ++ records_in.

(** Modelled from the spec: a node has at most one parent, the node of
    the edge in effect that lists it as a child; [-1] without one. *)
Definition parent_in (E : list edge_record) (u : Z) : Z :=
  match List.find (fun e => bool_decide (u ∈ edge_children e)) E with
  | Some e => edge_node e
  | None => -1
  end.

Definition children_in (E : list edge_record) (u : Z) : list Z :=
  concat (edge_children <$>
            List.filter (fun e => edge_node e =? u) E).

Definition time_in (times : list Q) (u : Z) : Q :=
  if 0 <=? u then default 0%Q (times !! Z.to_nat u) else 0%Q.

(** [u] and its ancestors, from [u] upwards. *)
Fixpoint lineage (fuel : nat) (E : list edge_record) (u : Z) : list Z :=
  match fuel with
  | O => []
  | S fuel' =>
      if u =? -1 then [] else u :: lineage fuel' E (parent_in E u)
  end.

(** Modelled from the spec: the most recent common ancestor is the first
    node of the lineage of [x] that is on the lineage of [y]. *)
Definition mrca_in (N : nat) (E : list edge_record) (x y : Z) : Z :=
  match List.find (fun a => bool_decide (a ∈ lineage (S N) E y))
          (lineage (S N) E x) with
  | Some a => a
  | None => -1
  end.

(** Modelled from the spec: the root is the node without a parent above
    the edges in effect. *)
Definition root_in (N : nat) (E : list edge_record) : Z :=
  match E with
  | [] => -1
  | e :: _ => List.last (lineage (S N) E (edge_node e)) (-1)
  end.

(** The nodes at and below the nodes of [stack], parents first. *)
Fixpoint preorder (fuel : nat) (E : list edge_record) (stack : list Z)
  : list Z :=
  match fuel, stack with
  | S fuel', u :: rest => u :: preorder fuel' E (children_in E u ++ rest)
  | _, _ => []
  end.

Definition nodes_in (N : nat) (E : list edge_record) : list Z :=
  let r := root_in N E in
  if r =? -1 then [] else preorder N E [r].

(** Modelled from the spec: the number of tracked leaves that descend
    from [u] in the current tree, [u] included. *)
Definition num_tracked_in (N : nat) (E : list edge_record) (tracked : list Z)
  (u : Z) : Z :=
  Z.of_nat (List.length
    (List.filter (fun v => bool_decide (v ∈ tracked)) (preorder N E [u]))).

Definition mutations_in (muts : list Mutation) (left right : Q)
  : list Mutation :=
  List.filter (fun m => Qle_bool left (mut_position m)
                        && negb (Qle_bool right (mut_position m))) muts.

Definition snapshot (tb : t) (tracked : list Z) (E : list edge_record)
  (left len : Q) : SparseTree.t :=
  let N := List.length (node_times tb) in
  {| SparseTree.mrca := mrca_in N E;
     SparseTree.parent := parent_in E;
     SparseTree.time := time_in (node_times tb);
     SparseTree.length := len;
     SparseTree.root := root_in N E;
     SparseTree.nodes := nodes_in N E;
     SparseTree.num_tracked_leaves := num_tracked_in N E tracked;
     SparseTree.mutations :=
       mutations_in (site_mutations tb) left (left + len)%Q |}.

(** The snapshots of the events [evs], which start at position [left]
    with the edges [E] in effect. *)
Fixpoint snapshots (tb : t) (tracked : list Z) (E : list edge_record)
  (left : Q) (evs : list diff_event) : list SparseTree.t :=
  match evs with
  | [] => []
  | ev :: rest =>
      let E' := edges_after E ev in
      let len := ev.1.1 in
      snapshot tb tracked E' left len
        :: snapshots tb tracked E' (left + len)%Q rest
  end.

Definition load (tb : t) : TreeSequence.t :=
  {| TreeSequence.trees := fun tracked =>
       snapshots tb tracked [] 0%Q (events tb);
     TreeSequence.diffs := events tb;
     TreeSequence.num_trees := List.length (events tb);
     TreeSequence.num_nodes := List.length (node_times tb);
     TreeSequence.sequence_length := total_length tb |}.
End Tables.

(** ** Example tree sequences *)

(** One tree over [[0,1)]: the root 3 above the leaves 0, 1 and 2. *)
Definition star_tables : Tables.t :=
  {| Tables.node_times := [0; 0; 0; 1]%Q;
     Tables.events := [(1%Q, [], [(3, [0; 1; 2], 1%Q)])];
     Tables.site_mutations := [];
     Tables.total_length := 1%Q |}.

Definition star_tree : SparseTree.t :=
  Tables.snapshot star_tables [] [(3, [0; 1; 2], 1%Q)] 0%Q 1%Q.

(** One tree over [[0,2)]: node 4 above node 3 and leaf 2, node 3 above
    the leaves 0 and 1. *)
Definition cherry_tables : Tables.t :=
  {| Tables.node_times := [0; 0; 0; 2; 5]%Q;
     Tables.events :=
       [(2%Q, [], [(3, [0; 1], 2%Q); (4, [2; 3], 5%Q)])];
     Tables.site_mutations := [ {| mut_position := 1#2; mut_node := 0 |} ];
     Tables.total_length := 2%Q |}.

Definition cherry_tree : SparseTree.t :=
  Tables.snapshot cherry_tables [] [(3, [0; 1], 2%Q); (4, [2; 3], 5%Q)] 0%Q 2%Q.

(** One tree of span 1 with binary64 times: node 4 (time 0.6) above node
    3 (time 0.5) and leaf 1, node 3 above the leaves 0 and 2, all leaves
    of time 0. *)
Definition ladder_tree : Numeric.tree Numeric.binary64 :=
  let E : list edge_record := [(3, [0; 2], 1 # 2); (4, [3; 1], 3 # 5)] in
  @Numeric.Build_tree Numeric.binary64
    (Tables.mrca_in 5 E) (Tables.parent_in E)
    (fun u => nth (Z.to_nat u)
                [0; 0; 0; 0x1p-1; 0x1.3333333333333p-1]%float 0%float)
    1%float.

(** One tree over [[0,1)]: the root 2 (time 1) above leaf 0 (time 0) and
    leaf 1, a sample taken at time 1/2. *)
Definition old_leaf_tables : Tables.t :=
  {| Tables.node_times := [0; 1 # 2; 1]%Q;
     Tables.events := [(1%Q, [], [(2, [0; 1], 1%Q)])];
     Tables.site_mutations := [];
     Tables.total_length := 1%Q |}.

(** Two trees, over [[0,1)] and [[1,2)]: the root 3 above leaf 0 and node
    2, with node 2 above node 1 in the first tree only. *)
Definition leaving_edge_tables : Tables.t :=
  {| Tables.node_times := [0; 0; 1; 2]%Q;
     Tables.events := [(1%Q, [], [(2, [1], 1%Q); (3, [0; 2], 2%Q)]);
                       (1%Q, [(2, [1], 1%Q)], [])];
     Tables.site_mutations := [];
     Tables.total_length := 2%Q |}.

(** The predicate "no leaf of the first group below". *)
Definition none_below (x : list Z) : bool :=
  match x with
  | 0 :: _ => true
  | _ => false
  end.

(** The words of the spec for the state of the engine.  [counted_length]
    is the sum of the branch lengths of the nodes of the tree, other than
    the root, whose count vector satisfies the predicate;
    [exact_counts] is the count vector of every node of the sequence in
    the tree. *)
Definition counted_length (condition : list Z -> bool)
  (trs : list SparseTree.t) : Q :=
  match trs with
  | [] => 0%Q
  | tr0 :: _ =>
      Qsum (map (SparseTree.branch_length tr0)
              (List.filter
                 (fun node => negb (node =? SparseTree.root tr0)
                              && condition (tracked_counts trs node))
                 (SparseTree.nodes tr0)))
  end.

Definition exact_counts (N : nat) (trs : list SparseTree.t) : list (list Z) :=
  tracked_counts trs <$> py_range N.

(** Two states of the engine for the leaf sets [[0]] and [[1]] and the
    predicate that counts every branch: the tree with root 3 above leaf 1
    and node 2, node 2 above leaf 0; and the same tree once the edge from
    node 2 to leaf 0 has left. *)
Definition leaf_edge_present : engine :=
  {| st_X := [[1; 0]; [0; 1]; [1; 0]; [1; 1]];
     st_pi := [2; 3; 3; -1];
     st_node_time := [0; 0; 1; 2]%Q;
     st_L := 4%Q |}.

Definition leaf_edge_gone : engine :=
  {| st_X := [[1; 0]; [0; 1]; [0; 0]; [0; 1]];
     st_pi := [-1; 3; 3; -1];
     st_node_time := [0; 0; 1; 2]%Q;
     st_L := 2%Q |}.

(** ** branch_stats_node_iter: the value of the method ['length'] *)

(** The span of the tree in hand: [trs[0].length]. *)
Definition row_span (trs : list SparseTree.t) : Q :=
  match trs with
  | [] => 0%Q
  | tr0 :: _ => SparseTree.length tr0
  end.

(** The counted branch length of every tree of the sequence times the
    span of the tree, added up. *)
Definition total_counted_length (ts : TreeSequence.t)
  (leaf_sets : list (list Z)) (condition : list Z -> bool) : Q :=
  let tr_its := (fun x => TreeSequence.trees ts x) <$> leaf_sets in
  Qsum (map (fun k => counted_length condition (row_at tr_its k)
                      * row_span (row_at tr_its k))%Q
          (seq 0 (TreeSequence.num_trees ts))).

(** One tree over [[0,1)]: the root 2 above the leaves 0 and 1, with a
    mutation on the root. *)
Definition root_mutation_tables : Tables.t :=
  {| Tables.node_times := [0; 0; 1]%Q;
     Tables.events := [(1%Q, [], [(2, [0; 1], 1%Q)])];
     Tables.site_mutations := [ {| mut_position := 1#4; mut_node := 2 |} ];
     Tables.total_length := 1%Q |}.

(** The same tree over 301 nodes: the root 300 above the leaves 0 and 1,
    with a mutation on the root. *)
Definition unshared_root_tables : Tables.t :=
  {| Tables.node_times := replicate 300 0%Q ++ [1%Q];
     Tables.events := [(1%Q, [], [(300, [0; 1], 1%Q)])];
     Tables.site_mutations := [ {| mut_position := 1#4; mut_node := 300 |} ];
     Tables.total_length := 1%Q |}.

(** ** Well-formed diff streams and states of the engine *)

(** [u] is the id of one of the [N] nodes. *)
Definition in_range (N : nat) (u : Z) : Prop := 0 <= u < Z.of_nat N.

Definition edge_in_range (N : nat) (r : edge_record) : Prop :=
  in_range N r.1.1 /\ Forall (in_range N) r.1.2.

(** The children of the record rank below its node, which ranks at most
    [bound] (a rank is, for instance, the position of the node in the
    order of the node times). *)
Definition edge_ranked (rank : Z -> nat) (bound : nat) (r : edge_record)
  : Prop :=
  (rank r.1.1 <= bound)%nat
  /\ Forall (fun child => (rank child < rank r.1.1)%nat) r.1.2.

Definition event_well_formed (N : nat) (rank : Z -> nat) (bound : nat)
  (ev : diff_event) : Prop :=
  Forall (edge_in_range N) ev.1.2
  /\ Forall (edge_in_range N) ev.2
  /\ Forall (edge_ranked rank bound) ev.2.

(** [X] has [N] rows of [n] counts. *)
Definition X_shaped (N n : nat) (X : list (list Z)) : Prop :=
  List.length X = N /\ Forall (fun row => List.length row = n) X.

(** [pi] has [N] entries, each [-1] or the id of a node that ranks above
    the node of the entry and at most [bound]. *)
Definition pi_shaped (N : nat) (rank : Z -> nat) (bound : nat)
  (pi : list Z) : Prop :=
  List.length pi = N
  /\ Forall (fun p => -1 <= p < Z.of_nat N) pi
  /\ forall i p, pi !! i = Some p -> p ≠ -1 ->
       (rank (Z.of_nat i) < rank p <= bound)%nat.

Definition engine_shaped (N n : nat) (rank : Z -> nat) (bound : nat)
  (st : engine) : Prop :=
  X_shaped N n (st_X st)
  /\ pi_shaped N rank bound (st_pi st)
  /\ List.length (st_node_time st) = N.

(** ** branch_stats: the effect of a record on the state *)

(** Two count vectors added and subtracted entry by entry, as the loops
    over [k] do. *)
Definition vec_add (a b : list Z) : list Z := zip_with Z.add a b.

Definition vec_sub (a b : list Z) : list Z := zip_with Z.sub a b.

(** The count vector of node [u]. *)
Definition row_of (X : list (list Z)) (u : Z) : list Z :=
  default [] (X !! Z.to_nat u).

(** [node_time[pi[u]] - node_time[u]], as the arrays [pi] and [nt] give
    it. *)
Definition branch_of (pi : list Z) (nt : list Q) (u : Z) : Q :=
  match py_get pi u with
  | Ok p =>
      match py_get nt p, py_get nt u with
      | Ok tp, Ok tu => (tp - tu)%Q
      | _, _ => 0%Q
      end
  | _ => 0%Q
  end.

Definition indicator (b : bool) : Q := if b then 1%Q else 0%Q.

(** What the loop that walks up adds to [L] at node [u], whose count
    vector goes from [old] to [new]: nothing when [u] has no parent. *)
Definition flip (condition : list Z -> bool) (pi : list Z) (nt : list Q)
  (u : Z) (old new : list Z) : Q :=
  match py_get pi u with
  | Ok p =>
      if p =? -1 then 0%Q
      else ((indicator (condition new) - indicator (condition old))
            * branch_of pi nt u)%Q
  | _ => 0%Q
  end.

(** The proper ancestors of [node] in [pi], from its parent upwards. *)
Definition ancestors (fuel : nat) (pi : list Z) (node : Z) : list Z :=
  tail (path_up fuel pi node).

(** The nodes that the loop walks through: [u] and its ancestors. *)
Definition walked (fuel : nat) (pi : list Z) (u : Z) : list Z :=
  if u =? -1 then [] else path_up (fuel - 1) pi u.

(** The parent array once the nodes of [children] have been given the
    parent [p]. *)
Definition reparent (pi : list Z) (children : list Z) (p : Z) : list Z :=
  foldl (fun pi child => <[Z.to_nat child := p]> pi) pi children.

(** [node_time[node] - node_time[child]] *)
Definition rise (nt : list Q) (node child : Z) : Q :=
  match py_get nt node, py_get nt child with
  | Ok tn, Ok tchild => (tn - tchild)%Q
  | _, _ => 0%Q
  end.

(** The sum of the count vectors of the nodes of [children], added to
    [dx]. *)
Definition children_sum (X : list (list Z)) (dx : list Z)
  (children : list Z) : list Z :=
  foldl (fun dx child => vec_add dx (row_of X child)) dx children.

(** Whether [u] has a parent: [pi[u] != -1]. *)
Definition attached (pi : list Z) (u : Z) : bool :=
  match py_get pi u with
  | Ok p => negb (p =? -1)
  | _ => false
  end.

(** The tree sequence without nodes, trees or length. *)
Definition empty_tables : Tables.t :=
  {| Tables.node_times := [];
     Tables.events := [];
     Tables.site_mutations := [];
     Tables.total_length := 0%Q |}.

(** * Proofs *)

(** ** Outcomes *)

Lemma same_outcome_refl r : same_outcome r r.
Proof. destruct r; simpl; [reflexivity | reflexivity | exact I]. Qed.

Lemma same_outcome_sym r1 r2 : same_outcome r1 r2 -> same_outcome r2 r1.
Proof.
  destruct r1, r2; simpl; try tauto.
  - intros H. symmetry. exact H.
  - intros H. symmetry. exact H.
Qed.

Lemma same_outcome_trans r1 r2 r3 :
  same_outcome r1 r2 -> same_outcome r2 r3 -> same_outcome r1 r3.
Proof.
  destruct r1, r2, r3; simpl; try tauto.
  - intros H1 H2. rewrite H1. exact H2.
  - intros H1 H2. congruence.
Qed.

Lemma returns_same_outcome r1 r2 q :
  same_outcome r1 r2 -> returns r2 q -> returns r1 q.
Proof.
  destruct r1, r2; simpl; try tauto.
  intros H1 H2. rewrite H1. exact H2.
Qed.

Lemma py_div_proper a b c :
  (a == b)%Q -> same_outcome (py_div a c) (py_div b c).
Proof.
  intros H. unfold py_div. destruct (Qeq_bool c 0); simpl; [reflexivity |].
  rewrite H. reflexivity.
Qed.

(** ** path_length *)

Lemma reaches_step tr u k m :
  reaches tr u (S k) m -> u ≠ m /\ reaches tr (SparseTree.parent tr u) k m.
Proof.
  intros [Hn Hc]. simpl in Hn, Hc. rewrite not_elem_of_cons in Hc.
  destruct Hc as [Hne Hc]. split; [congruence | split; assumption].
Qed.

Lemma climb_sum tr m k : forall u L fuel,
  reaches tr u k m -> (k <= fuel)%nat ->
  exists v, climb tr m fuel u L = Ok v
    /\ (v == L + Qsum (map (SparseTree.branch_length tr) (chain tr k u)))%Q.
Proof.
  induction k as [|k IH]; intros u L fuel Hr Hk.
  - destruct Hr as [Hn _]. simpl in Hn. subst m.
    exists L. split; [| simpl; ring].
    destruct fuel; simpl; rewrite Z.eqb_refl; reflexivity.
  - apply reaches_step in Hr. destruct Hr as [Hne Hr].
    destruct fuel as [|fuel]; [lia |].
    destruct (IH (SparseTree.parent tr u)
                (L + SparseTree.branch_length tr u)%Q fuel Hr) as (v & Hv & Hs).
    { lia. }
    exists v. split.
    + simpl. apply Z.eqb_neq in Hne. rewrite Hne. exact Hv.
    + rewrite Hs. simpl. ring.
Qed.

Lemma climb_visits_chain tr m k : forall u seen fuel,
  reaches tr u k m -> (k <= fuel)%nat ->
  climb_visits tr m fuel u seen = Ok (seen ++ chain tr k u).
Proof.
  induction k as [|k IH]; intros u seen fuel Hr Hk.
  - destruct Hr as [Hn _]. simpl in Hn. subst m. rewrite app_nil_r.
    destruct fuel; simpl; rewrite Z.eqb_refl; reflexivity.
  - apply reaches_step in Hr. destruct Hr as [Hne Hr].
    destruct fuel as [|fuel]; [lia |].
    simpl. apply Z.eqb_neq in Hne. rewrite Hne.
    rewrite IH by (assumption || lia).
    rewrite <- app_assoc. reflexivity.
Qed.

(** Times that grow along the chain stay below the time of its end. *)
Lemma chain_below tr m k : forall u,
  nth_parent tr k u = m ->
  Forall (fun v => (SparseTree.time tr v
                    < SparseTree.time tr (SparseTree.parent tr v))%Q)
         (chain tr k u) ->
  Forall (fun v => (SparseTree.time tr v < SparseTree.time tr m)%Q)
         (chain tr k u).
Proof.
  induction k as [|k IH]; intros u Hn Hinc; simpl in *; [constructor |].
  inversion Hinc as [|? ? Hu Hrest]; subst.
  specialize (IH _ eq_refl Hrest).
  constructor; [| exact IH].
  destruct k as [|k]; simpl in *; [exact Hu |].
  inversion IH as [|? ? Hp _]; subst.
  eapply Qlt_trans; eassumption.
Qed.

(** With the MRCA [dx] steps above [x] and [dy] steps above [y], the path
    length is what the two walks add: the branch lengths of the two
    chains. *)
Lemma path_length_adds_chains (fuel : nat) (tr : SparseTree.t) (x y : Z)
  (dx dy : nat) :
  reaches tr x dx (SparseTree.mrca tr x y) ->
  reaches tr y dy (SparseTree.mrca tr x y) ->
  (dx <= fuel)%nat -> (dy <= fuel)%nat ->
  returns (path_length fuel tr x y)
          (Qsum (map (SparseTree.branch_length tr) (chain tr dx x))
           + Qsum (map (SparseTree.branch_length tr) (chain tr dy y))).
Proof.
  intros Hx Hy Hdx Hdy. unfold path_length.
  set (m := SparseTree.mrca tr x y) in *. simpl.
  destruct (climb_sum tr m dx x 0%Q fuel Hx Hdx) as (v1 & E1 & S1).
  rewrite E1. simpl.
  destruct (climb_sum tr m dy y v1 fuel Hy Hdy) as (v2 & E2 & S2).
  rewrite E2. simpl. rewrite S2, S1. ring.
Qed.

(** Positive terms, at least one of them, have a positive sum. *)
Lemma Qsum_positive (l : list Q) :
  l ≠ [] -> Forall (fun q => (0 < q)%Q) l -> (0 < Qsum l)%Q.
Proof.
  intros Hne Hall. induction Hall as [|q l Hq Hl IH]; [contradiction |].
  simpl. destruct l as [|q' l'].
  - simpl. lra.
  - assert (0 < Qsum (q' :: l'))%Q by (apply IH; discriminate). lra.
Qed.

Lemma climb_at_target tr m fuel L : climb tr m fuel m L = Ok L.
Proof. destruct fuel; unfold climb; rewrite Z.eqb_refl; reflexivity. Qed.

(** C10.  When the MRCA query answers [x] for the pair [(x, x)], neither
    upward walk runs and [path_length(tr, x, x)] is [0], whatever bound
    the loops are given. *)
Theorem path_length_same_node (fuel : nat) (tr : SparseTree.t) (x : Z) :
  SparseTree.mrca tr x x = x ->
  path_length fuel tr x x = Ok 0%Q.
Proof.
  intros Hm. unfold path_length. rewrite Hm.
  unfold for_each. rewrite climb_at_target. unfold mbind, result_bind.
  rewrite climb_at_target. reflexivity.
Qed.

(** The MRCA query of the snapshots built from tables answers [x] for
    the pair [(x, x)]. *)
Lemma mrca_in_same (N : nat) (E : list edge_record) (x : Z) :
  Tables.mrca_in N E x x = x.
Proof.
  unfold Tables.mrca_in. simpl.
  destruct (x =? -1) eqn:Ex.
  - apply Z.eqb_eq in Ex. subst x. reflexivity.
  - simpl. rewrite bool_decide_eq_true_2 by left. reflexivity.
Qed.

Lemma path_length_same_node_witness :
  SparseTree.mrca cherry_tree 0 0 = 0
  /\ path_length 0 cherry_tree 0 0 = Ok 0%Q.
Proof.
  split; [reflexivity |].
  apply (path_length_same_node 0 cherry_tree 0). reflexivity.
Defined.

(** C6.  In a tree where the MRCA [m] of [x] and [y] is [dx] parent steps
    above [x] and [dy] parent steps above [y], [path_length] returns
    (given at least that many loop iterations) the sum of
    [time(parent(u)) - time(u)] over the nodes [u] from [x] up to just
    below [m], plus the same sum from [y].  The loop body runs on exactly
    those nodes: [m] is not among them, and where times grow towards the
    root all of them are younger than [m], so no node at or above [m] is
    visited.  The function is a pure function of the queries: it has no
    state to change. *)
Theorem path_length_sums_both_paths (fuel : nat) (tr : SparseTree.t)
  (x y : Z) (dx dy : nat) :
  let m := SparseTree.mrca tr x y in
  let visited := chain tr dx x ++ chain tr dy y in
  let len := fun u =>
    (SparseTree.time tr (SparseTree.parent tr u) - SparseTree.time tr u)%Q in
  reaches tr x dx m -> reaches tr y dy m ->
  (dx <= fuel)%nat -> (dy <= fuel)%nat ->
  returns (path_length fuel tr x y)
          (Qsum (map len (chain tr dx x)) + Qsum (map len (chain tr dy y)))
  /\ path_visits fuel tr x y = Ok visited
  /\ (m ∉ visited)
  /\ (Forall (fun v => (SparseTree.time tr v
                        < SparseTree.time tr (SparseTree.parent tr v))%Q)
             visited ->
      Forall (fun v => (SparseTree.time tr v < SparseTree.time tr m)%Q)
             visited).
Proof.
  intros m visited len Hx Hy Hdx Hdy. repeat split.
  - unfold path_length. fold m. simpl.
    destruct (climb_sum tr m dx x 0%Q fuel Hx Hdx) as (v1 & E1 & S1).
    rewrite E1. simpl.
    destruct (climb_sum tr m dy y v1 fuel Hy Hdy) as (v2 & E2 & S2).
    rewrite E2. simpl. rewrite S2, S1.
    change (map len) with (map (SparseTree.branch_length tr)). ring.
  - unfold path_visits. fold m. simpl.
    rewrite (climb_visits_chain tr m dx x [] fuel Hx Hdx). simpl.
    rewrite (climb_visits_chain tr m dy y _ fuel Hy Hdy). simpl.
    reflexivity.
  - unfold visited. rewrite elem_of_app. intros [H | H].
    + destruct Hx as [_ Hx]. contradiction.
    + destruct Hy as [_ Hy]. contradiction.
  - unfold visited. rewrite !Forall_app. intros [H1 H2]. split.
    + apply chain_below; [apply Hx | exact H1].
    + apply chain_below; [apply Hy | exact H2].
Qed.

Lemma path_length_sums_both_paths_witness :
  returns (path_length 2 cherry_tree 0 2) (((2 - 0) + (5 - 2)) + (5 - 0))
  /\ path_visits 2 cherry_tree 0 2 = Ok [0; 3; 2].
Proof.
  assert (Hx : reaches cherry_tree 0 2 (SparseTree.mrca cherry_tree 0 2)).
  { split; [reflexivity |]. vm_compute. intros H.
    repeat (apply elem_of_cons in H; destruct H as [H | H]; [discriminate |]).
    inversion H. }
  assert (Hy : reaches cherry_tree 2 1 (SparseTree.mrca cherry_tree 0 2)).
  { split; [reflexivity |]. vm_compute. intros H.
    repeat (apply elem_of_cons in H; destruct H as [H | H]; [discriminate |]).
    inversion H. }
  destruct (path_length_sums_both_paths 2 cherry_tree 0 2 2 1 Hx Hy)
    as (Hr & Hv & _); [lia | lia |].
  split; [| exact Hv].
  eapply returns_same_outcome; [| exact Hr]. apply same_outcome_refl.
Defined.

(** ** branch_length_diversity *)

Lemma for_each_body_eq {A T} (xs : list A) (f g : T -> A -> result T) :
  (forall a x, x ∈ xs -> f a x = g a x) ->
  forall a, for_each xs f a = for_each xs g a.
Proof.
  induction xs as [|x xs IH]; intros Hfg a; simpl; [reflexivity |].
  rewrite (Hfg a x) by left. destruct (g a x) as [a'| |]; try reflexivity.
  cbn [mbind result_bind]. apply IH. intros a0 x0 Hin. apply Hfg. now right.
Qed.

Lemma for_each_fmap {A B T} (h : A -> B) (xs : list A)
  (f : T -> B -> result T) :
  forall a, for_each (h <$> xs) f a = for_each xs (fun a x => f a (h x)) a.
Proof.
  induction xs as [|x xs IH]; intros a; simpl; [reflexivity |].
  destruct (f a (h x)) as [a'| |]; try reflexivity.
  cbn [mbind result_bind]. apply IH.
Qed.

Lemma diversity_loop (fuel : nat) (x y : Z) (trs : list SparseTree.t) :
  forall S_ : Q,
  match all_ok (map (fun tr => path_length fuel tr x y) trs) with
  | Ok ps =>
      exists v,
        for_each trs (fun S_ tr =>
            p ← path_length fuel tr x y;
            Ok (S_ + p * SparseTree.length tr)%Q) S_ = Ok v
        /\ (v == S_ + Qsum (zip_with (fun p tr => p * SparseTree.length tr)
                              ps trs))%Q
  | Raise e =>
      for_each trs (fun S_ tr =>
          p ← path_length fuel tr x y;
          Ok (S_ + p * SparseTree.length tr)%Q) S_ = Raise e
  | Timeout =>
      for_each trs (fun S_ tr =>
          p ← path_length fuel tr x y;
          Ok (S_ + p * SparseTree.length tr)%Q) S_ = Timeout
  end.
Proof.
  induction trs as [|tr trs IH]; intros S_; simpl.
  - exists S_. split; [reflexivity | ring].
  - unfold mbind, result_bind.
    destruct (path_length fuel tr x y) as [p| |]; simpl; try reflexivity.
    specialize (IH (S_ + p * SparseTree.length tr)%Q).
    destruct (all_ok (map (fun tr => path_length fuel tr x y) trs))
      as [ps| |]; simpl; try exact IH.
    destruct IH as (v & Hv & Hs). exists v. split; [exact Hv |].
    rewrite Hs. ring.
Qed.

(** C7.  [branch_length_diversity] has the outcome of the sum, over all
    the tree snapshots, of [path_length(tr, x, y)] times the span of the
    tree, divided by the sequence length: the same number, or the same
    failure when a path length fails or the sequence length is zero. *)
Theorem branch_length_diversity_is_weighted_average (fuel : nat)
  (ts : TreeSequence.t) (x y : Z) :
  same_outcome (branch_length_diversity fuel ts x y)
               (branch_length_diversity_spec fuel ts x y).
Proof.
  unfold branch_length_diversity, branch_length_diversity_spec.
  pose proof (diversity_loop fuel x y (TreeSequence.trees ts []) 0%Q) as H.
  unfold mbind, result_bind in *.
  destruct (all_ok (map (fun tr => path_length fuel tr x y)
                      (TreeSequence.trees ts []))) as [ps| |].
  - destruct H as (v & -> & Hs). apply py_div_proper. rewrite Hs. ring.
  - rewrite H. reflexivity.
  - rewrite H. exact I.
Qed.

(** *** Swapping the two samples *)

(** Over the rationals the functions of [Numeric] are the functions of
    the embedding. *)
Lemma numeric_climb_rational (tr : SparseTree.t) (m : Z) (fuel : nat) :
  forall u L,
  Numeric.climb (Numeric.of_tree tr) m fuel u L = climb tr m fuel u L.
Proof.
  induction fuel as [|fuel IH]; intros u L; simpl; [reflexivity |].
  destruct (u =? m); [reflexivity |]. apply IH.
Qed.

Lemma numeric_path_length_rational (fuel : nat) (tr : SparseTree.t)
  (x y : Z) :
  Numeric.path_length fuel (Numeric.of_tree tr) x y = path_length fuel tr x y.
Proof.
  unfold Numeric.path_length, path_length. simpl.
  rewrite numeric_climb_rational.
  destruct (climb tr (SparseTree.mrca tr x y) fuel x 0%Q) as [v| |];
    try reflexivity.
  simpl. rewrite numeric_climb_rational. reflexivity.
Qed.

Lemma numeric_diversity_rational (fuel : nat) (ts : TreeSequence.t)
  (x y : Z) :
  Numeric.branch_length_diversity fuel
    (Numeric.of_tree <$> TreeSequence.trees ts [])
    (TreeSequence.sequence_length ts) x y
  = branch_length_diversity fuel ts x y.
Proof.
  unfold Numeric.branch_length_diversity, branch_length_diversity.
  rewrite for_each_fmap.
  rewrite (for_each_body_eq (TreeSequence.trees ts []) _
             (fun S_ tr => p ← path_length fuel tr x y;
                           Ok (S_ + p * SparseTree.length tr)%Q)).
  - reflexivity.
  - intros S_ tr _. rewrite numeric_path_length_rational. reflexivity.
Qed.

Section ExactSums.
Context (A : Numeric.arithmetic).
Hypothesis add_comm :
  forall a b, Numeric.add A a b = Numeric.add A b a.
Hypothesis add_assoc :
  forall a b c, Numeric.add A (Numeric.add A a b) c
                = Numeric.add A a (Numeric.add A b c).
Hypothesis add_zero : forall a, Numeric.add A (Numeric.zero A) a = a.

(** A walk that starts from [L] ends with [L] plus what the walk adds
    to zero. *)
Lemma numeric_climb_from (tr : Numeric.tree A) (m : Z) (fuel : nat) :
  forall u L,
  Numeric.climb tr m fuel u L
  = (s ← Numeric.climb tr m fuel u (Numeric.zero A);
     Ok (Numeric.add A L s)).
Proof.
  induction fuel as [|fuel IH]; intros u L; simpl.
  - destruct (u =? m); [| reflexivity].
    simpl. rewrite add_comm, add_zero. reflexivity.
  - destruct (u =? m).
    + simpl. rewrite add_comm, add_zero. reflexivity.
    + rewrite (IH _ (Numeric.add A L _)).
      rewrite (IH _ (Numeric.add A (Numeric.zero A) _)).
      destruct (Numeric.climb tr m fuel (Numeric.parent tr u)
                  (Numeric.zero A)) as [s| |]; simpl; try reflexivity.
      rewrite add_zero, add_assoc. reflexivity.
Qed.

Lemma numeric_climb_no_exception (tr : Numeric.tree A) (m : Z)
  (fuel : nat) :
  forall u L e, Numeric.climb tr m fuel u L <> Raise e.
Proof.
  induction fuel as [|fuel IH]; intros u L e; simpl.
  - destruct (u =? m); discriminate.
  - destruct (u =? m); [discriminate | apply IH].
Qed.

(** The path length is what the walk from [x] adds, plus what the walk
    from [y] adds. *)
Lemma numeric_path_length_two_walks (fuel : nat) (tr : Numeric.tree A)
  (x y : Z) :
  Numeric.path_length fuel tr x y
  = (sx ← Numeric.climb tr (Numeric.mrca tr x y) fuel x (Numeric.zero A);
     sy ← Numeric.climb tr (Numeric.mrca tr x y) fuel y (Numeric.zero A);
     Ok (Numeric.add A sx sy)).
Proof.
  unfold Numeric.path_length. set (m := Numeric.mrca tr x y). simpl.
  destruct (Numeric.climb tr m fuel x (Numeric.zero A)) as [sx| |];
    simpl; try reflexivity.
  rewrite (numeric_climb_from tr m fuel y sx).
  destruct (Numeric.climb tr m fuel y (Numeric.zero A)); reflexivity.
Qed.

Lemma numeric_path_length_swap (fuel : nat) (tr : Numeric.tree A)
  (x y : Z) :
  Numeric.mrca tr x y = Numeric.mrca tr y x ->
  Numeric.path_length fuel tr x y = Numeric.path_length fuel tr y x.
Proof.
  intros Hm. rewrite !numeric_path_length_two_walks, <- Hm.
  set (m := Numeric.mrca tr x y).
  pose proof (numeric_climb_no_exception tr m fuel x (Numeric.zero A)) as Hx.
  pose proof (numeric_climb_no_exception tr m fuel y (Numeric.zero A)) as Hy.
  destruct (Numeric.climb tr m fuel x (Numeric.zero A)) as [sx|e|];
    [| exfalso; exact (Hx e eq_refl) |];
    (destruct (Numeric.climb tr m fuel y (Numeric.zero A)) as [sy|e|];
     [| exfalso; exact (Hy e eq_refl) |]); simpl; try reflexivity.
  rewrite add_comm. reflexivity.
Qed.
End ExactSums.

Lemma Qplus_comm_eq (a b : Q) : Qplus a b = Qplus b a.
Proof.
  destruct a as [a1 a2], b as [b1 b2]. unfold Qplus. simpl.
  f_equal; [ring | apply Pos.mul_comm].
Qed.

Lemma Qplus_assoc_eq (a b c : Q) :
  Qplus (Qplus a b) c = Qplus a (Qplus b c).
Proof.
  destruct a as [a1 a2], b as [b1 b2], c as [c1 c2]. unfold Qplus. simpl.
  f_equal; [rewrite !Pos2Z.inj_mul; ring | symmetry; apply Pos.mul_assoc].
Qed.

Lemma Qplus_zero_eq (a : Q) : Qplus 0 a = a.
Proof.
  destruct a as [a1 a2]. unfold Qplus. simpl. rewrite Z.mul_1_r.
  reflexivity.
Qed.

(** C8, at a failing input.  On [ladder_tree] (node 4 of time 0.6 above
    node 3 of time 0.5 and leaf 1, node 3 above the leaves 0 and 2, span
    and sequence length 1) the MRCA query answers node 4 for [(0, 1)] and
    for [(1, 0)], and in binary64 [branch_length_diversity(ts, 0, 1)] is
    [1.2] while [branch_length_diversity(ts, 1, 0)] is
    [1.2000000000000002]: the walk from leaf 0 adds [0.5] and
    [0.09999999999999998], the walk from leaf 1 adds [0.6], and the two
    orders round differently. *)
Lemma branch_length_diversity_order_matters :
  Numeric.mrca ladder_tree 0 1 = 4
  /\ Numeric.mrca ladder_tree 1 0 = 4
  /\ Numeric.branch_length_diversity 2 [ladder_tree] 1%float 0 1
     = Ok 0x1.3333333333333p+0%float
  /\ Numeric.branch_length_diversity 2 [ladder_tree] 1%float 1 0
     = Ok 0x1.3333333333334p+0%float
  /\ Numeric.branch_length_diversity 2 [ladder_tree] 1%float 0 1
     <> Numeric.branch_length_diversity 2 [ladder_tree] 1%float 1 0.
Proof.
  split; [reflexivity |]. split; [reflexivity |].
  split; [vm_compute; reflexivity |]. split; [vm_compute; reflexivity |].
  intros H.
  apply (f_equal (fun r => match r with
                           | Ok v => PrimFloat.eqb v 0x1.3333333333333p+0%float
                           | _ => false
                           end)) in H.
  vm_compute in H. discriminate.
Qed.

(** A walk of [k] steps that reaches [m] adds the branch lengths of its
    chain one after the other, in any arithmetic. *)
Lemma numeric_climb_walked (A : Numeric.arithmetic) (tr : Numeric.tree A)
  (m : Z) (k : nat) :
  forall u L fuel,
  Numeric.reaches tr u k m -> (k <= fuel)%nat ->
  Numeric.climb tr m fuel u L
  = Ok (Numeric.walked tr (Numeric.chain tr k u) L).
Proof.
  induction k as [|k IH]; intros u L fuel [Hn Hc] Hk.
  - simpl in Hn. subst m.
    destruct fuel; simpl; rewrite Z.eqb_refl; reflexivity.
  - simpl in Hn, Hc. rewrite not_elem_of_cons in Hc. destruct Hc as [Hne Hc].
    destruct fuel as [|fuel]; [lia |].
    simpl. destruct (u =? m) eqn:Eu; [apply Z.eqb_eq in Eu; congruence |].
    apply IH; [split; assumption | lia].
Qed.

(** C8, as the code has it.  Swapping [x] and [y] makes [path_length]
    take the same two walks in the other order: with the MRCA [dx] steps
    above [x] and [dy] steps above [y], [path_length(tr, x, y)] adds to
    zero the branch lengths from [x] up and then those from [y] up, and
    [path_length(tr, y, x)] adds those from [y] first; this holds in any
    arithmetic, binary64 included.  Where addition is commutative and
    associative and adding to zero changes nothing, as over the
    rationals, and the MRCA query of every tree answers the same for
    [(x, y)] and [(y, x)], [branch_length_diversity(ts, x, y)] and
    [branch_length_diversity(ts, y, x)] have the same outcome. *)
Theorem branch_length_diversity_symmetric_when_exact
  (A : Numeric.arithmetic) (fuel : nat) (trees : list (Numeric.tree A))
  (sequence_length : Numeric.num A) (x y : Z) :
  (forall tr dx dy,
     let m := Numeric.mrca tr x y in
     Numeric.mrca tr y x = m ->
     Numeric.reaches tr x dx m -> Numeric.reaches tr y dy m ->
     (dx <= fuel)%nat -> (dy <= fuel)%nat ->
     Numeric.path_length fuel tr x y
     = Ok (Numeric.walked tr (Numeric.chain tr dy y)
             (Numeric.walked tr (Numeric.chain tr dx x) (Numeric.zero A)))
     /\ Numeric.path_length fuel tr y x
        = Ok (Numeric.walked tr (Numeric.chain tr dx x)
                (Numeric.walked tr (Numeric.chain tr dy y) (Numeric.zero A))))
  /\ ((forall a b, Numeric.add A a b = Numeric.add A b a) ->
      (forall a b c, Numeric.add A (Numeric.add A a b) c
                     = Numeric.add A a (Numeric.add A b c)) ->
      (forall a, Numeric.add A (Numeric.zero A) a = a) ->
      (forall tr, tr ∈ trees -> Numeric.mrca tr x y = Numeric.mrca tr y x) ->
      Numeric.branch_length_diversity fuel trees sequence_length x y
      = Numeric.branch_length_diversity fuel trees sequence_length y x).
Proof.
  split.
  - intros tr dx dy m Hm Hx Hy Hdx Hdy. unfold Numeric.path_length.
    rewrite Hm. fold m. simpl.
    rewrite (numeric_climb_walked A tr m dx x _ fuel Hx Hdx). simpl.
    rewrite (numeric_climb_walked A tr m dy y _ fuel Hy Hdy). simpl.
    rewrite (numeric_climb_walked A tr m dy y _ fuel Hy Hdy). simpl.
    rewrite (numeric_climb_walked A tr m dx x _ fuel Hx Hdx). simpl.
    split; reflexivity.
  - intros Hcomm Hassoc Hzero Hm. unfold Numeric.branch_length_diversity.
    rewrite (for_each_body_eq trees
               (fun S_ tr => p ← Numeric.path_length fuel tr x y;
                             Ok (Numeric.add A S_ (Numeric.mul A p
                                                     (Numeric.length tr))))
               (fun S_ tr => p ← Numeric.path_length fuel tr y x;
                             Ok (Numeric.add A S_ (Numeric.mul A p
                                                     (Numeric.length tr)))));
      [reflexivity |].
    intros S_ tr Htr.
    rewrite (numeric_path_length_swap A Hcomm Hassoc Hzero fuel tr x y
               (Hm tr Htr)).
    reflexivity.
Qed.

Lemma branch_length_diversity_symmetric_when_exact_witness :
  Numeric.path_length 2 ladder_tree 0 1
  = Ok (Numeric.walked ladder_tree [1] (Numeric.walked ladder_tree [0; 3]
                                          0%float))
  /\ Numeric.path_length 2 ladder_tree 1 0
     = Ok (Numeric.walked ladder_tree [0; 3] (Numeric.walked ladder_tree [1]
                                                0%float))
  /\ branch_length_diversity 3 (Tables.load cherry_tables) 0 2
     = branch_length_diversity 3 (Tables.load cherry_tables) 2 0.
Proof.
  assert (Hno : forall (a b : Z) (l : list Z),
            bool_decide (a ∈ b :: l) = false -> a ∉ b :: l).
  { intros a b l H. apply bool_decide_eq_false in H. exact H. }
  split; [| split].
  - apply (proj1 (branch_length_diversity_symmetric_when_exact
                    Numeric.binary64 2 [ladder_tree] 1%float 0 1)
             ladder_tree 2%nat 1%nat);
      [reflexivity | | | lia | lia].
    + split; [reflexivity |]. apply Hno. reflexivity.
    + split; [reflexivity |]. apply Hno. reflexivity.
  - apply (proj1 (branch_length_diversity_symmetric_when_exact
                    Numeric.binary64 2 [ladder_tree] 1%float 0 1)
             ladder_tree 2%nat 1%nat);
      [reflexivity | | | lia | lia].
    + split; [reflexivity |]. apply Hno. reflexivity.
    + split; [reflexivity |]. apply Hno. reflexivity.
  - rewrite <- !numeric_diversity_rational.
    apply (proj2 (branch_length_diversity_symmetric_when_exact
                    Numeric.rational 3
                    (Numeric.of_tree <$> TreeSequence.trees
                                           (Tables.load cherry_tables) [])
                    (TreeSequence.sequence_length (Tables.load cherry_tables))
                    0 2)).
    + exact Qplus_comm_eq.
    + exact Qplus_assoc_eq.
    + exact Qplus_zero_eq.
    + intros tr Hin. cbn in Hin.
      apply list_elem_of_singleton in Hin. subst tr. reflexivity.
Defined.

(** ** branch_length_Y *)

(** On the star tree the three pairwise MRCAs of the leaves 0, 1 and 2 are
    all the root 3, and the tree is counted: it adds 1, the length of the
    branch from leaf 0 to the root times the span, and not 0. *)
Lemma star_tree_is_counted :
  TreeSequence.trees (Tables.load star_tables) [] = [star_tree]
  /\ SparseTree.mrca star_tree 0 1 = 3
  /\ SparseTree.mrca star_tree 0 2 = 3
  /\ SparseTree.mrca star_tree 1 2 = 3
  /\ returns (branch_length_Y_tree 1 star_tree 0 1 2 0) 1
  /\ ~ returns (branch_length_Y_tree 1 star_tree 0 1 2 0) 0
  /\ returns (branch_length_Y 1 (Tables.load star_tables) 0 1 2) 1.
Proof.
  repeat split; try reflexivity.
  vm_compute. discriminate.
Qed.

(** C3, as the code has it.  In a tree where the three pairwise MRCAs of
    [x], [y] and [z] are one node [m], the first test
    ([xy_mrca == xz_mrca]) holds and the tree adds
    [path_length(tr, x, m)] times its span to the sum.  Where [m] is an
    ancestor of [x], [k] parent steps above it, and the MRCA of [x] and
    [m] is [m], that path length is the sum of
    [time(parent(u)) - time(u)] over the nodes [u] from [x] up to just
    below [m]; it is positive, and not 0, when [x] is strictly below [m]
    and each of those nodes is younger than its parent. *)
Theorem unresolved_triple_counts_branch_to_mrca (fuel : nat)
  (tr : SparseTree.t) (x y z m : Z) (S_ : Q) (k : nat) :
  let len := fun u =>
    (SparseTree.time tr (SparseTree.parent tr u) - SparseTree.time tr u)%Q in
  SparseTree.mrca tr x y = m ->
  SparseTree.mrca tr x z = m ->
  SparseTree.mrca tr y z = m ->
  branch_length_Y_tree fuel tr x y z S_
  = (p ← path_length fuel tr x m; Ok (S_ + p * SparseTree.length tr)%Q)
  /\ (SparseTree.mrca tr x m = m -> reaches tr x k m -> (k <= fuel)%nat ->
      returns (path_length fuel tr x m) (Qsum (map len (chain tr k x)))
      /\ returns (branch_length_Y_tree fuel tr x y z S_)
                 (S_ + Qsum (map len (chain tr k x)) * SparseTree.length tr)
      /\ ((0 < k)%nat ->
          Forall (fun u => (SparseTree.time tr u
                            < SparseTree.time tr (SparseTree.parent tr u))%Q)
                 (chain tr k x) ->
          exists p, path_length fuel tr x m = Ok p /\ (0 < p)%Q)).
Proof.
  intros len Hxy Hxz Hyz.
  assert (Hfirst : branch_length_Y_tree fuel tr x y z S_
    = (p ← path_length fuel tr x m; Ok (S_ + p * SparseTree.length tr)%Q)).
  { unfold branch_length_Y_tree. rewrite Hxy, Hxz, Hyz, Z.eqb_refl.
    reflexivity. }
  split; [exact Hfirst |].
  intros Hxm Hr Hk.
  assert (Hm0 : reaches tr m 0 (SparseTree.mrca tr x m)).
  { rewrite Hxm. split; [reflexivity | apply not_elem_of_nil]. }
  assert (Hrk : reaches tr x k (SparseTree.mrca tr x m)).
  { rewrite Hxm. exact Hr. }
  pose proof (path_length_adds_chains fuel tr x m k 0 Hrk Hm0 Hk
                (Nat.le_0_l fuel)) as Hp.
  change (map (SparseTree.branch_length tr)) with (map len) in Hp.
  rewrite Hfirst. unfold mbind, result_bind.
  destruct (path_length fuel tr x m) as [p| |]; simpl in Hp;
    try contradiction.
  assert (Hsum : (p == Qsum (map len (chain tr k x)))%Q).
  { rewrite Hp. ring. }
  split; [exact Hsum |]. split; [simpl; rewrite Hsum; reflexivity |].
  intros Hpos Hinc. exists p. split; [reflexivity |]. rewrite Hsum.
  apply Qsum_positive.
  - destruct k; [lia | discriminate].
  - apply Forall_forall. intros q Hq. apply list_elem_of_In in Hq.
    apply in_map_iff in Hq. destruct Hq as (u & <- & Hu).
    apply list_elem_of_In in Hu. rewrite Forall_forall in Hinc.
    specialize (Hinc u Hu). unfold len. lra.
Qed.

Lemma unresolved_triple_counts_branch_to_mrca_witness :
  returns (branch_length_Y_tree 1 star_tree 0 1 2 0) (0 + ((1 - 0) + 0) * 1)
  /\ exists p, path_length 1 star_tree 0 3 = Ok p /\ (0 < p)%Q.
Proof.
  assert (Hr : reaches star_tree 0 1 3).
  { split; [reflexivity |]. vm_compute. intros H.
    apply elem_of_cons in H. destruct H as [H | H]; [discriminate |].
    inversion H. }
  destruct (unresolved_triple_counts_branch_to_mrca 1 star_tree 0 1 2 3 0%Q 1)
    as [_ H]; [reflexivity | reflexivity | reflexivity |].
  destruct (H eq_refl Hr (Nat.le_refl 1)) as (_ & Hadd & Hpos).
  split; [exact Hadd |].
  apply Hpos; [lia |]. repeat constructor.
Defined.

(** ** branch_stats_node_iter *)

Lemma snapshots_length tb tracked evs : forall E left,
  List.length (Tables.snapshots tb tracked E left evs) = List.length evs.
Proof.
  induction evs as [|ev evs IH]; intros E left; simpl; [reflexivity |].
  rewrite IH. reflexivity.
Qed.

Lemma load_consistent tb : TreeSequence.consistent (Tables.load tb).
Proof. intros tracked. simpl. apply snapshots_length. Qed.

(** Iterators that all have a next snapshot hand it over. *)
Lemma next_all_nonempty (tr_its : list (list SparseTree.t)) :
  Forall (fun it => it ≠ []) tr_its ->
  exists trs rest,
    next_all tr_its = Ok (trs, rest)
    /\ List.length trs = List.length tr_its.
Proof.
  induction tr_its as [|it others IH]; intros Hne; simpl.
  - exists [], []. split; reflexivity.
  - inversion Hne as [|? ? Hit Hothers]; subst.
    destruct it as [|tr it']; [contradiction |].
    destruct (IH Hothers) as (trs & rest & -> & Hlen).
    exists (tr :: trs), (it' :: rest). split; [reflexivity |].
    simpl. rewrite Hlen. reflexivity.
Qed.

(** C5.  For a tree sequence with at least one tree, a [method] other than
    ['length'] and ['mutations'] makes [branch_stats_node_iter] fail: no
    number is returned.  The failure is raised while the first tree is
    handled, before anything is added to the sum; it is the [TypeError]
    of the unknown method (with no leaf set at all, [trs[0]] fails first,
    with an [IndexError]). *)
Theorem unknown_method_fails (ts : TreeSequence.t) (leaf_sets : list (list Z))
  (condition : list Z -> bool) (method : string) :
  TreeSequence.consistent ts ->
  (0 < TreeSequence.num_trees ts)%nat ->
  method ≠ "length"%string ->
  method ≠ "mutations"%string ->
  exists e,
    branch_stats_node_iter ts leaf_sets condition method = Raise e
    /\ (leaf_sets ≠ [] -> e = TypeError ("Unknown method " ++ method)).
Proof.
  intros Hc Hn Hl Hm. unfold branch_stats_node_iter.
  destruct (TreeSequence.num_trees ts) as [|n] eqn:En; [lia |].
  unfold py_range. simpl seq. rewrite fmap_cons. simpl for_each.
  unfold node_iter_tree at 1.
  destruct (next_all_nonempty
              ((fun x => TreeSequence.trees ts x) <$> leaf_sets))
    as (trs & rest & -> & Hlen).
  { apply Forall_fmap, Forall_forall. intros x _. simpl. intros Hx.
    specialize (Hc x). rewrite Hx, En in Hc. discriminate. }
  rewrite length_fmap in Hlen.
  apply String.eqb_neq in Hl. apply String.eqb_neq in Hm.
  destruct trs as [|tr0 trs].
  - exists IndexError. split; [reflexivity |].
    intros Hne. destruct leaf_sets; [contradiction | discriminate].
  - exists (TypeError ("Unknown method " ++ method)).
    split; [| reflexivity].
    simpl. rewrite Hl, Hm. reflexivity.
Qed.

Lemma unknown_method_fails_witness :
  branch_stats_node_iter (Tables.load cherry_tables) [[0]] (fun _ => true)
    "branch"
  = Raise (TypeError "Unknown method branch").
Proof.
  destruct (unknown_method_fails (Tables.load cherry_tables) [[0]]
              (fun _ => true) "branch") as (e & He & Hty).
  - apply load_consistent.
  - simpl. lia.
  - discriminate.
  - discriminate.
  - rewrite He. rewrite Hty; [reflexivity | discriminate].
Defined.

Lemma py_dict_fold_lookup (f : Z -> bool) (l : list Z) (k : Z) :
  forall d : gmap Z bool,
  foldl (fun d kv => <[kv.1 := kv.2]> d) d ((fun n => (n, f n)) <$> l) !! k
  = if decide (k ∈ l) then Some (f k) else d !! k.
Proof.
  induction l as [|x l IH]; intros d; simpl.
  - destruct (decide (k ∈ [])) as [Hin | _]; [inversion Hin | reflexivity].
  - rewrite IH.
    destruct (decide (k ∈ l)) as [Hin | Hnin].
    + rewrite decide_True by (now right). reflexivity.
    + destruct (decide (k = x)) as [-> | Hne].
      * rewrite decide_True by (now left). apply lookup_insert_eq.
      * rewrite decide_False.
        -- apply lookup_insert_ne. congruence.
        -- rewrite elem_of_cons. tauto.
Qed.

Lemma py_dict_lookup (f : Z -> bool) (l : list Z) (k : Z) :
  k ∈ l -> dict_get (py_dict ((fun n => (n, f n)) <$> l)) k = Ok (f k).
Proof.
  intros Hin. unfold dict_get, py_dict. rewrite py_dict_fold_lookup.
  rewrite decide_True by exact Hin. reflexivity.
Qed.

(** The loop over the mutations of a tree adds one per counted mutation. *)
Lemma mutation_loop (g : Z -> bool) (d : gmap Z bool)
  (muts : list Mutation) :
  Forall (fun mut => dict_get d (mut_node mut) = Ok (g (mut_node mut))) muts ->
  forall S_ : Q,
  exists v,
    for_each muts (fun S_ mut =>
        counted ← dict_get d (mut_node mut);
        if counted : bool then Ok (S_ + 1)%Q else Ok S_) S_ = Ok v
    /\ (v == S_ + inject_Z (Z.of_nat (List.length
                   (List.filter (fun mut => g (mut_node mut)) muts))))%Q.
Proof.
  induction muts as [|mut muts IH]; intros Hd S_; simpl.
  - exists S_. split; [reflexivity |]. simpl. ring.
  - inversion Hd as [|? ? Hmut Hrest]; subst. rewrite Hmut. simpl.
    destruct (g (mut_node mut)).
    + destruct (IH Hrest (S_ + 1)%Q) as (v & Hv & Hs).
      exists v. split; [exact Hv |]. rewrite Hs.
      cbn [List.length]. rewrite Nat2Z.inj_succ, <- Z.add_1_r, inject_Z_plus.
      simpl. ring.
    + destruct (IH Hrest S_) as (v & Hv & Hs). exists v. split; assumption.
Qed.

Lemma next_all_heads (tr_its : list (list SparseTree.t)) :
  Forall (fun it => it ≠ []) tr_its ->
  next_all tr_its = Ok (row_at tr_its 0, tail <$> tr_its).
Proof.
  induction tr_its as [|it others IH]; intros Hne; simpl; [reflexivity |].
  inversion Hne as [|? ? Hit Hothers]; subst.
  destruct it as [|tr it']; [contradiction |].
  rewrite (IH Hothers). reflexivity.
Qed.

Lemma row_at_tail (tr_its : list (list SparseTree.t)) (k : nat) :
  row_at (tail <$> tr_its) k = row_at tr_its (S k).
Proof.
  unfold row_at. induction tr_its as [|it others IH]; [reflexivity |].
  rewrite fmap_cons. cbn [omap list_omap]. rewrite IH.
  destruct it; reflexivity.
Qed.

(** Two ids that differ are two objects. *)
Lemma py_is_not_other (a b : Z) : a ≠ b -> py_is_not a b = true.
Proof.
  intros Hne. unfold py_is_not. apply Z.eqb_neq in Hne. rewrite Hne.
  reflexivity.
Qed.

(** One step of the loop over the trees, for the method ['mutations']. *)
Lemma node_iter_tree_mutations_entries (condition : list Z -> bool)
  (tr_its : list (list SparseTree.t)) (S_ : Q) tr0 trs :
  Forall (fun it => it ≠ []) tr_its ->
  row_at tr_its 0 = tr0 :: trs ->
  mutations_have_entries tr0 ->
  exists v,
    node_iter_tree condition "mutations" (S_, tr_its)
    = Ok (v, tail <$> tr_its)
    /\ (v == S_ + inject_Z (counted_mutations condition (row_at tr_its 0)))%Q.
Proof.
  intros Hne Hrow Hmut. unfold node_iter_tree.
  rewrite (next_all_heads _ Hne), Hrow. simpl.
  destruct (mutation_loop
              (fun node => condition (tracked_counts (tr0 :: trs) node))
              (py_dict ((fun node =>
                           (node, condition (tracked_counts (tr0 :: trs) node)))
                 <$> filter (fun node =>
                               py_is_not node (SparseTree.root tr0) = true)
                       (SparseTree.nodes tr0)))
              (SparseTree.mutations tr0)) with (S_ := S_) as (v & Hv & Hs).
  { eapply Forall_impl; [exact Hmut |]. intros mut [Hin Hroot].
    apply (py_dict_lookup
             (fun node => condition (tracked_counts (tr0 :: trs) node))).
    apply list_elem_of_filter. split; assumption. }
  exists v. split; [| exact Hs].
  simpl in Hv. rewrite Hv. reflexivity.
Qed.

(** The loop over the trees, for the method ['mutations']: [n] steps over
    iterators that each hold [n] snapshots. *)
Lemma mutations_loop_entries (condition : list Z -> bool) (n : nat) :
  forall (ks : list Z) (tr_its : list (list SparseTree.t)) (S_ : Q),
  List.length ks = n ->
  tr_its ≠ [] ->
  Forall (fun it => List.length it = n) tr_its ->
  (forall k tr0 trs, (k < n)%nat -> row_at tr_its k = tr0 :: trs ->
                     mutations_have_entries tr0) ->
  exists v rest,
    for_each ks (fun acc _ => node_iter_tree condition "mutations" acc)
      (S_, tr_its) = Ok (v, rest)
    /\ (v == S_ + inject_Z (Zsum (map
              (fun k => counted_mutations condition (row_at tr_its k))
              (seq 0 n))))%Q.
Proof.
  induction n as [|n IH]; intros ks tr_its S_ Hks Hne Hlen Hmut.
  - destruct ks; [| discriminate]. exists S_, tr_its.
    split; [reflexivity |]. simpl. ring.
  - destruct ks as [|k0 ks]; [discriminate |].
    assert (Hnonempty : Forall (fun it => it ≠ []) tr_its).
    { eapply Forall_impl; [exact Hlen |]. intros it Hit ->. discriminate. }
    destruct (row_at tr_its 0) as [|tr0 trs] eqn:Hrow.
    { destruct tr_its as [|it others]; [contradiction |].
      inversion Hnonempty as [|? ? Hit _]; subst.
      destruct it; [contradiction | discriminate]. }
    destruct (node_iter_tree_mutations_entries condition tr_its S_ tr0 trs
                Hnonempty Hrow) as (v1 & Hstep & Hs1).
    { apply (Hmut 0%nat tr0 trs); [lia | exact Hrow]. }
    destruct (IH ks (tail <$> tr_its) v1) as (v & rest & Hloop & Hs).
    + simpl in Hks. lia.
    + destruct tr_its; [contradiction | discriminate].
    + apply Forall_fmap. eapply Forall_impl; [exact Hlen |].
      intros it Hit. simpl. destruct it; simpl in *; lia.
    + intros k tr0' trs' Hk Hrow'. rewrite row_at_tail in Hrow'.
      apply (Hmut (S k) tr0' trs'); [lia | exact Hrow'].
    + exists v, rest. split.
      * cbn [for_each]. rewrite Hstep. exact Hloop.
      * rewrite Hs, Hs1. cbn [seq map Zsum].
        rewrite <- seq_shift, map_map, inject_Z_plus.
        rewrite Hrow.
        assert (Hext :
          map (fun k => counted_mutations condition
                          (row_at (tail <$> tr_its) k)) (seq 0 n)
          = map (fun k => counted_mutations condition (row_at tr_its (S k)))
              (seq 0 n)).
        { apply map_ext. intros k. rewrite row_at_tail. reflexivity. }
        rewrite Hext. ring.
Qed.

(** The same loop when no mutation sits on a root. *)
Lemma mutations_loop (condition : list Z -> bool) (n : nat) :
  forall (ks : list Z) (tr_its : list (list SparseTree.t)) (S_ : Q),
  List.length ks = n ->
  tr_its ≠ [] ->
  Forall (fun it => List.length it = n) tr_its ->
  (forall k tr0 trs, (k < n)%nat -> row_at tr_its k = tr0 :: trs ->
                     mutations_on_branches tr0) ->
  exists v rest,
    for_each ks (fun acc _ => node_iter_tree condition "mutations" acc)
      (S_, tr_its) = Ok (v, rest)
    /\ (v == S_ + inject_Z (Zsum (map
              (fun k => counted_mutations condition (row_at tr_its k))
              (seq 0 n))))%Q.
Proof.
  intros ks tr_its S_ Hks Hne Hlen Hmut.
  apply mutations_loop_entries; try assumption.
  intros k tr0 trs Hk Hrow.
  eapply Forall_impl; [exact (Hmut k tr0 trs Hk Hrow) |].
  intros mut [Hin Hroot]. split; [exact Hin |].
  apply py_is_not_other. exact Hroot.
Qed.

(** On the tree sequence [cherry_tables] (span 2, one mutation, on leaf 0)
    with every node counted, there is one counted mutation and the method
    ['mutations'] returns 1/2, not 1: the total is divided by the sequence
    length. *)
Lemma mutations_total_is_divided :
  total_counted_mutations (Tables.load cherry_tables) [[0; 1; 2]]
    (fun _ => true) = 1
  /\ returns (branch_stats_node_iter (Tables.load cherry_tables) [[0; 1; 2]]
                (fun _ => true) "mutations") (1 # 2)
  /\ ~ returns (branch_stats_node_iter (Tables.load cherry_tables) [[0; 1; 2]]
                  (fun _ => true) "mutations") 1.
Proof.
  split; [reflexivity |]. split; [reflexivity |].
  vm_compute. discriminate.
Qed.

(** C4, as the code has it.  With the method ['mutations'], on a tree
    sequence whose mutations sit on nodes of their tree other than the
    root, [branch_stats_node_iter] returns the number of mutations that
    sit on a node whose count vector satisfies the predicate, summed over
    the trees with no weighting of a tree by its span, and divided by the
    sequence length. *)
Theorem mutations_method_total_over_sequence_length (ts : TreeSequence.t)
  (leaf_sets : list (list Z)) (condition : list Z -> bool) :
  TreeSequence.consistent ts ->
  leaf_sets ≠ [] ->
  ~ (TreeSequence.sequence_length ts == 0)%Q ->
  (forall k tr0 trs, (k < TreeSequence.num_trees ts)%nat ->
     row_at ((fun x => TreeSequence.trees ts x) <$> leaf_sets) k = tr0 :: trs ->
     mutations_on_branches tr0) ->
  returns (branch_stats_node_iter ts leaf_sets condition "mutations")
          (inject_Z (total_counted_mutations ts leaf_sets condition)
           / TreeSequence.sequence_length ts).
Proof.
  intros Hc Hne Hlen Hmut. unfold branch_stats_node_iter.
  destruct (mutations_loop condition (TreeSequence.num_trees ts)
              (py_range (TreeSequence.num_trees ts))
              ((fun x => TreeSequence.trees ts x) <$> leaf_sets) 0%Q)
    as (v & rest & Hloop & Hs).
  - unfold py_range. rewrite length_fmap, length_seq. reflexivity.
  - destruct leaf_sets; [contradiction | discriminate].
  - apply Forall_fmap, Forall_forall. intros x _. apply Hc.
  - exact Hmut.
  - rewrite Hloop. simpl. unfold py_div, TreeSequence.get_sequence_length.
    destruct (Qeq_bool (TreeSequence.sequence_length ts) 0) eqn:Ez.
    + apply Qeq_bool_iff in Ez. contradiction.
    + simpl. rewrite Hs. unfold total_counted_mutations.
      rewrite Qplus_0_l. reflexivity.
Qed.

Lemma mutations_method_total_over_sequence_length_witness :
  returns (branch_stats_node_iter (Tables.load cherry_tables) [[0; 1; 2]]
             (fun _ => true) "mutations")
          (inject_Z 1 / 2).
Proof.
  apply (mutations_method_total_over_sequence_length
           (Tables.load cherry_tables) [[0; 1; 2]] (fun _ => true)).
  - apply load_consistent.
  - discriminate.
  - discriminate.
  - intros k tr0 trs Hk Hrow. simpl in Hk.
    assert (k = 0%nat) as -> by lia.
    injection Hrow as <- _.
    repeat constructor; discriminate.
Defined.

(** ** branch_stats: which count vectors a record changes *)

Lemma bind_ok {A B} (r : result A) (k : A -> result B) (b : B) :
  (a ← r; k a) = Ok b -> exists a, r = Ok a /\ k a = Ok b.
Proof.
  unfold mbind, result_bind. destruct r as [a| |]; try discriminate.
  intros H. exists a. split; [reflexivity | exact H].
Qed.

Ltac bind_inv H a Ha :=
  apply bind_ok in H; destruct H as (a & Ha & H).

Lemma py_get_index {A} (l : list A) (i : Z) (a : A) :
  py_get l i = Ok a ->
  exists n, py_index (List.length l) i = Some n /\ l !! n = Some a.
Proof.
  unfold py_get. destruct (py_index (List.length l) i) as [n|];
    [| discriminate].
  destruct (l !! n) as [a'|] eqn:E; [| discriminate].
  intros [= <-]. exists n. split; [reflexivity | exact E].
Qed.

Lemma py_set_index {A} (l l' : list A) (i : Z) (a : A) :
  py_set l i a = Ok l' ->
  exists n, py_index (List.length l) i = Some n /\ l' = <[n := a]> l.
Proof.
  unfold py_set. destruct (py_index (List.length l) i) as [n|];
    [| discriminate].
  intros [= <-]. exists n. split; reflexivity.
Qed.

Lemma only_row_refl u X : only_row u X X.
Proof. split; [reflexivity | intros; reflexivity]. Qed.

Lemma only_row_trans u X1 X2 X3 :
  only_row u X1 X2 -> only_row u X2 X3 -> only_row u X1 X3.
Proof.
  intros [L1 F1] [L2 F2]. split; [congruence |].
  intros j Hj. rewrite F2, F1; [reflexivity | exact Hj |].
  rewrite L1. exact Hj.
Qed.

Lemma X_set_only_row X u k v X' : X_set X u k v = Ok X' -> only_row u X X'.
Proof.
  unfold X_set. intros H.
  bind_inv H row Hrow. bind_inv H row' Hrow'.
  apply py_set_index in H. destruct H as (n & Hn & ->).
  split; [apply length_insert |].
  intros j Hj. apply list_lookup_insert_ne. congruence.
Qed.

Lemma for_each_only_row {A} (u : Z) (ks : list A)
  (body : list (list Z) -> A -> result (list (list Z))) :
  (forall X k X', body X k = Ok X' -> only_row u X X') ->
  forall X X', for_each ks body X = Ok X' -> only_row u X X'.
Proof.
  intros Hbody. induction ks as [|k ks IH]; intros X X' H; simpl in H.
  - injection H as <-. apply only_row_refl.
  - bind_inv H X1 H1.
    eapply only_row_trans; [eapply Hbody; exact H1 | apply IH; exact H].
Qed.

Lemma X_sub_row_only_row n X u node X' :
  X_sub_row n X u node = Ok X' -> only_row u X X'.
Proof.
  apply for_each_only_row. intros X0 k X1 H.
  bind_inv H a Ha. bind_inv H b Hb. eapply X_set_only_row; exact H.
Qed.

Lemma X_add_vec_only_row n X u dx X' :
  X_add_vec n X u dx = Ok X' -> only_row u X X'.
Proof.
  apply for_each_only_row. intros X0 k X1 H.
  bind_inv H a Ha. bind_inv H b Hb. eapply X_set_only_row; exact H.
Qed.

Lemma X_zero_row_only_row n X node X' :
  X_zero_row n X node = Ok X' -> only_row node X X'.
Proof.
  apply for_each_only_row. intros X0 k X1 H. eapply X_set_only_row; exact H.
Qed.

Lemma X_assign_row_only_row n X node dx X' :
  X_assign_row n X node dx = Ok X' -> only_row node X X'.
Proof.
  apply for_each_only_row. intros X0 k X1 H.
  bind_inv H b Hb. eapply X_set_only_row; exact H.
Qed.

Lemma path_up_head fuel pi u : u ∈ path_up fuel pi u.
Proof. destruct fuel; left. Qed.

Lemma path_up_step fuel pi u p :
  py_get pi u = Ok p -> p ≠ -1 ->
  path_up (S fuel) pi u = u :: path_up fuel pi p.
Proof.
  intros Hp Hne. simpl. rewrite Hp.
  apply Z.eqb_neq in Hne. rewrite Hne. reflexivity.
Qed.

Lemma off_path_cons len u path j :
  off_path len (u :: path) j ->
  py_index len u ≠ Some j /\ off_path len path j.
Proof.
  intros H. split; [apply H; left |].
  intros v Hv. apply H. now right.
Qed.

(** The two [if] that adjust [L] in the loop leave [X] and [pi] alone. *)
Lemma flip_block_keeps (old_f new_f : bool) (next_u u : Z) (st st' : engine) :
  (if negb (next_u =? -1) then
     st1 ← (if old_f && negb new_f then
              b ← pi_branch st u; Ok (with_L st (st_L st - b)%Q)
            else Ok st);
     (if new_f && negb old_f then
        b ← pi_branch st1 u; Ok (with_L st1 (st_L st1 + b)%Q)
      else Ok st1)
   else Ok st) = Ok st' ->
  st_X st' = st_X st /\ st_pi st' = st_pi st.
Proof.
  destruct (negb (next_u =? -1)); [| intros [= <-]; split; reflexivity].
  intros H. bind_inv H st1 H1.
  assert (E1 : st_X st1 = st_X st /\ st_pi st1 = st_pi st).
  { destruct (old_f && negb new_f).
    - bind_inv H1 b Hb. injection H1 as <-. split; reflexivity.
    - injection H1 as <-. split; reflexivity. }
  destruct E1 as [EX Epi].
  destruct (new_f && negb old_f).
  - bind_inv H b Hb. injection H as <-. simpl. split; assumption.
  - injection H as <-. split; assumption.
Qed.

Lemma propagate_frame (condition : list Z -> bool)
  (update : list (list Z) -> Z -> result (list (list Z))) :
  (forall X v X', update X v = Ok X' -> only_row v X X') ->
  forall fuel st u next_u st',
  (u ≠ -1 -> py_get (st_pi st) u = Ok next_u) ->
  propagate condition update fuel st u next_u = Ok st' ->
  st_pi st' = st_pi st
  /\ List.length (st_X st') = List.length (st_X st)
  /\ (u = -1 -> st' = st)
  /\ (u ≠ -1 -> exists f, fuel = S f /\ forall j,
        off_path (List.length (st_X st)) (path_up f (st_pi st) u) j ->
        st_X st' !! j = st_X st !! j).
Proof.
  intros Hupd. induction fuel as [|f IH]; intros st u next_u st' Hnext H.
  - simpl in H. destruct (u =? -1) eqn:Eu; [| discriminate].
    injection H as <-. apply Z.eqb_eq in Eu.
    repeat split; try reflexivity. intros Hne. contradiction.
  - simpl in H. destruct (u =? -1) eqn:Eu.
    { injection H as <-. apply Z.eqb_eq in Eu.
      repeat split; try reflexivity. intros Hne. contradiction. }
    apply Z.eqb_neq in Eu. specialize (Hnext Eu).
    bind_inv H xu Hxu. bind_inv H X1 HX1. bind_inv H xu' Hxu'.
    bind_inv H st2 Hst2. bind_inv H next_u' Hnn.
    apply Hupd in HX1. destruct HX1 as [Hlen1 Hrow1].
    apply (flip_block_keeps (condition xu) (condition xu') next_u u
             (with_X st X1) st2) in Hst2.
    simpl in Hst2.
    destruct Hst2 as [EX2 Epi2].
    destruct (IH st2 next_u next_u' st') as (Epi & Elen & Hnull & Hup);
      [intros _; exact Hnn | exact H |].
    rewrite Epi2 in Epi. rewrite EX2 in Elen, Hup.
    split; [exact Epi |]. split; [congruence |].
    split; [intros; contradiction |].
    intros _. exists f. split; [reflexivity |].
    intros j Hoff.
    destruct (Z.eq_dec next_u (-1)) as [En | En].
    + rewrite (Hnull En), EX2. apply Hrow1.
      apply Hoff, path_up_head.
    + destruct (Hup En) as (f' & -> & Hframe).
      rewrite (path_up_step f' _ u next_u Hnext En) in Hoff.
      apply off_path_cons in Hoff. destruct Hoff as [Hu Hoff].
      rewrite Hframe.
      * apply Hrow1. exact Hu.
      * rewrite Hlen1, Epi2. exact Hoff.
Qed.

Lemma propagate_from_frame (condition : list Z -> bool)
  (update : list (list Z) -> Z -> result (list (list Z)))
  (fuel : nat) (st st' : engine) (node : Z) :
  (forall X v X', update X v = Ok X' -> only_row v X X') ->
  propagate_from condition update fuel st node = Ok st' ->
  st_pi st' = st_pi st
  /\ List.length (st_X st') = List.length (st_X st)
  /\ forall j,
       off_path (List.length (st_X st)) (path_up fuel (st_pi st) node) j ->
       st_X st' !! j = st_X st !! j.
Proof.
  intros Hupd H. unfold propagate_from in H.
  bind_inv H u Hu. destruct (u =? -1) eqn:Eu; simpl in H.
  - injection H as <-. repeat split; reflexivity.
  - apply Z.eqb_neq in Eu. bind_inv H next_u Hnext.
    destruct (propagate_frame condition update Hupd fuel st u next_u st')
      as (Epi & Elen & _ & Hup); [intros _; exact Hnext | exact H |].
    split; [exact Epi |]. split; [exact Elen |].
    destruct (Hup Eu) as (f & -> & Hframe).
    intros j Hoff. apply Hframe.
    rewrite (path_up_step f _ node u Hu Eu) in Hoff.
    apply off_path_cons in Hoff. apply Hoff.
Qed.

(** The loop over the children of a record that leaves changes [pi] and
    [L], not [X]. *)
Lemma out_children_keep_X (condition : list Z -> bool) (children : list Z) :
  forall st st',
  for_each children (fun st child =>
      xc ← py_get (st_X st) child;
      st ← (if condition xc then
              b ← pi_branch st child; Ok (with_L st (st_L st - b)%Q)
            else Ok st);
      pi ← py_set (st_pi st) child (-1);
      Ok (with_pi st pi)) st = Ok st' ->
  st_X st' = st_X st.
Proof.
  induction children as [|child children IH]; intros st st' H; simpl in H.
  - injection H as <-. reflexivity.
  - bind_inv H st1 H1. rewrite (IH _ _ H).
    bind_inv H1 xc Hxc. bind_inv H1 st2 H2. bind_inv H1 pi Hpi.
    injection H1 as <-. simpl.
    destruct (condition xc).
    + bind_inv H2 b Hb. injection H2 as <-. reflexivity.
    + injection H2 as <-. reflexivity.
Qed.

Lemma counted_block_keeps (c : bool) (st st' : engine) (node : Z)
  (adjust : Q -> Q -> Q) :
  (if c then b ← pi_branch st node; Ok (with_L st (adjust (st_L st) b))
   else Ok st) = Ok st' ->
  st_X st' = st_X st /\ st_pi st' = st_pi st.
Proof.
  destruct c.
  - intros H. bind_inv H b Hb. injection H as <-. split; reflexivity.
  - intros [= <-]. split; reflexivity.
Qed.

(** A record that leaves changes the count vectors of its node and of the
    ancestors of its node only. *)
Lemma record_out_frame (n : nat) (condition : list Z -> bool) (fuel : nat)
  (st st' : engine) (node : Z) (children : list Z) (time : Q) :
  record_out n condition fuel st (node, children, time) = Ok st' ->
  List.length (st_X st') = List.length (st_X st)
  /\ forall j,
       off_path (List.length (st_X st)) (path_up fuel (st_pi st') node) j ->
       st_X st' !! j = st_X st !! j.
Proof.
  intros H. unfold record_out in H.
  bind_inv H st1 H1. apply out_children_keep_X in H1.
  bind_inv H c Hc. bind_inv H st2 H2.
  apply (counted_block_keeps c st1 st2 node Qminus) in H2.
  destruct H2 as [EX2 Epi2].
  bind_inv H st3 H3.
  apply propagate_from_frame in H3;
    [| intros X v X' Hu; eapply X_sub_row_only_row; exact Hu].
  destruct H3 as (Epi3 & Elen3 & Hframe3).
  bind_inv H X4 H4. apply X_zero_row_only_row in H4.
  destruct H4 as [Elen4 Hrow4].
  injection H as <-. simpl.
  rewrite EX2, H1 in Elen3, Hframe3.
  split; [congruence |].
  intros j Hoff. rewrite Hrow4.
  - apply Hframe3. rewrite <- Epi3. exact Hoff.
  - rewrite Elen3. apply Hoff, path_up_head.
Qed.

(** The loop over the children of a record that enters changes [pi], [L]
    and the vector [dx], not [X]. *)
Lemma in_children_keep_X (n : nat) (condition : list Z -> bool) (node : Z)
  (children : list Z) :
  forall st dx st' dx',
  for_each children (fun '(st, dx) child =>
      xc ← py_get (st_X st) child;
      st ← (if condition xc then
              tn ← py_get (st_node_time st) node;
              tc ← py_get (st_node_time st) child;
              Ok (with_L st (st_L st + (tn - tc))%Q)
            else Ok st);
      pi ← py_set (st_pi st) child node;
      let st := with_pi st pi in
      dx ← dx_add_row n (st_X st) dx child;
      Ok (st, dx)) (st, dx) = Ok (st', dx') ->
  st_X st' = st_X st.
Proof.
  induction children as [|child children IH]; intros st dx st' dx' H;
    simpl in H.
  - injection H as <- <-. reflexivity.
  - bind_inv H acc H1. destruct acc as [st1 dx1]. rewrite (IH _ _ _ _ H).
    bind_inv H1 xc Hxc. bind_inv H1 st2 H2. bind_inv H1 pi Hpi.
    bind_inv H1 dx2 Hdx. injection H1 as <- <-. simpl.
    destruct (condition xc).
    + bind_inv H2 t1 Ht1. bind_inv H2 t2 Ht2. injection H2 as <-.
      reflexivity.
    + injection H2 as <-. reflexivity.
Qed.

(** A record that enters changes the count vectors of its node and of the
    ancestors of its node only. *)
Lemma record_in_frame (n : nat) (condition : list Z -> bool) (fuel : nat)
  (st st' : engine) (node : Z) (children : list Z) (time : Q) :
  record_in n condition fuel st (node, children, time) = Ok st' ->
  List.length (st_X st') = List.length (st_X st)
  /\ forall j,
       off_path (List.length (st_X st)) (path_up fuel (st_pi st') node) j ->
       st_X st' !! j = st_X st !! j.
Proof.
  intros H. unfold record_in in H.
  bind_inv H nt Hnt. bind_inv H acc H1. destruct acc as [st1 dx].
  apply in_children_keep_X in H1. simpl in H1.
  bind_inv H X2 H2. apply X_assign_row_only_row in H2.
  destruct H2 as [Elen2 Hrow2].
  bind_inv H c Hc. bind_inv H st3 H3.
  apply (counted_block_keeps c (with_X st1 X2) st3 node Qplus) in H3.
  simpl in H3. destruct H3 as [EX3 Epi3].
  apply propagate_from_frame in H;
    [| intros X v X' Hu; eapply X_add_vec_only_row; exact Hu].
  destruct H as (Epi & Elen & Hframe).
  rewrite EX3 in Elen, Hframe. rewrite H1 in Elen2, Hrow2.
  split; [congruence |].
  intros j Hoff. rewrite Hframe.
  - apply Hrow2. apply Hoff, path_up_head.
  - rewrite Elen2, <- Epi. exact Hoff.
Qed.

(** Detaching a node can only shorten a path to the root. *)
Lemma path_up_detach (pi : list Z) (c : nat) (fuel : nat) :
  forall u v,
  v ∈ path_up fuel (<[c := -1]> pi) u -> v ∈ path_up fuel pi u.
Proof.
  induction fuel as [|f IH]; intros u v Hv; simpl in *; [exact Hv |].
  apply elem_of_cons in Hv. destruct Hv as [-> | Hv]; [left |]. right.
  unfold py_get in *. rewrite length_insert in Hv.
  destruct (py_index (List.length pi) u) as [i|]; [| inversion Hv].
  destruct (decide (i = c)) as [-> | Hne].
  - destruct (pi !! c) as [p|] eqn:Ep.
    + rewrite list_lookup_insert_eq in Hv
        by (apply lookup_lt_Some in Ep; exact Ep).
      simpl in Hv. inversion Hv.
    + rewrite list_insert_ge in Hv
        by (apply lookup_ge_None; exact Ep).
      rewrite Ep in Hv. inversion Hv.
  - rewrite list_lookup_insert_ne in Hv by congruence.
    destruct (pi !! i) as [p|]; [| inversion Hv].
    destruct (p =? -1); [inversion Hv |]. apply IH. exact Hv.
Qed.

Lemma py_index_lt (len : nat) (i : Z) (n : nat) :
  py_index len i = Some n -> (n < len)%nat.
Proof.
  unfold py_index.
  destruct ((0 <=? i) && (i <? Z.of_nat len)) eqn:E1.
  - intros [= <-]. apply andb_true_iff in E1. lia.
  - destruct ((i <? 0) && (- Z.of_nat len <=? i)) eqn:E2; [| discriminate].
    intros [= <-]. apply andb_true_iff in E2. lia.
Qed.

Lemma py_get_after_set {A} (l l' : list A) (i : Z) (a : A) :
  py_set l i a = Ok l' -> py_get l' i = Ok a.
Proof.
  intros H. apply py_set_index in H. destruct H as (n & Hn & ->).
  unfold py_get. rewrite length_insert, Hn.
  rewrite list_lookup_insert_eq by (eapply py_index_lt; exact Hn).
  reflexivity.
Qed.

Lemma propagate_from_pi (condition : list Z -> bool)
  (update : list (list Z) -> Z -> result (list (list Z)))
  (fuel : nat) (st st' : engine) (node : Z) :
  (forall X v X', update X v = Ok X' -> only_row v X X') ->
  propagate_from condition update fuel st node = Ok st' ->
  st_pi st' = st_pi st.
Proof. intros Hupd H. eapply propagate_from_frame; eassumption. Qed.

(** The parent array after a record with one child has left. *)
Lemma record_out_single_pi (n : nat) (condition : list Z -> bool)
  (fuel : nat) (st st' : engine) (node child : Z) (time : Q) :
  record_out n condition fuel st (node, [child], time) = Ok st' ->
  exists c, py_index (List.length (st_pi st)) child = Some c
            /\ st_pi st' = <[c := -1]> (st_pi st).
Proof.
  intros H. unfold record_out in H.
  bind_inv H st1 H1. simpl in H1.
  bind_inv H1 st1' H1'. injection H1 as ->.
  bind_inv H1' xc Hxc. bind_inv H1' st0 H0. bind_inv H1' pi Hpi.
  injection H1' as <-.
  apply (counted_block_keeps (condition xc) st st0 child Qminus) in H0.
  destruct H0 as [_ Epi0]. rewrite Epi0 in Hpi.
  apply py_set_index in Hpi. destruct Hpi as (c & Hc & ->).
  bind_inv H cnt Hcnt. bind_inv H st2 H2.
  apply (counted_block_keeps cnt _ st2 node Qminus) in H2.
  destruct H2 as [_ Epi2]. simpl in Epi2.
  bind_inv H st3 H3.
  apply propagate_from_pi in H3;
    [| intros X v X' Hu; eapply X_sub_row_only_row; exact Hu].
  bind_inv H X4 H4. injection H as <-. simpl.
  exists c. split; [exact Hc | congruence].
Qed.

(** After a record with one child has entered, the parent of the child
    is the node of the record. *)
Lemma record_in_single_pi (n : nat) (condition : list Z -> bool)
  (fuel : nat) (st st' : engine) (node child : Z) (time : Q) :
  record_in n condition fuel st (node, [child], time) = Ok st' ->
  py_get (st_pi st') child = Ok node.
Proof.
  intros H. unfold record_in in H.
  bind_inv H nt Hnt. bind_inv H acc H1. destruct acc as [st1 dx].
  simpl in H1. bind_inv H1 acc' H1'. injection H1 as ->.
  bind_inv H1' xc Hxc. bind_inv H1' st0 H0. bind_inv H1' pi Hpi.
  bind_inv H1' dx1 Hdx. injection H1' as <- <-.
  apply py_get_after_set in Hpi.
  bind_inv H X2 H2. bind_inv H cnt Hcnt. bind_inv H st3 H3.
  apply (counted_block_keeps cnt _ st3 node Qplus) in H3.
  destruct H3 as [_ Epi3]. simpl in Epi3.
  apply propagate_from_pi in H;
    [| intros X v X' Hu; eapply X_add_vec_only_row; exact Hu].
  rewrite H, Epi3. exact Hpi.
Qed.

(** C9.  A diff event made of one edge record with one child, the leaf
    [child] under [node], leaves the count vector of every node off the
    path from [child] to its root as it was, whether the record leaves
    (the path is the one before the event, on which [node] is the parent
    of [child]) or enters (the path is the one after the event).  Rows
    are named by their position in [X]; [fuel] bounds the loop that walks
    up from [node]. *)
Theorem single_leaf_edge_frame (n : nat) (condition : list Z -> bool)
  (fuel : nat) (st st' : engine) (S_ S' len : Q) (node child : Z) (time : Q) :
  node ≠ -1 ->
  (diff_step n condition fuel (st, S_) (len, [(node, [child], time)], [])
   = Ok (st', S') ->
   py_get (st_pi st) child = Ok node ->
   forall j,
     off_path (List.length (st_X st))
              (path_up (S fuel) (st_pi st) child) j ->
     st_X st' !! j = st_X st !! j)
  /\ (diff_step n condition fuel (st, S_) (len, [], [(node, [child], time)])
      = Ok (st', S') ->
      forall j,
        off_path (List.length (st_X st))
                 (path_up (S fuel) (st_pi st') child) j ->
        st_X st' !! j = st_X st !! j).
Proof.
  intros Hnode. split.
  - intros H Hparent j Hoff. unfold diff_step in H. cbn [for_each] in H.
    bind_inv H st1 H1. bind_inv H1 st1' Hout. injection H1 as ->.
    injection H as <- _.
    destruct (record_out_single_pi n condition fuel st st1 node child time
                Hout) as (c & _ & Epi).
    apply record_out_frame in Hout. destruct Hout as [_ Hframe].
    apply Hframe. rewrite Epi.
    rewrite (path_up_step fuel _ child node Hparent Hnode) in Hoff.
    apply off_path_cons in Hoff. destruct Hoff as [_ Hoff].
    intros v Hv. apply Hoff. eapply path_up_detach. exact Hv.
  - intros H j Hoff. unfold diff_step in H. cbn [for_each] in H.
    bind_inv H st0 H0. injection H0 as <-.
    bind_inv H st1 H1. bind_inv H1 st1' Hin. injection H1 as ->.
    injection H as <- _.
    pose proof (record_in_single_pi n condition fuel st st1 node child time
                  Hin) as Hparent.
    apply record_in_frame in Hin. destruct Hin as [_ Hframe].
    apply Hframe.
    rewrite (path_up_step fuel _ child node Hparent Hnode) in Hoff.
    apply off_path_cons in Hoff. apply Hoff.
Qed.

Lemma single_leaf_edge_frame_witness :
  st_X leaf_edge_gone !! 1%nat = st_X leaf_edge_present !! 1%nat
  /\ st_X leaf_edge_present !! 1%nat = st_X leaf_edge_gone !! 1%nat.
Proof.
  split.
  - destruct (single_leaf_edge_frame 2 (fun _ => true) 2
                leaf_edge_present leaf_edge_gone 0 2 1 2 0 1) as [Hout _];
      [discriminate |].
    apply Hout; [reflexivity | reflexivity |].
    intros u Hu. vm_compute in Hu.
    repeat (apply elem_of_cons in Hu; destruct Hu as [-> | Hu];
            [discriminate |]).
    inversion Hu.
  - destruct (single_leaf_edge_frame 2 (fun _ => true) 2
                leaf_edge_gone leaf_edge_present 0 4 1 2 0 1) as [_ Hin];
      [discriminate |].
    apply Hin; [reflexivity |].
    intros u Hu. vm_compute in Hu.
    repeat (apply elem_of_cons in Hu; destruct Hu as [-> | Hu];
            [discriminate |]).
    inversion Hu.
Defined.

(** ** branch_stats against branch_stats_node_iter *)

(** C1, at a failing input.  On the tree sequence [old_leaf_tables] (one
    tree, leaf 1 sampled at time 1/2 below the root of time 1), with both
    leaves in one group and every branch counted, [branch_stats] returns 2
    and [branch_stats_node_iter] with the method ['length'] returns 3/2:
    the engine takes the branch above leaf 1 to be [1 - 0], since
    [node_time] holds [0.0] for a node that no record has as its parent
    node. *)
Theorem branch_stats_differs_from_node_iter :
  returns (branch_stats 1 (Tables.load old_leaf_tables) [[0; 1]]
             (fun _ => true) "length") 2
  /\ returns (branch_stats_node_iter (Tables.load old_leaf_tables) [[0; 1]]
                (fun _ => true) "length") (3 # 2)
  /\ ~ same_outcome
         (branch_stats 1 (Tables.load old_leaf_tables) [[0; 1]]
            (fun _ => true) "length")
         (branch_stats_node_iter (Tables.load old_leaf_tables) [[0; 1]]
            (fun _ => true) "length").
Proof.
  split; [reflexivity |]. split; [reflexivity |].
  vm_compute. discriminate.
Qed.

(** C2, at a failing input.  After the only event of [old_leaf_tables]
    every count vector is exact, and [L] is 2 while the branch lengths of
    the counted nodes of the tree add up to 3/2. *)
Theorem running_length_not_exact :
  let ts := Tables.load old_leaf_tables in
  let trs := row_at ((fun x => TreeSequence.trees ts x) <$> [[0; 1]]) 0 in
  exists st S_,
    branch_stats_run 1 ts [[0; 1]] (fun _ => true) = Ok (st, S_)
    /\ st_X st = exact_counts (TreeSequence.num_nodes ts) trs
    /\ (st_L st == 2)%Q
    /\ (counted_length (fun _ => true) trs == 3 # 2)%Q
    /\ ~ (st_L st == counted_length (fun _ => true) trs)%Q.
Proof.
  eexists _, _. split; [reflexivity |].
  split; [reflexivity |]. split; [reflexivity |]. split; [reflexivity |].
  vm_compute. discriminate.
Qed.

(** A second input on which the two differ, with every node time as the
    engine has it.  In [leaving_edge_tables] the edge from node 2 to node
    1 leaves and node 2 stays below the root, with no leaf of the group
    [[0]] below it.  For the predicate [none_below] the branch above node
    2 is counted in both trees; the engine takes it out of [L] when the
    edge leaves and does not put it back. *)
Lemma branch_stats_differs_when_edge_leaves :
  let ts := Tables.load leaving_edge_tables in
  let trs := row_at ((fun x => TreeSequence.trees ts x) <$> [[0]]) 1 in
  returns (branch_stats 2 ts [[0]] none_below "length") 1
  /\ returns (branch_stats_node_iter ts [[0]] none_below "length") (3 # 2)
  /\ exists st S_,
       branch_stats_run 2 ts [[0]] none_below = Ok (st, S_)
       /\ st_X st = exact_counts (TreeSequence.num_nodes ts) trs
       /\ (st_L st == 0)%Q
       /\ (counted_length none_below trs == 1)%Q.
Proof.
  split; [reflexivity |]. split; [reflexivity |].
  eexists _, _. split; [reflexivity |].
  split; [reflexivity |]. split; reflexivity.
Qed.

(** ** branch_length_Y: the resolved topologies *)

(** X3.  In a tree where [x] is the outlier of the three leaves (the MRCAs
    of [(x, y)] and of [(x, z)] are one node [r], reached from [x] in [k]
    steps and from the MRCA [a] of [(y, z)] in [j] steps, and the MRCA of
    [x] and [a] is [r]), the first test holds and [branch_length_Y] adds
    to the sum the span times [path_length(tr, x, a)], which is the sum of
    the branch lengths from [x] up to just below [r] and of those from
    [a] up to just below [r]. *)
Theorem branch_length_Y_outlier_x (fuel : nat) (tr : SparseTree.t)
  (x y z r : Z) (S_ : Q) (k j : nat) :
  let a := SparseTree.mrca tr y z in
  let len := fun u =>
    (SparseTree.time tr (SparseTree.parent tr u) - SparseTree.time tr u)%Q in
  SparseTree.mrca tr x y = r ->
  SparseTree.mrca tr x z = r ->
  SparseTree.mrca tr x a = r ->
  reaches tr x k r -> reaches tr a j r ->
  (k <= fuel)%nat -> (j <= fuel)%nat ->
  branch_length_Y_tree fuel tr x y z S_
  = (p ← path_length fuel tr x a; Ok (S_ + p * SparseTree.length tr)%Q)
  /\ returns (branch_length_Y_tree fuel tr x y z S_)
             (S_ + (Qsum (map len (chain tr k x))
                    + Qsum (map len (chain tr j a)))
                   * SparseTree.length tr).
Proof.
  intros a len Hxy Hxz Hxa Hk Hj Hkf Hjf.
  assert (Hfirst : branch_length_Y_tree fuel tr x y z S_
    = (p ← path_length fuel tr x a; Ok (S_ + p * SparseTree.length tr)%Q)).
  { unfold branch_length_Y_tree. rewrite Hxy, Hxz, Z.eqb_refl.
    reflexivity. }
  split; [exact Hfirst |]. rewrite Hfirst.
  rewrite <- Hxa in Hk, Hj.
  pose proof (path_length_adds_chains fuel tr x a k j Hk Hj Hkf Hjf) as Hp.
  change (map (SparseTree.branch_length tr)) with (map len) in Hp.
  destruct (path_length fuel tr x a) as [p| |]; simpl in *; try contradiction.
  rewrite Hp. reflexivity.
Qed.

Lemma branch_length_Y_outlier_x_witness :
  returns (branch_length_Y_tree 2 cherry_tree 2 0 1 0)
          (0 + (((5 - 0) + 0) + ((5 - 2) + 0)) * 2).
Proof.
  apply (branch_length_Y_outlier_x 2 cherry_tree 2 0 1 4 0%Q 1 1);
    try reflexivity; try lia.
  - split; [reflexivity |]. vm_compute. intros H.
    apply elem_of_cons in H. destruct H as [H | H]; [discriminate |].
    inversion H.
  - split; [reflexivity |]. vm_compute. intros H.
    apply elem_of_cons in H. destruct H as [H | H]; [discriminate |].
    inversion H.
Defined.

(** X4.  In a tree where [x] is not the outlier (the MRCAs of [(x, y)] and
    [(x, z)] differ, and the MRCA of [(y, z)] is one of the two), the
    second or the third test holds and [branch_length_Y] adds the span
    times [path_length(tr, x, a)], where [a] is the lower of the two, the
    MRCA of [x] with its nearer leaf ([(x, z)] when [y] is the outlier,
    [(x, y)] when [z] is): the sum of the branch lengths from [x] up to
    just below [a]. *)
Theorem branch_length_Y_inner_x (fuel : nat) (tr : SparseTree.t)
  (x y z : Z) (S_ : Q) (k : nat) :
  let xy := SparseTree.mrca tr x y in
  let xz := SparseTree.mrca tr x z in
  let yz := SparseTree.mrca tr y z in
  let a := if xy =? yz then xz else xy in
  let len := fun u =>
    (SparseTree.time tr (SparseTree.parent tr u) - SparseTree.time tr u)%Q in
  xy ≠ xz ->
  xy = yz \/ xz = yz ->
  SparseTree.mrca tr x a = a ->
  reaches tr x k a ->
  (k <= fuel)%nat ->
  branch_length_Y_tree fuel tr x y z S_
  = (p ← path_length fuel tr x a; Ok (S_ + p * SparseTree.length tr)%Q)
  /\ returns (branch_length_Y_tree fuel tr x y z S_)
             (S_ + Qsum (map len (chain tr k x)) * SparseTree.length tr).
Proof.
  intros xy xz yz a len Hne Hyz Hxa Hk Hkf.
  assert (Hstep : branch_length_Y_tree fuel tr x y z S_
    = (p ← path_length fuel tr x a; Ok (S_ + p * SparseTree.length tr)%Q)).
  { unfold branch_length_Y_tree. fold xy xz yz.
    apply Z.eqb_neq in Hne. rewrite Hne. unfold a.
    destruct (xy =? yz) eqn:E1; [reflexivity |].
    destruct Hyz as [Hyz | Hyz].
    - apply Z.eqb_neq in E1. contradiction.
    - apply Z.eqb_eq in Hyz. rewrite Hyz. reflexivity. }
  split; [exact Hstep |]. rewrite Hstep.
  assert (Ha0 : reaches tr a 0 (SparseTree.mrca tr x a)).
  { rewrite Hxa. split; [reflexivity | apply not_elem_of_nil]. }
  rewrite <- Hxa in Hk.
  pose proof (path_length_adds_chains fuel tr x a k 0 Hk Ha0 Hkf
                (Nat.le_0_l fuel)) as Hp.
  change (map (SparseTree.branch_length tr)) with (map len) in Hp.
  destruct (path_length fuel tr x a) as [p| |]; simpl in *;
    try contradiction.
  rewrite Hp. ring.
Qed.

Lemma branch_length_Y_inner_x_witness :
  returns (branch_length_Y_tree 2 cherry_tree 0 1 2 0)
          (0 + ((2 - 0) + 0) * 2)
  /\ returns (branch_length_Y_tree 2 cherry_tree 0 2 1 0)
             (0 + ((2 - 0) + 0) * 2).
Proof.
  assert (Hr : reaches cherry_tree 0 1 3).
  { split; [reflexivity |]. vm_compute. intros H.
    apply elem_of_cons in H. destruct H as [H | H]; [discriminate |].
    inversion H. }
  split.
  - apply (branch_length_Y_inner_x 2 cherry_tree 0 1 2 0%Q 1);
      [discriminate | right; reflexivity | reflexivity | exact Hr | lia].
  - apply (branch_length_Y_inner_x 2 cherry_tree 0 2 1 0%Q 1);
      [discriminate | left; reflexivity | reflexivity | exact Hr | lia].
Defined.

(** ** branch_stats_node_iter: the method ['length'] *)

(** The loop over the nodes of a tree adds the branch length times the
    span for every counted node other than the root. *)
Lemma node_loop (condition : list Z -> bool) (trs : list SparseTree.t)
  (tr0 : SparseTree.t) (root : Z) (tr_len : Q) (nodes : list Z) :
  forall S_ : Q,
  exists v,
    for_each nodes (fun S_ node =>
        if negb (node =? root) then
          let x := tracked_counts trs node in
          if condition x
          then Ok (S_ + SparseTree.branch_length tr0 node * tr_len)%Q
          else Ok S_
        else Ok S_) S_ = Ok v
    /\ (v == S_ + Qsum (map (SparseTree.branch_length tr0)
                          (List.filter
                             (fun node => negb (node =? root)
                                          && condition (tracked_counts trs node))
                             nodes)) * tr_len)%Q.
Proof.
  induction nodes as [|node nodes IH]; intros S_; simpl.
  - exists S_. split; [reflexivity | ring].
  - destruct (negb (node =? root)); simpl.
    + destruct (condition (tracked_counts trs node)); simpl.
      * destruct (IH (S_ + SparseTree.branch_length tr0 node * tr_len)%Q)
          as (v & Hv & Hs).
        exists v. split; [exact Hv |]. rewrite Hs. ring.
      * apply IH.
    + apply IH.
Qed.

(** Against an id that CPython shares, [is not] is the test that the ids
    differ. *)
Lemma py_is_not_small (a b : Z) :
  small_int b = true -> py_is_not a b = negb (a =? b).
Proof.
  intros Hb. unfold py_is_not. destruct (a =? b) eqn:E; [| reflexivity].
  apply Z.eqb_eq in E. subst a. rewrite Hb. reflexivity.
Qed.

Lemma node_iter_tree_length (condition : list Z -> bool)
  (tr_its : list (list SparseTree.t)) (S_ : Q) tr0 trs :
  Forall (fun it => it ≠ []) tr_its ->
  row_at tr_its 0 = tr0 :: trs ->
  small_int (SparseTree.root tr0) = true ->
  exists v,
    node_iter_tree condition "length" (S_, tr_its)
    = Ok (v, tail <$> tr_its)
    /\ (v == S_ + counted_length condition (row_at tr_its 0)
                  * row_span (row_at tr_its 0))%Q.
Proof.
  intros Hne Hrow Hsmall. unfold node_iter_tree.
  rewrite (next_all_heads _ Hne), Hrow. simpl.
  destruct (node_loop condition (tr0 :: trs) tr0 (SparseTree.root tr0)
              (SparseTree.length tr0) (SparseTree.nodes tr0) S_)
    as (v & Hv & Hs).
  exists v. split; [| exact Hs].
  rewrite (for_each_body_eq (SparseTree.nodes tr0) _
             (fun S_ node =>
                if negb (node =? SparseTree.root tr0) then
                  let x := tracked_counts (tr0 :: trs) node in
                  if condition x
                  then Ok (S_ + SparseTree.branch_length tr0 node
                                * SparseTree.length tr0)%Q
                  else Ok S_
                else Ok S_)).
  - rewrite Hv. reflexivity.
  - intros a node _. rewrite (py_is_not_small node _ Hsmall). reflexivity.
Qed.

Lemma length_loop (condition : list Z -> bool) (n : nat) :
  forall (ks : list Z) (tr_its : list (list SparseTree.t)) (S_ : Q),
  List.length ks = n ->
  tr_its ≠ [] ->
  Forall (fun it => List.length it = n) tr_its ->
  (forall k tr0 trs, (k < n)%nat -> row_at tr_its k = tr0 :: trs ->
                     small_int (SparseTree.root tr0) = true) ->
  exists v rest,
    for_each ks (fun acc _ => node_iter_tree condition "length" acc)
      (S_, tr_its) = Ok (v, rest)
    /\ (v == S_ + Qsum (map
              (fun k => counted_length condition (row_at tr_its k)
                        * row_span (row_at tr_its k))%Q
              (seq 0 n)))%Q.
Proof.
  induction n as [|n IH]; intros ks tr_its S_ Hks Hne Hlen Hsmall.
  - destruct ks; [| discriminate]. exists S_, tr_its.
    split; [reflexivity |]. simpl. ring.
  - destruct ks as [|k0 ks]; [discriminate |].
    assert (Hnonempty : Forall (fun it => it ≠ []) tr_its).
    { eapply Forall_impl; [exact Hlen |]. intros it Hit ->. discriminate. }
    destruct (row_at tr_its 0) as [|tr0 trs] eqn:Hrow.
    { destruct tr_its as [|it others]; [contradiction |].
      inversion Hnonempty as [|? ? Hit _]; subst.
      destruct it; [contradiction | discriminate]. }
    destruct (node_iter_tree_length condition tr_its S_ tr0 trs
                Hnonempty Hrow) as (v1 & Hstep & Hs1).
    { apply (Hsmall 0%nat tr0 trs); [lia | exact Hrow]. }
    destruct (IH ks (tail <$> tr_its) v1) as (v & rest & Hloop & Hs).
    + simpl in Hks. lia.
    + destruct tr_its; [contradiction | discriminate].
    + apply Forall_fmap. eapply Forall_impl; [exact Hlen |].
      intros it Hit. simpl. destruct it; simpl in *; lia.
    + intros k tr0' trs' Hk Hrow'. rewrite row_at_tail in Hrow'.
      apply (Hsmall (S k) tr0' trs'); [lia | exact Hrow'].
    + exists v, rest. split.
      * cbn [for_each]. rewrite Hstep. exact Hloop.
      * rewrite Hs, Hs1. cbn [seq map Qsum].
        rewrite <- seq_shift, map_map.
        assert (Hext :
          map (fun k => counted_length condition (row_at (tail <$> tr_its) k)
                        * row_span (row_at (tail <$> tr_its) k))%Q (seq 0 n)
          = map (fun k => counted_length condition (row_at tr_its (S k))
                          * row_span (row_at tr_its (S k)))%Q (seq 0 n)).
        { apply map_ext. intros k. rewrite row_at_tail. reflexivity. }
        rewrite Hext, Hrow. ring.
Qed.

(** X5.  With the method ['length'] and at least one leaf set, on a tree
    sequence of non-zero length whose root ids are ints that CPython
    shares (from -5 to 256, so that [node is not root] is the test that
    the ids differ), [branch_stats_node_iter] returns the sum over the
    trees of the span of the tree times the branch lengths of its nodes,
    other than the root, whose count vector satisfies the predicate,
    divided by the sequence length. *)
Theorem length_method_weighted_average (ts : TreeSequence.t)
  (leaf_sets : list (list Z)) (condition : list Z -> bool) :
  TreeSequence.consistent ts ->
  leaf_sets ≠ [] ->
  ~ (TreeSequence.sequence_length ts == 0)%Q ->
  (forall k tr0 trs, (k < TreeSequence.num_trees ts)%nat ->
     row_at ((fun x => TreeSequence.trees ts x) <$> leaf_sets) k = tr0 :: trs ->
     small_int (SparseTree.root tr0) = true) ->
  returns (branch_stats_node_iter ts leaf_sets condition "length")
          (total_counted_length ts leaf_sets condition
           / TreeSequence.sequence_length ts).
Proof.
  intros Hc Hne Hlen Hsmall. unfold branch_stats_node_iter.
  destruct (length_loop condition (TreeSequence.num_trees ts)
              (py_range (TreeSequence.num_trees ts))
              ((fun x => TreeSequence.trees ts x) <$> leaf_sets) 0%Q)
    as (v & rest & Hloop & Hs).
  - unfold py_range. rewrite length_fmap, length_seq. reflexivity.
  - destruct leaf_sets; [contradiction | discriminate].
  - apply Forall_fmap, Forall_forall. intros x _. apply Hc.
  - exact Hsmall.
  - rewrite Hloop. simpl. unfold py_div, TreeSequence.get_sequence_length.
    destruct (Qeq_bool (TreeSequence.sequence_length ts) 0) eqn:Ez.
    + apply Qeq_bool_iff in Ez. contradiction.
    + simpl. rewrite Hs. unfold total_counted_length.
      rewrite Qplus_0_l. reflexivity.
Qed.

Lemma length_method_weighted_average_witness :
  (total_counted_length (Tables.load cherry_tables) [[0; 1]; [2]]
     (fun x => bool_decide (x = [2; 0])) == (5 - 2) * 2)
  /\ returns (branch_stats_node_iter (Tables.load cherry_tables)
                [[0; 1]; [2]] (fun x => bool_decide (x = [2; 0])) "length")
             (total_counted_length (Tables.load cherry_tables) [[0; 1]; [2]]
                (fun x => bool_decide (x = [2; 0]))
              / TreeSequence.sequence_length (Tables.load cherry_tables)).
Proof.
  split; [vm_compute; reflexivity |].
  apply (length_method_weighted_average (Tables.load cherry_tables)
           [[0; 1]; [2]] (fun x => bool_decide (x = [2; 0]))).
  - apply load_consistent.
  - discriminate.
  - discriminate.
  - intros k tr0 trs Hk Hrow. simpl in Hk.
    assert (k = 0%nat) as -> by lia.
    injection Hrow as <- _. reflexivity.
Defined.

(** ** branch_stats_node_iter: failures *)

(** X6.  With no leaf set, [branch_stats_node_iter] fails on a tree
    sequence that has a tree, whatever the method and the predicate:
    [trs] is empty and [trs[0]] raises [IndexError]. *)
Theorem no_leaf_sets_index_error (ts : TreeSequence.t)
  (condition : list Z -> bool) (method : string) :
  (0 < TreeSequence.num_trees ts)%nat ->
  branch_stats_node_iter ts [] condition method = Raise IndexError.
Proof.
  intros Hn. unfold branch_stats_node_iter.
  destruct (TreeSequence.num_trees ts) as [|n]; [lia |].
  reflexivity.
Qed.

Lemma no_leaf_sets_index_error_witness :
  branch_stats_node_iter (Tables.load cherry_tables) [] (fun _ => true)
    "length" = Raise IndexError.
Proof.
  apply (no_leaf_sets_index_error (Tables.load cherry_tables)
           (fun _ => true) "length").
  simpl. lia.
Defined.

(** A loop over mutations of which one sits on a node that the dictionary
    does not have raises [KeyError]. *)
Lemma mutation_loop_key_error (d : gmap Z bool) (muts : list Mutation) :
  Exists (fun mut => d !! mut_node mut = None) muts ->
  forall S_ : Q,
    for_each muts (fun S_ mut =>
        counted ← dict_get d (mut_node mut);
        if counted : bool then Ok (S_ + 1)%Q else Ok S_) S_
    = Raise KeyError.
Proof.
  induction muts as [|mut muts IH]; intros Hex S_; [inversion Hex |].
  cbn [for_each].
  destruct (d !! mut_node mut) as [c|] eqn:Ed.
  - assert (Hg : dict_get d (mut_node mut) = Ok c).
    { unfold dict_get. rewrite Ed. reflexivity. }
    rewrite Hg.
    inversion Hex as [? ? Hnone | ? ? Hrest]; subst; [congruence |].
    destruct c; apply IH; exact Hrest.
  - assert (Hg : dict_get d (mut_node mut) = Raise KeyError).
    { unfold dict_get. rewrite Ed. reflexivity. }
    rewrite Hg. reflexivity.
Qed.

Lemma py_dict_lookup_none (f : Z -> bool) (l : list Z) (k : Z) :
  k ∉ l -> py_dict ((fun n => (n, f n)) <$> l) !! k = None.
Proof.
  intros Hnin. unfold py_dict. rewrite py_dict_fold_lookup.
  rewrite decide_False by exact Hnin. apply lookup_empty.
Qed.

(** X7.  With the method ['mutations'], a mutation of the first tree that
    sits on a node that [nodes()] does not list, or on the root when the
    id of the root is an int that CPython shares (from -5 to 256), makes
    [branch_stats_node_iter] fail with [KeyError]: the dictionary
    [count_nodes] has no entry for that node. *)
Theorem mutation_on_root_key_error (ts : TreeSequence.t)
  (leaf_sets : list (list Z)) (condition : list Z -> bool)
  (tr0 : SparseTree.t) (trs : list SparseTree.t) :
  TreeSequence.consistent ts ->
  (0 < TreeSequence.num_trees ts)%nat ->
  row_at ((fun x => TreeSequence.trees ts x) <$> leaf_sets) 0 = tr0 :: trs ->
  Exists (fun mut => (mut_node mut = SparseTree.root tr0
                      /\ small_int (SparseTree.root tr0) = true)
                     \/ mut_node mut ∉ SparseTree.nodes tr0)
         (SparseTree.mutations tr0) ->
  branch_stats_node_iter ts leaf_sets condition "mutations" = Raise KeyError.
Proof.
  intros Hc Hn Hrow Hex. unfold branch_stats_node_iter.
  destruct (TreeSequence.num_trees ts) as [|n] eqn:En; [lia |].
  unfold py_range. simpl seq. rewrite fmap_cons. simpl for_each.
  unfold node_iter_tree at 1.
  rewrite next_all_heads.
  2:{ apply Forall_fmap, Forall_forall. intros x _. simpl. intros Hx.
      specialize (Hc x). rewrite Hx, En in Hc. discriminate. }
  rewrite Hrow. simpl.
  rewrite mutation_loop_key_error; [reflexivity |].
  eapply Exists_impl; [exact Hex |]. intros mut Hmut.
  apply (py_dict_lookup_none
           (fun node => condition (tracked_counts (tr0 :: trs) node))).
  rewrite list_elem_of_filter. intros [Hroot Hin].
  destruct Hmut as [[Hmut Hsmall] | Hmut]; [| contradiction].
  unfold py_is_not in Hroot.
  rewrite Hmut, Z.eqb_refl, Hsmall in Hroot. discriminate.
Qed.

Lemma mutation_on_root_key_error_witness :
  branch_stats_node_iter (Tables.load root_mutation_tables) [[0]]
    (fun _ => true) "mutations" = Raise KeyError.
Proof.
  eapply (mutation_on_root_key_error (Tables.load root_mutation_tables)
            [[0]] (fun _ => true)).
  - apply load_consistent.
  - simpl. lia.
  - reflexivity.
  - left. left. split; reflexivity.
Defined.

(** X18.  A root whose id is above 256 is not skipped.  With the method
    ['mutations'], when every mutation sits on a node that [nodes()]
    lists and that [is not] the root (a node other than the root, or the
    root itself when its id is an int that CPython does not share),
    [branch_stats_node_iter] raises no [KeyError]: it returns the number
    of mutations that sit on a node whose count vector satisfies the
    predicate, mutations on such a root included, divided by the
    sequence length. *)
Theorem mutations_on_unshared_root_are_counted (ts : TreeSequence.t)
  (leaf_sets : list (list Z)) (condition : list Z -> bool) :
  TreeSequence.consistent ts ->
  leaf_sets ≠ [] ->
  ~ (TreeSequence.sequence_length ts == 0)%Q ->
  (forall k tr0 trs, (k < TreeSequence.num_trees ts)%nat ->
     row_at ((fun x => TreeSequence.trees ts x) <$> leaf_sets) k = tr0 :: trs ->
     Forall (fun mut =>
               mut_node mut ∈ SparseTree.nodes tr0
               /\ (mut_node mut ≠ SparseTree.root tr0
                   \/ small_int (SparseTree.root tr0) = false))
            (SparseTree.mutations tr0)) ->
  returns (branch_stats_node_iter ts leaf_sets condition "mutations")
          (inject_Z (total_counted_mutations ts leaf_sets condition)
           / TreeSequence.sequence_length ts).
Proof.
  intros Hc Hne Hlen Hmut. unfold branch_stats_node_iter.
  destruct (mutations_loop_entries condition (TreeSequence.num_trees ts)
              (py_range (TreeSequence.num_trees ts))
              ((fun x => TreeSequence.trees ts x) <$> leaf_sets) 0%Q)
    as (v & rest & Hloop & Hs).
  - unfold py_range. rewrite length_fmap, length_seq. reflexivity.
  - destruct leaf_sets; [contradiction | discriminate].
  - apply Forall_fmap, Forall_forall. intros x _. apply Hc.
  - intros k tr0 trs Hk Hrow.
    eapply Forall_impl; [exact (Hmut k tr0 trs Hk Hrow) |].
    intros mut [Hin Hroot]. split; [exact Hin |].
    destruct Hroot as [Hroot | Hbig]; [apply py_is_not_other; exact Hroot |].
    unfold py_is_not.
    destruct (mut_node mut =? SparseTree.root tr0) eqn:E; [| reflexivity].
    apply Z.eqb_eq in E. rewrite E, Hbig. reflexivity.
  - rewrite Hloop. simpl. unfold py_div, TreeSequence.get_sequence_length.
    destruct (Qeq_bool (TreeSequence.sequence_length ts) 0) eqn:Ez.
    + apply Qeq_bool_iff in Ez. contradiction.
    + simpl. rewrite Hs. unfold total_counted_mutations.
      rewrite Qplus_0_l. reflexivity.
Qed.

Lemma mutations_on_unshared_root_are_counted_witness :
  SparseTree.root (Tables.snapshot unshared_root_tables [0]
                     [(300, [0; 1], 1%Q)] 0%Q 1%Q) = 300
  /\ total_counted_mutations (Tables.load unshared_root_tables) [[0]]
       (fun _ => true) = 1
  /\ returns (branch_stats_node_iter (Tables.load unshared_root_tables) [[0]]
                (fun _ => true) "mutations")
             (inject_Z (total_counted_mutations
                          (Tables.load unshared_root_tables) [[0]]
                          (fun _ => true))
              / TreeSequence.sequence_length
                  (Tables.load unshared_root_tables)).
Proof.
  split; [vm_compute; reflexivity |]. split; [vm_compute; reflexivity |].
  apply (mutations_on_unshared_root_are_counted
           (Tables.load unshared_root_tables) [[0]] (fun _ => true)).
  - apply load_consistent.
  - discriminate.
  - discriminate.
  - intros k tr0 trs Hk Hrow. simpl in Hk.
    assert (k = 0%nat) as -> by lia.
    injection Hrow as <- _.
    constructor; [| constructor]. split; [| right; vm_compute; reflexivity].
    apply (bool_decide_unpack _). vm_compute. exact I.
Defined.

(** ** branch_stats: well-formed streams are consumed without failure *)

Lemma for_each_succeeds {A S} (P : S -> Prop) (Q : A -> Prop)
  (xs : list A) (body : S -> A -> result S) :
  Forall Q xs ->
  (forall a x, P a -> Q x -> exists a', body a x = Ok a' /\ P a') ->
  forall acc, P acc -> exists acc', for_each xs body acc = Ok acc' /\ P acc'.
Proof.
  intros Hxs Hbody. induction Hxs as [|x xs Hx _ IH]; intros acc Hacc; simpl.
  - exists acc. split; [reflexivity | exact Hacc].
  - destruct (Hbody acc x Hacc Hx) as (a1 & -> & Ha1). simpl.
    apply IH. exact Ha1.
Qed.

Lemma py_index_in_range (N : nat) (u : Z) :
  in_range N u -> py_index N u = Some (Z.to_nat u).
Proof.
  intros [H0 HN]. unfold py_index.
  destruct (0 <=? u) eqn:E1; [| apply Z.leb_gt in E1; lia].
  destruct (u <? Z.of_nat N) eqn:E2; [| apply Z.ltb_ge in E2; lia].
  reflexivity.
Qed.

Lemma py_index_parent (N : nat) (p : Z) :
  (0 < N)%nat -> -1 <= p < Z.of_nat N -> exists i, py_index N p = Some i.
Proof.
  intros HN Hp. destruct (Z.eq_dec p (-1)) as [-> | Hne].
  - unfold py_index. simpl.
    destruct (-1 <? Z.of_nat N) eqn:E1; [| apply Z.ltb_ge in E1; lia].
    destruct (- Z.of_nat N <=? -1) eqn:E2; [| apply Z.leb_gt in E2; lia].
    simpl. eauto.
  - exists (Z.to_nat p). apply py_index_in_range. unfold in_range. lia.
Qed.

Lemma py_get_some {A} (l : list A) (i : Z) (j : nat) :
  py_index (List.length l) i = Some j ->
  exists a, l !! j = Some a /\ py_get l i = Ok a.
Proof.
  intros Hj. pose proof (py_index_lt _ _ _ Hj) as Hlt.
  apply lookup_lt_is_Some_2 in Hlt. destruct Hlt as [a Ha].
  exists a. split; [exact Ha |]. unfold py_get. rewrite Hj, Ha. reflexivity.
Qed.

Lemma py_set_some {A} (l : list A) (i : Z) (j : nat) (a : A) :
  py_index (List.length l) i = Some j -> py_set l i a = Ok (<[j := a]> l).
Proof. intros Hj. unfold py_set. rewrite Hj. reflexivity. Qed.

Lemma py_range_in_range (n : nat) : Forall (in_range n) (py_range n).
Proof.
  unfold py_range. apply Forall_fmap, Forall_forall. intros k Hk.
  apply elem_of_seq in Hk. unfold in_range. simpl. lia.
Qed.

Lemma X_get_ok (N n : nat) (X : list (list Z)) (u k : Z) :
  X_shaped N n X -> in_range N u -> in_range n k ->
  exists v, X_get X u k = Ok v.
Proof.
  intros [HN Hrows] Hu Hk. unfold X_get.
  destruct (py_get_some X u (Z.to_nat u)) as (row & Hrow & ->).
  { rewrite HN. apply py_index_in_range. exact Hu. }
  simpl. pose proof (Forall_lookup_1 _ _ _ _ Hrows Hrow) as Hlen.
  simpl in Hlen.
  destruct (py_get_some row k (Z.to_nat k)) as (v & _ & ->).
  { rewrite Hlen. apply py_index_in_range. exact Hk. }
  eauto.
Qed.

Lemma X_set_ok (N n : nat) (X : list (list Z)) (u k v : Z) :
  X_shaped N n X -> in_range N u -> in_range n k ->
  exists X', X_set X u k v = Ok X' /\ X_shaped N n X'.
Proof.
  intros [HN Hrows] Hu Hk. unfold X_set.
  destruct (py_get_some X u (Z.to_nat u)) as (row & Hrow & ->).
  { rewrite HN. apply py_index_in_range. exact Hu. }
  simpl. pose proof (Forall_lookup_1 _ _ _ _ Hrows Hrow) as Hlen.
  simpl in Hlen.
  rewrite (py_set_some row k (Z.to_nat k))
    by (rewrite Hlen; apply py_index_in_range; exact Hk).
  simpl.
  rewrite (py_set_some X u (Z.to_nat u))
    by (rewrite HN; apply py_index_in_range; exact Hu).
  eexists. split; [reflexivity |]. split.
  - rewrite length_insert. exact HN.
  - apply Forall_insert; [exact Hrows |]. rewrite length_insert. exact Hlen.
Qed.

Lemma X_sub_row_ok (N n : nat) (X : list (list Z)) (u node : Z) :
  X_shaped N n X -> in_range N u -> in_range N node ->
  exists X', X_sub_row n X u node = Ok X' /\ X_shaped N n X'.
Proof.
  intros HX Hu Hnode. unfold X_sub_row.
  apply (for_each_succeeds (X_shaped N n) (in_range n));
    [apply py_range_in_range | | exact HX].
  intros X0 k HX0 Hk.
  destruct (X_get_ok N n X0 u k HX0 Hu Hk) as (a & ->).
  destruct (X_get_ok N n X0 node k HX0 Hnode Hk) as (b & ->).
  simpl. apply X_set_ok; assumption.
Qed.

Lemma py_get_vec_ok (n : nat) (dx : list Z) (k : Z) :
  List.length dx = n -> in_range n k -> exists b, py_get dx k = Ok b.
Proof.
  intros Hlen Hk.
  destruct (py_get_some dx k (Z.to_nat k)) as (b & _ & ->); [| eauto].
  rewrite Hlen. apply py_index_in_range. exact Hk.
Qed.

Lemma X_add_vec_ok (N n : nat) (X : list (list Z)) (u : Z) (dx : list Z) :
  X_shaped N n X -> in_range N u -> List.length dx = n ->
  exists X', X_add_vec n X u dx = Ok X' /\ X_shaped N n X'.
Proof.
  intros HX Hu Hdx. unfold X_add_vec.
  apply (for_each_succeeds (X_shaped N n) (in_range n));
    [apply py_range_in_range | | exact HX].
  intros X0 k HX0 Hk.
  destruct (X_get_ok N n X0 u k HX0 Hu Hk) as (a & ->).
  destruct (py_get_vec_ok n dx k Hdx Hk) as (b & ->).
  simpl. apply X_set_ok; assumption.
Qed.

Lemma X_zero_row_ok (N n : nat) (X : list (list Z)) (node : Z) :
  X_shaped N n X -> in_range N node ->
  exists X', X_zero_row n X node = Ok X' /\ X_shaped N n X'.
Proof.
  intros HX Hnode. unfold X_zero_row.
  apply (for_each_succeeds (X_shaped N n) (in_range n));
    [apply py_range_in_range | | exact HX].
  intros X0 k HX0 Hk. apply X_set_ok; assumption.
Qed.

Lemma X_assign_row_ok (N n : nat) (X : list (list Z)) (node : Z)
  (dx : list Z) :
  X_shaped N n X -> in_range N node -> List.length dx = n ->
  exists X', X_assign_row n X node dx = Ok X' /\ X_shaped N n X'.
Proof.
  intros HX Hnode Hdx. unfold X_assign_row.
  apply (for_each_succeeds (X_shaped N n) (in_range n));
    [apply py_range_in_range | | exact HX].
  intros X0 k HX0 Hk.
  destruct (py_get_vec_ok n dx k Hdx Hk) as (b & ->).
  simpl. apply X_set_ok; assumption.
Qed.

Lemma dx_add_row_ok (N n : nat) (X : list (list Z)) (dx : list Z)
  (child : Z) :
  X_shaped N n X -> in_range N child -> List.length dx = n ->
  exists dx', dx_add_row n X dx child = Ok dx' /\ List.length dx' = n.
Proof.
  intros HX Hchild Hdx. unfold dx_add_row.
  apply (for_each_succeeds (fun dx => List.length dx = n) (in_range n));
    [apply py_range_in_range | | exact Hdx].
  intros dx0 k Hdx0 Hk.
  destruct (py_get_vec_ok n dx0 k Hdx0 Hk) as (a & ->).
  destruct (X_get_ok N n X child k HX Hchild Hk) as (b & ->).
  simpl.
  rewrite (py_set_some dx0 k (Z.to_nat k))
    by (rewrite Hdx0; apply py_index_in_range; exact Hk).
  eexists. split; [reflexivity |]. rewrite length_insert. exact Hdx0.
Qed.

Lemma engine_shaped_with_L N n rank bound st L :
  engine_shaped N n rank bound st ->
  engine_shaped N n rank bound (with_L st L).
Proof. intros H. exact H. Qed.

Lemma pi_get_ok (N : nat) (rank : Z -> nat) (bound : nat) (pi : list Z)
  (u : Z) :
  pi_shaped N rank bound pi -> in_range N u ->
  exists p, py_get pi u = Ok p
            /\ -1 <= p < Z.of_nat N
            /\ (p ≠ -1 -> (rank u < rank p <= bound)%nat).
Proof.
  intros (Hlen & Hall & Hrank) Hu.
  destruct (py_get_some pi u (Z.to_nat u)) as (p & Hp & Hget).
  { rewrite Hlen. apply py_index_in_range. exact Hu. }
  exists p. split; [exact Hget |]. split.
  - exact (Forall_lookup_1 _ _ _ _ Hall Hp).
  - intros Hne. specialize (Hrank _ _ Hp Hne).
    rewrite Z2Nat.id in Hrank by (destruct Hu; lia). exact Hrank.
Qed.

Lemma time_get_ok {A} (N : nat) (nt : list A) (p : Z) :
  List.length nt = N -> (0 < N)%nat -> -1 <= p < Z.of_nat N ->
  exists t, py_get nt p = Ok t.
Proof.
  intros Hlen HN Hp. destruct (py_index_parent N p HN Hp) as (i & Hi).
  destruct (py_get_some nt p i) as (t & _ & ->); [| eauto].
  rewrite Hlen. exact Hi.
Qed.

Lemma in_range_pos N u : in_range N u -> (0 < N)%nat.
Proof. unfold in_range. lia. Qed.

Lemma pi_branch_ok N n rank bound st u :
  engine_shaped N n rank bound st -> in_range N u ->
  exists b, pi_branch st u = Ok b.
Proof.
  intros (_ & Hpi & Htime) Hu. unfold pi_branch.
  destruct (pi_get_ok N rank bound _ u Hpi Hu) as (p & -> & Hp & _). simpl.
  destruct (time_get_ok N _ p Htime (in_range_pos _ _ Hu) Hp) as (tp & ->).
  simpl.
  destruct (time_get_ok N _ u Htime (in_range_pos _ _ Hu)) as (tu & ->);
    [unfold in_range in Hu; lia |].
  simpl. eauto.
Qed.

(** The loop that walks up terminates within [fuel] steps when the ranks
    left above [u] are fewer than [fuel]. *)
Lemma propagate_ok N n rank bound (condition : list Z -> bool)
  (update : list (list Z) -> Z -> result (list (list Z))) :
  (forall X u, X_shaped N n X -> in_range N u ->
               exists X', update X u = Ok X' /\ X_shaped N n X') ->
  forall fuel st u next_u,
  engine_shaped N n rank bound st ->
  (u ≠ -1 -> in_range N u /\ py_get (st_pi st) u = Ok next_u
             /\ (rank u <= bound < rank u + fuel)%nat) ->
  exists st', propagate condition update fuel st u next_u = Ok st'
              /\ engine_shaped N n rank bound st'.
Proof.
  intros Hupd. induction fuel as [|f IH]; intros st u next_u Hst Hu.
  - simpl. destruct (u =? -1) eqn:Eu; [eauto |].
    apply Z.eqb_neq in Eu. destruct (Hu Eu) as (_ & _ & Hr). lia.
  - simpl. destruct (u =? -1) eqn:Eu; [eauto |].
    apply Z.eqb_neq in Eu. destruct (Hu Eu) as (Hin & Hnext & Hr).
    destruct Hst as (HX & Hpi & Htime).
    destruct (py_get_some (st_X st) u (Z.to_nat u)) as (xu & _ & ->).
    { destruct HX as [-> _]. apply py_index_in_range. exact Hin. }
    simpl. destruct (Hupd _ u HX Hin) as (X1 & -> & HX1). simpl.
    destruct (py_get_some X1 u (Z.to_nat u)) as (xu' & _ & ->).
    { destruct HX1 as [-> _]. apply py_index_in_range. exact Hin. }
    simpl.
    assert (Hst1 : engine_shaped N n rank bound (with_X st X1)).
    { split; [exact HX1 | split; [exact Hpi | exact Htime]]. }
    destruct (pi_get_ok N rank bound _ u Hpi Hin)
      as (p & Hp & Hprange & Hprank).
    rewrite Hnext in Hp. injection Hp as <-.
    assert (Hflip : exists st2,
      (if negb (next_u =? -1) then
         st0 ← (if condition xu && negb (condition xu') then
                  b ← pi_branch (with_X st X1) u;
                  Ok (with_L (with_X st X1) (st_L (with_X st X1) - b)%Q)
                else Ok (with_X st X1));
         (if condition xu' && negb (condition xu) then
            b ← pi_branch st0 u; Ok (with_L st0 (st_L st0 + b)%Q)
          else Ok st0)
       else Ok (with_X st X1)) = Ok st2
      /\ engine_shaped N n rank bound st2 /\ st_pi st2 = st_pi st).
    { destruct (negb (next_u =? -1)); [| eauto].
      destruct (pi_branch_ok N n rank bound _ u Hst1 Hin) as (b & Hb).
      destruct (condition xu && negb (condition xu')).
      - rewrite Hb. simpl.
        destruct (pi_branch_ok N n rank bound
                    (with_L (with_X st X1) (st_L st - b)%Q) u Hst1 Hin)
          as (b' & Hb').
        destruct (condition xu' && negb (condition xu)).
        + rewrite Hb'. simpl. eexists.
          split; [reflexivity | split; [exact Hst1 | reflexivity]].
        + eexists. split; [reflexivity | split; [exact Hst1 | reflexivity]].
      - simpl. destruct (condition xu' && negb (condition xu)).
        + rewrite Hb. simpl. eexists.
          split; [reflexivity | split; [exact Hst1 | reflexivity]].
        + eauto. }
    destruct Hflip as (st2 & Hflip & Hst2 & Epi2).
    simpl in Hflip. rewrite Hflip. simpl.
    destruct (time_get_ok N (st_pi st2) next_u) as (nn & Hnn).
    { rewrite Epi2. apply Hpi. }
    { exact (in_range_pos _ _ Hin). }
    { exact Hprange. }
    rewrite Hnn. simpl.
    apply IH; [exact Hst2 |].
    intros Hne. split; [unfold in_range; lia |]. split; [exact Hnn |].
    specialize (Hprank Hne). lia.
Qed.

Lemma propagate_from_ok N n rank bound (condition : list Z -> bool)
  (update : list (list Z) -> Z -> result (list (list Z)))
  (fuel : nat) (st : engine) (node : Z) :
  (forall X u, X_shaped N n X -> in_range N u ->
               exists X', update X u = Ok X' /\ X_shaped N n X') ->
  engine_shaped N n rank bound st -> in_range N node ->
  (bound <= fuel)%nat ->
  exists st', propagate_from condition update fuel st node = Ok st'
              /\ engine_shaped N n rank bound st'.
Proof.
  intros Hupd Hst Hnode Hfuel. unfold propagate_from.
  destruct Hst as (HX & Hpi & Htime).
  destruct (pi_get_ok N rank bound _ node Hpi Hnode)
    as (u & -> & Hurange & Hurank).
  simpl. destruct (u =? -1) eqn:Eu; simpl.
  { exists st. split; [reflexivity |].
    split; [exact HX | split; [exact Hpi | exact Htime]]. }
  apply Z.eqb_neq in Eu.
  assert (Hu : in_range N u) by (unfold in_range; lia).
  destruct (pi_get_ok N rank bound _ u Hpi Hu) as (next_u & Hnext & _ & _).
  rewrite Hnext. simpl.
  apply (propagate_ok N n rank bound condition update Hupd).
  - split; [exact HX | split; [exact Hpi | exact Htime]].
  - intros _. split; [exact Hu |]. split; [exact Hnext |].
    specialize (Hurank Eu). lia.
Qed.

Lemma pi_shaped_detach N rank bound pi (child : Z) :
  pi_shaped N rank bound pi ->
  pi_shaped N rank bound (<[Z.to_nat child := -1]> pi).
Proof.
  intros (Hlen & Hall & Hrank). split; [| split].
  - rewrite length_insert. exact Hlen.
  - apply Forall_insert; [exact Hall | lia].
  - intros i p Hi Hne.
    destruct (decide (i = Z.to_nat child)) as [-> | Hd].
    + apply list_lookup_insert_Some in Hi.
      destruct Hi as [(_ & <- & _) | (Hd & _)]; congruence.
    + rewrite list_lookup_insert_ne in Hi by congruence.
      apply Hrank; assumption.
Qed.

Lemma pi_shaped_attach N rank bound pi (child node : Z) :
  pi_shaped N rank bound pi ->
  in_range N child -> in_range N node ->
  (rank child < rank node <= bound)%nat ->
  pi_shaped N rank bound (<[Z.to_nat child := node]> pi).
Proof.
  intros (Hlen & Hall & Hrank) Hchild Hnode Hr. split; [| split].
  - rewrite length_insert. exact Hlen.
  - apply Forall_insert; [exact Hall | unfold in_range in Hnode; lia].
  - intros i p Hi Hne.
    destruct (decide (i = Z.to_nat child)) as [-> | Hd].
    + apply list_lookup_insert_Some in Hi.
      destruct Hi as [(_ & <- & _) | (Hd & _)]; [| congruence].
      rewrite Z2Nat.id by (destruct Hchild; lia). exact Hr.
    + rewrite list_lookup_insert_ne in Hi by congruence.
      apply Hrank; assumption.
Qed.

(** A record that leaves is handled without failure. *)
Lemma record_out_ok N n rank bound (condition : list Z -> bool) (fuel : nat)
  (st : engine) (r : edge_record) :
  engine_shaped N n rank bound st -> edge_in_range N r ->
  (bound <= fuel)%nat ->
  exists st', record_out n condition fuel st r = Ok st'
              /\ engine_shaped N n rank bound st'.
Proof.
  intros Hst [Hnode Hchildren] Hfuel.
  destruct r as [[node children] time]. simpl in Hnode, Hchildren.
  unfold record_out.
  destruct (for_each_succeeds (engine_shaped N n rank bound) (in_range N)
              children
              (fun st child =>
                 xc ← py_get (st_X st) child;
                 st ← (if condition xc then
                         b ← pi_branch st child;
                         Ok (with_L st (st_L st - b)%Q)
                       else Ok st);
                 pi ← py_set (st_pi st) child (-1);
                 Ok (with_pi st pi)) Hchildren) with (acc := st)
    as (st1 & -> & Hst1); [| exact Hst |].
  { intros a child Ha Hchild. pose proof Ha as (HX & Hpi & Htime).
    destruct (py_get_some (st_X a) child (Z.to_nat child)) as (xc & _ & ->).
    { destruct HX as [-> _]. apply py_index_in_range. exact Hchild. }
    simpl.
    assert (Hmid : exists a1,
      (if condition xc then
         b ← pi_branch a child; Ok (with_L a (st_L a - b)%Q)
       else Ok a) = Ok a1
      /\ st_X a1 = st_X a /\ st_pi a1 = st_pi a
      /\ st_node_time a1 = st_node_time a).
    { destruct (condition xc); [| eauto].
      destruct (pi_branch_ok N n rank bound a child Ha Hchild) as (b & ->).
      simpl. eauto. }
    destruct Hmid as (a1 & -> & EX & Epi & Et). simpl.
    rewrite (py_set_some (st_pi a1) child (Z.to_nat child))
      by (rewrite Epi; destruct Hpi as [-> _];
          apply py_index_in_range; exact Hchild).
    simpl. eexists. split; [reflexivity |].
    split; [simpl; rewrite EX; exact HX |].
    split; [simpl; rewrite Epi; apply pi_shaped_detach; exact Hpi |].
    simpl. rewrite Et. exact Htime. }
  simpl. pose proof Hst1 as (HX1 & Hpi1 & Htime1).
  unfold attached_and_counted.
  destruct (pi_get_ok N rank bound _ node Hpi1 Hnode) as (p & -> & _ & _).
  simpl.
  assert (Hcnt : exists st2,
    ((c ← (if negb (p =? -1) then
             xn ← py_get (st_X st1) node; Ok (condition xn)
           else Ok false);
      (if c : bool then
         b ← pi_branch st1 node; Ok (with_L st1 (st_L st1 - b)%Q)
       else Ok st1)) = Ok st2)
    /\ engine_shaped N n rank bound st2).
  { destruct (py_get_some (st_X st1) node (Z.to_nat node)) as (xn & _ & Hxn).
    { destruct HX1 as [-> _]. apply py_index_in_range. exact Hnode. }
    destruct (pi_branch_ok N n rank bound st1 node Hst1 Hnode) as (b & Hb).
    destruct (negb (p =? -1)); simpl; [| eauto].
    rewrite Hxn. simpl. destruct (condition xn); [| eauto].
    rewrite Hb. simpl. eexists. split; [reflexivity | exact Hst1]. }
  destruct Hcnt as (st2 & Hcnt & Hst2).
  apply bind_ok in Hcnt. destruct Hcnt as (c & -> & Hcnt). simpl.
  rewrite Hcnt. simpl.
  destruct (propagate_from_ok N n rank bound condition
              (fun X u => X_sub_row n X u node) fuel st2 node)
    as (st3 & -> & Hst3); [| exact Hst2 | exact Hnode | exact Hfuel |].
  { intros X u HX Hu. apply (X_sub_row_ok N); assumption. }
  simpl. destruct Hst3 as (HX3 & Hpi3 & Htime3).
  destruct (X_zero_row_ok N n (st_X st3) node HX3 Hnode) as (X4 & -> & HX4).
  simpl. eexists. split; [reflexivity |].
  split; [exact HX4 | split; [exact Hpi3 | exact Htime3]].
Qed.

(** A record that enters is handled without failure. *)
Lemma record_in_ok N n rank bound (condition : list Z -> bool) (fuel : nat)
  (st : engine) (r : edge_record) :
  engine_shaped N n rank bound st -> edge_in_range N r ->
  edge_ranked rank bound r ->
  (bound <= fuel)%nat ->
  exists st', record_in n condition fuel st r = Ok st'
              /\ engine_shaped N n rank bound st'.
Proof.
  intros Hst [Hnode Hchildren] [Hbound Hranks] Hfuel.
  destruct r as [[node children] time].
  simpl in Hnode, Hchildren, Hbound, Hranks.
  unfold record_in. pose proof Hst as (HX & Hpi & Htime).
  rewrite (py_set_some (st_node_time st) node (Z.to_nat node))
    by (rewrite Htime; apply py_index_in_range; exact Hnode).
  cbn [mbind result_bind].
  match goal with
  | |- context [for_each children _ (?s, _)] => set (st0 := s)
  end.
  assert (Hst0 : engine_shaped N n rank bound st0).
  { split; [exact HX | split; [exact Hpi |]].
    simpl. rewrite length_insert. exact Htime. }
  assert (Hboth : Forall (fun child => in_range N child
                                       /\ (rank child < rank node)%nat)
                         children).
  { apply Forall_and. split; assumption. }
  destruct (for_each_succeeds
              (fun acc : engine * list Z =>
                 engine_shaped N n rank bound acc.1
                 /\ List.length acc.2 = n)
              (fun child => in_range N child /\ (rank child < rank node)%nat)
              children
              (fun '(st, dx) child =>
                 xc ← py_get (st_X st) child;
                 st ← (if condition xc then
                         tn ← py_get (st_node_time st) node;
                         tchild ← py_get (st_node_time st) child;
                         Ok (with_L st (st_L st + (tn - tchild))%Q)
                       else Ok st);
                 pi ← py_set (st_pi st) child node;
                 dx ← dx_add_row n (st_X (with_pi st pi)) dx child;
                 Ok (with_pi st pi, dx)) Hboth)
    with (acc := (st0, replicate n 0))
    as ([st1 dx] & Hloop & Hst1 & Hdx).
  { intros [a dx] child [Ha Hdxa] [Hchild Hrank]. simpl in Ha, Hdxa.
    pose proof Ha as (HXa & Hpia & Htimea).
    destruct (py_get_some (st_X a) child (Z.to_nat child)) as (xc & _ & ->).
    { destruct HXa as [-> _]. apply py_index_in_range. exact Hchild. }
    simpl.
    assert (Hmid : exists a1,
      (if condition xc then
         tn ← py_get (st_node_time a) node;
         tchild ← py_get (st_node_time a) child;
         Ok (with_L a (st_L a + (tn - tchild))%Q)
       else Ok a) = Ok a1
      /\ st_X a1 = st_X a /\ st_pi a1 = st_pi a
      /\ st_node_time a1 = st_node_time a).
    { destruct (condition xc); [| eauto].
      destruct (py_get_some (st_node_time a) node (Z.to_nat node))
        as (tn & _ & ->).
      { rewrite Htimea. apply py_index_in_range. exact Hnode. }
      simpl.
      destruct (py_get_some (st_node_time a) child (Z.to_nat child))
        as (tchild & _ & ->).
      { rewrite Htimea. apply py_index_in_range. exact Hchild. }
      simpl. eauto. }
    destruct Hmid as (a1 & -> & EX & Epi & Et). simpl.
    rewrite (py_set_some (st_pi a1) child (Z.to_nat child))
      by (rewrite Epi; destruct Hpia as [-> _];
          apply py_index_in_range; exact Hchild).
    simpl. rewrite EX.
    destruct (dx_add_row_ok N n (st_X a) dx child HXa Hchild Hdxa)
      as (dx' & -> & Hdx').
    simpl. eexists. split; [reflexivity |]. simpl.
    split; [| exact Hdx'].
    split; [simpl; rewrite EX; exact HXa |].
    split; [simpl; rewrite Epi; apply pi_shaped_attach;
            [exact Hpia | exact Hchild | exact Hnode | lia] |].
    simpl. rewrite Et. exact Htimea. }
  { simpl. split; [exact Hst0 | apply length_replicate]. }
  rewrite Hloop. simpl. simpl in Hst1, Hdx.
  pose proof Hst1 as (HX1 & Hpi1 & Htime1).
  destruct (X_assign_row_ok N n (st_X st1) node dx HX1 Hnode Hdx)
    as (X2 & -> & HX2).
  simpl.
  assert (Hst2 : engine_shaped N n rank bound (with_X st1 X2)).
  { split; [exact HX2 | split; [exact Hpi1 | exact Htime1]]. }
  unfold attached_and_counted.
  destruct (pi_get_ok N rank bound _ node Hpi1 Hnode) as (p & Hp & _ & _).
  simpl. rewrite Hp. simpl.
  assert (Hcnt : exists st3,
    ((c ← (if negb (p =? -1) then
             xn ← py_get X2 node; Ok (condition xn)
           else Ok false);
      (if c : bool then
         b ← pi_branch (with_X st1 X2) node;
         Ok (with_L (with_X st1 X2) (st_L st1 + b)%Q)
       else Ok (with_X st1 X2))) = Ok st3)
    /\ engine_shaped N n rank bound st3).
  { destruct (py_get_some X2 node (Z.to_nat node)) as (xn & _ & Hxn).
    { destruct HX2 as [-> _]. apply py_index_in_range. exact Hnode. }
    destruct (pi_branch_ok N n rank bound _ node Hst2 Hnode) as (b & Hb).
    destruct (negb (p =? -1)); simpl; [| eauto].
    rewrite Hxn. simpl. destruct (condition xn); [| eauto].
    rewrite Hb. simpl. eexists. split; [reflexivity | exact Hst2]. }
  destruct Hcnt as (st3 & Hcnt & Hst3).
  apply bind_ok in Hcnt. destruct Hcnt as (c & -> & Hcnt). simpl.
  simpl in Hcnt. rewrite Hcnt. simpl.
  apply (propagate_from_ok N n rank bound); try assumption.
  intros X u HX' Hu. apply (X_add_vec_ok N); assumption.
Qed.

Lemma diff_step_ok N n rank bound (condition : list Z -> bool) (fuel : nat)
  (st : engine) (S_ : Q) (ev : diff_event) :
  engine_shaped N n rank bound st ->
  event_well_formed N rank bound ev ->
  (bound <= fuel)%nat ->
  exists st' S', diff_step n condition fuel (st, S_) ev = Ok (st', S')
                 /\ engine_shaped N n rank bound st'.
Proof.
  intros Hst (Hout & Hin & Hranked) Hfuel.
  destruct ev as [[len outs] ins]. simpl in Hout, Hin, Hranked.
  unfold diff_step.
  destruct (for_each_succeeds (engine_shaped N n rank bound)
              (edge_in_range N) outs (record_out n condition fuel) Hout)
    with (acc := st) as (st1 & -> & Hst1); [| exact Hst |].
  { intros a r Ha Hr. apply (record_out_ok N n rank bound); assumption. }
  simpl.
  assert (Hboth : Forall (fun r => edge_in_range N r
                                   /\ edge_ranked rank bound r) ins).
  { apply Forall_and. split; assumption. }
  destruct (for_each_succeeds (engine_shaped N n rank bound)
              (fun r => edge_in_range N r /\ edge_ranked rank bound r)
              ins (record_in n condition fuel) Hboth)
    with (acc := st1) as (st2 & -> & Hst2); [| exact Hst1 |].
  { intros a r Ha [Hr1 Hr2].
    apply (record_in_ok N n rank bound); assumption. }
  simpl. eauto.
Qed.

Lemma initial_engine_shaped (N : nat) (leaf_sets : list (list Z))
  (rank : Z -> nat) (bound : nat) :
  engine_shaped N (List.length leaf_sets) rank bound
                (initial_engine N leaf_sets).
Proof.
  unfold initial_engine. split; [| split]; simpl.
  - split.
    + unfold py_range. rewrite !length_fmap, length_seq. reflexivity.
    + apply Forall_fmap, Forall_forall. intros u _. simpl.
      apply length_fmap.
  - split; [apply length_replicate |]. split.
    + apply Forall_replicate. lia.
    + intros i p Hi Hne. apply lookup_replicate in Hi.
      destruct Hi as [-> _]. contradiction.
  - apply length_replicate.
Qed.

Lemma run_ok N n rank bound (condition : list Z -> bool) (fuel : nat)
  (evs : list diff_event) :
  Forall (event_well_formed N rank bound) evs ->
  (bound <= fuel)%nat ->
  forall st S_,
  engine_shaped N n rank bound st ->
  exists st' S', for_each evs (diff_step n condition fuel) (st, S_)
                 = Ok (st', S')
                 /\ engine_shaped N n rank bound st'.
Proof.
  intros Hevs Hfuel. induction Hevs as [|ev evs Hev _ IH]; intros st S_ Hst.
  - simpl. eauto.
  - cbn [for_each].
    destruct (diff_step_ok N n rank bound condition fuel st S_ ev Hst Hev
                Hfuel) as (st1 & S1 & -> & Hst1).
    cbn [mbind result_bind]. apply IH. exact Hst1.
Qed.

(** X8.  On a well-formed diff stream [branch_stats] returns a number: no
    index is out of range and the loops that walk up terminate.  The
    stream is well formed when the nodes and children of its records are
    ids of nodes of the sequence and, for some ranking of the nodes, the
    children of every entering record rank below its node (as they do when
    node times grow from child to parent), with no rank above the bound
    [fuel] given to the loops.  The sequence length must not be zero. *)
Theorem branch_stats_returns (fuel : nat) (ts : TreeSequence.t)
  (leaf_sets : list (list Z)) (condition : list Z -> bool) (method : string)
  (rank : Z -> nat) :
  Forall (event_well_formed (TreeSequence.num_nodes ts) rank fuel)
         (TreeSequence.diffs ts) ->
  ~ (TreeSequence.sequence_length ts == 0)%Q ->
  exists q, branch_stats fuel ts leaf_sets condition method = Ok q.
Proof.
  intros Hwf Hlen. unfold branch_stats, branch_stats_run.
  destruct (run_ok (TreeSequence.num_nodes ts) (List.length leaf_sets)
              rank fuel condition fuel (TreeSequence.diffs ts) Hwf
              (Nat.le_refl fuel)
              (initial_engine (TreeSequence.num_nodes ts) leaf_sets) 0%Q)
    as (st & S_ & -> & _).
  { apply initial_engine_shaped. }
  simpl. unfold py_div, TreeSequence.get_sequence_length.
  destruct (Qeq_bool (TreeSequence.sequence_length ts) 0) eqn:Ez.
  - apply Qeq_bool_iff in Ez. contradiction.
  - eauto.
Qed.

Lemma leaving_edge_tables_well_formed :
  Forall (event_well_formed 4 Z.to_nat 4)
         (TreeSequence.diffs (Tables.load leaving_edge_tables)).
Proof.
  repeat constructor; simpl; lia.
Qed.

Lemma branch_stats_returns_witness :
  exists q, branch_stats 4 (Tables.load leaving_edge_tables) [[0]]
              none_below "length" = Ok q.
Proof.
  apply (branch_stats_returns 4 (Tables.load leaving_edge_tables) [[0]]
           none_below "length" Z.to_nat).
  - apply leaving_edge_tables_well_formed.
  - discriminate.
Defined.

(** X9.  While a well-formed diff stream is consumed the engine keeps its
    arrays in shape: after the last event [X] has one row of
    [len(leaf_sets)] counts per node, [pi] and [node_time] have one entry
    per node, and every entry of [pi] is [-1] or the id of a node that
    ranks above the node of the entry, so that [pi] has no cycle. *)
Theorem branch_stats_run_keeps_shape (fuel : nat) (ts : TreeSequence.t)
  (leaf_sets : list (list Z)) (condition : list Z -> bool)
  (rank : Z -> nat) :
  Forall (event_well_formed (TreeSequence.num_nodes ts) rank fuel)
         (TreeSequence.diffs ts) ->
  exists st S_,
    branch_stats_run fuel ts leaf_sets condition = Ok (st, S_)
    /\ List.length (st_X st) = TreeSequence.num_nodes ts
    /\ Forall (fun row => List.length row = List.length leaf_sets) (st_X st)
    /\ List.length (st_pi st) = TreeSequence.num_nodes ts
    /\ List.length (st_node_time st) = TreeSequence.num_nodes ts
    /\ forall i p, st_pi st !! i = Some p -> p ≠ -1 ->
         0 <= p < Z.of_nat (TreeSequence.num_nodes ts)
         /\ (rank (Z.of_nat i) < rank p)%nat.
Proof.
  intros Hwf. unfold branch_stats_run.
  destruct (run_ok (TreeSequence.num_nodes ts) (List.length leaf_sets)
              rank fuel condition fuel (TreeSequence.diffs ts) Hwf
              (Nat.le_refl fuel)
              (initial_engine (TreeSequence.num_nodes ts) leaf_sets) 0%Q)
    as (st & S_ & Hrun & (HX1 & HX2) & (Hpi1 & Hpi2 & Hpi3) & Htime).
  { apply initial_engine_shaped. }
  exists st, S_. split; [exact Hrun |].
  split; [exact HX1 |]. split; [exact HX2 |]. split; [exact Hpi1 |].
  split; [exact Htime |].
  intros i p Hi Hne. split.
  - pose proof (Forall_lookup_1 _ _ _ _ Hpi2 Hi) as Hp. simpl in Hp. lia.
  - apply Hpi3; assumption.
Qed.

Lemma branch_stats_run_keeps_shape_witness :
  exists st S_,
    branch_stats_run 4 (Tables.load leaving_edge_tables) [[0]] none_below
    = Ok (st, S_)
    /\ List.length (st_X st) = 4%nat
    /\ List.length (st_pi st) = 4%nat.
Proof.
  destruct (branch_stats_run_keeps_shape 4 (Tables.load leaving_edge_tables)
              [[0]] none_below Z.to_nat leaving_edge_tables_well_formed)
    as (st & S_ & Hrun & HX & _ & Hpi & _).
  exists st, S_. split; [exact Hrun |]. split; [exact HX | exact Hpi].
Defined.

(** ** branch_stats: what the loops over [k] compute *)

Lemma py_get_of_nat {A} (l : list A) (i : nat) (a : A) :
  l !! i = Some a -> py_get l (Z.of_nat i) = Ok a.
Proof.
  intros Hi. unfold py_get.
  rewrite (py_index_in_range (List.length l) (Z.of_nat i)).
  - rewrite Nat2Z.id, Hi. reflexivity.
  - apply lookup_lt_Some in Hi. unfold in_range. lia.
Qed.

Lemma py_set_of_nat {A} (l : list A) (i : nat) (a : A) :
  (i < List.length l)%nat -> py_set l (Z.of_nat i) a = Ok (<[i := a]> l).
Proof.
  intros Hi. unfold py_set.
  rewrite (py_index_in_range (List.length l) (Z.of_nat i)).
  - rewrite Nat2Z.id. reflexivity.
  - unfold in_range. lia.
Qed.

(** A loop over [k] in [range(n)] whose body replaces entry [k] of a
    vector of [n] entries by [g k] of that entry replaces every entry;
    [put] places the vector in the value that the loop carries. *)
Lemma pointwise_loop {T} (put : list Z -> T) (g : nat -> Z -> Z)
  (body : T -> Z -> result T) (n : nat) :
  (forall row k a, (k < n)%nat -> List.length row = n -> row !! k = Some a ->
     body (put row) (Z.of_nat k) = Ok (put (<[k := g k a]> row))) ->
  forall row, List.length row = n ->
  for_each (py_range n) body (put row) = Ok (put (imap g row)).
Proof.
  intros Hbody.
  assert (Hseg : forall m s row, (s + m <= n)%nat -> List.length row = n ->
    exists r, for_each (Z.of_nat <$> seq s m) body (put row) = Ok (put r)
              /\ List.length r = n
              /\ forall k, r !! k = if (s <=? k)%nat && (k <? s + m)%nat
                                    then g k <$> row !! k else row !! k).
  { induction m as [|m IH]; intros s row Hsm Hlen.
    - exists row. split; [reflexivity |]. split; [exact Hlen |].
      intros k. destruct (s <=? k)%nat eqn:E1; [| reflexivity].
      destruct (k <? s + 0)%nat eqn:E2; [| reflexivity].
      apply Nat.leb_le in E1. apply Nat.ltb_lt in E2. lia.
    - destruct (lookup_lt_is_Some_2 row s) as [a Ha]; [lia |].
      simpl seq. rewrite fmap_cons. cbn [for_each].
      rewrite (Hbody row s a) by (assumption || lia).
      cbn [mbind result_bind].
      destruct (IH (S s) (<[s := g s a]> row)) as (r & Hr & Hrlen & Hrk).
      { lia. } { rewrite length_insert. exact Hlen. }
      exists r. split; [exact Hr |]. split; [exact Hrlen |].
      intros k. rewrite Hrk.
      destruct (decide (k = s)) as [-> | Hne].
      + rewrite list_lookup_insert_eq by lia.
        replace (S s <=? s)%nat with false
          by (symmetry; apply Nat.leb_gt; lia).
        replace (s <=? s)%nat with true
          by (symmetry; apply Nat.leb_le; lia).
        replace (s <? s + S m)%nat with true
          by (symmetry; apply Nat.ltb_lt; lia).
        rewrite Ha. reflexivity.
      + rewrite list_lookup_insert_ne by congruence.
        replace (S s + m)%nat with (s + S m)%nat by lia.
        destruct (Nat.leb_spec (S s) k), (Nat.leb_spec s k);
          try lia; reflexivity. }
  intros row Hlen.
  destruct (Hseg n 0%nat row) as (r & Hr & Hrlen & Hrk); [lia | exact Hlen |].
  unfold py_range. rewrite Hr. f_equal. f_equal.
  apply list_eq. intros k. rewrite Hrk, list_lookup_imap. simpl.
  destruct (k <? n)%nat eqn:E; [reflexivity |].
  apply Nat.ltb_ge in E. rewrite (lookup_ge_None_2 row k) by lia.
  reflexivity.
Qed.

Lemma imap_zip_with (op : Z -> Z -> Z) (row d : list Z) :
  List.length d = List.length row ->
  imap (fun k a => op a (default 0 (d !! k))) row = zip_with op row d.
Proof.
  intros Hlen. apply list_eq. intros k.
  rewrite list_lookup_imap, lookup_zip_with.
  destruct (row !! k) as [a|] eqn:Ha; [| reflexivity]. simpl.
  destruct (lookup_lt_is_Some_2 d k) as [b ->]; [| reflexivity].
  apply lookup_lt_Some in Ha. lia.
Qed.

Lemma imap_const (c : Z) (row : list Z) :
  imap (fun _ _ => c) row = replicate (List.length row) c.
Proof.
  apply list_eq. intros k. rewrite list_lookup_imap.
  destruct (row !! k) as [a|] eqn:Ha; simpl.
  - symmetry. apply lookup_replicate_2. apply lookup_lt_Some in Ha. exact Ha.
  - symmetry. apply lookup_replicate_None. apply lookup_ge_None in Ha. lia.
Qed.

Lemma imap_lookup_default (d row : list Z) :
  List.length d = List.length row ->
  imap (fun k _ => default 0 (d !! k)) row = d.
Proof.
  intros Hlen. apply list_eq. intros k. rewrite list_lookup_imap.
  destruct (row !! k) as [a|] eqn:Ha; simpl.
  - destruct (lookup_lt_is_Some_2 d k) as [b ->]; [| reflexivity].
    apply lookup_lt_Some in Ha. lia.
  - symmetry. apply lookup_ge_None. apply lookup_ge_None in Ha. lia.
Qed.

(** [X[u][k]] and [X[u][k] = v] on a matrix whose row [u] is known. *)
Lemma X_get_row (X : list (list Z)) (u k : nat) (row : list Z) (a : Z) :
  X !! u = Some row -> row !! k = Some a ->
  X_get X (Z.of_nat u) (Z.of_nat k) = Ok a.
Proof.
  intros Hu Hk. unfold X_get. rewrite (py_get_of_nat X u row Hu). simpl.
  apply py_get_of_nat. exact Hk.
Qed.

Lemma X_set_row (X : list (list Z)) (u k : nat) (row : list Z) (v : Z) :
  X !! u = Some row -> (k < List.length row)%nat ->
  X_set X (Z.of_nat u) (Z.of_nat k) v = Ok (<[u := <[k := v]> row]> X).
Proof.
  intros Hu Hk. unfold X_set. rewrite (py_get_of_nat X u row Hu). simpl.
  rewrite (py_set_of_nat row k v Hk). simpl.
  apply py_set_of_nat. apply lookup_lt_Some in Hu. exact Hu.
Qed.

Lemma insert_row_lookup (X : list (list Z)) (u : nat) (row0 row : list Z) :
  X !! u = Some row0 -> <[u := row]> X !! u = Some row.
Proof.
  intros Hu. apply list_lookup_insert_eq. apply lookup_lt_Some in Hu.
  exact Hu.
Qed.

Lemma X_add_vec_exact (n : nat) (X : list (list Z)) (u : nat)
  (row dx : list Z) :
  X !! u = Some row -> List.length row = n -> List.length dx = n ->
  X_add_vec n X (Z.of_nat u) dx = Ok (<[u := vec_add row dx]> X).
Proof.
  intros Hu Hrow Hdx. unfold X_add_vec.
  rewrite <- (list_insert_id X u row Hu) at 1.
  rewrite (pointwise_loop (fun row => <[u := row]> X)
             (fun k a => a + default 0 (dx !! k))); [| | exact Hrow].
  - rewrite imap_zip_with by congruence. reflexivity.
  - intros r k a Hk Hr Ha.
    rewrite (X_get_row _ u k r a (insert_row_lookup X u row r Hu) Ha).
    cbn [mbind result_bind].
    destruct (lookup_lt_is_Some_2 dx k) as [b Hb]; [lia |].
    rewrite (py_get_of_nat dx k b Hb). cbn [mbind result_bind].
    rewrite (X_set_row _ u k r _ (insert_row_lookup X u row r Hu)) by lia.
    rewrite list_insert_insert_eq, Hb. reflexivity.
Qed.

Lemma X_sub_row_exact (n : nat) (X : list (list Z)) (u node : nat)
  (row d : list Z) :
  X !! u = Some row -> X !! node = Some d -> u ≠ node ->
  List.length row = n -> List.length d = n ->
  X_sub_row n X (Z.of_nat u) (Z.of_nat node)
  = Ok (<[u := vec_sub row d]> X).
Proof.
  intros Hu Hnode Hne Hrow Hd. unfold X_sub_row.
  rewrite <- (list_insert_id X u row Hu) at 1.
  rewrite (pointwise_loop (fun row => <[u := row]> X)
             (fun k a => a - default 0 (d !! k))); [| | exact Hrow].
  - rewrite imap_zip_with by congruence. reflexivity.
  - intros r k a Hk Hr Ha.
    rewrite (X_get_row _ u k r a (insert_row_lookup X u row r Hu) Ha).
    cbn [mbind result_bind].
    destruct (lookup_lt_is_Some_2 d k) as [b Hb]; [lia |].
    rewrite (X_get_row (<[u := r]> X) node k d b); [| | exact Hb].
    2:{ rewrite list_lookup_insert_ne by congruence. exact Hnode. }
    cbn [mbind result_bind].
    rewrite (X_set_row _ u k r _ (insert_row_lookup X u row r Hu)) by lia.
    rewrite list_insert_insert_eq, Hb. reflexivity.
Qed.

Lemma X_zero_row_exact (n : nat) (X : list (list Z)) (node : nat)
  (row : list Z) :
  X !! node = Some row -> List.length row = n ->
  X_zero_row n X (Z.of_nat node) = Ok (<[node := replicate n 0]> X).
Proof.
  intros Hu Hrow. unfold X_zero_row.
  rewrite <- (list_insert_id X node row Hu) at 1.
  rewrite (pointwise_loop (fun row => <[node := row]> X)
             (fun _ _ => 0)); [| | exact Hrow].
  - rewrite imap_const, Hrow. reflexivity.
  - intros r k a Hk Hr Ha.
    rewrite (X_set_row _ node k r _ (insert_row_lookup X node row r Hu))
      by lia.
    rewrite list_insert_insert_eq. reflexivity.
Qed.

Lemma X_assign_row_exact (n : nat) (X : list (list Z)) (node : nat)
  (row dx : list Z) :
  X !! node = Some row -> List.length row = n -> List.length dx = n ->
  X_assign_row n X (Z.of_nat node) dx = Ok (<[node := dx]> X).
Proof.
  intros Hu Hrow Hdx. unfold X_assign_row.
  rewrite <- (list_insert_id X node row Hu) at 1.
  rewrite (pointwise_loop (fun row => <[node := row]> X)
             (fun k _ => default 0 (dx !! k))); [| | exact Hrow].
  - rewrite imap_lookup_default by congruence. reflexivity.
  - intros r k a Hk Hr Ha.
    destruct (lookup_lt_is_Some_2 dx k) as [b Hb]; [lia |].
    rewrite (py_get_of_nat dx k b Hb). cbn [mbind result_bind].
    rewrite (X_set_row _ node k r _ (insert_row_lookup X node row r Hu))
      by lia.
    rewrite list_insert_insert_eq, Hb. reflexivity.
Qed.

Lemma dx_add_row_exact (n : nat) (X : list (list Z)) (dx : list Z)
  (child : nat) (row : list Z) :
  X !! child = Some row -> List.length row = n -> List.length dx = n ->
  dx_add_row n X dx (Z.of_nat child) = Ok (vec_add dx row).
Proof.
  intros Hc Hrow Hdx. unfold dx_add_row.
  rewrite (pointwise_loop (fun dx => dx)
             (fun k a => a + default 0 (row !! k))); [| | exact Hdx].
  - rewrite imap_zip_with by congruence. reflexivity.
  - intros r k a Hk Hr Ha.
    rewrite (py_get_of_nat r k a Ha). cbn [mbind result_bind].
    destruct (lookup_lt_is_Some_2 row k) as [b Hb]; [lia |].
    rewrite (X_get_row X child k row b Hc Hb). cbn [mbind result_bind].
    rewrite (py_set_of_nat r k) by lia. rewrite Hb. reflexivity.
Qed.

Lemma pi_branch_value (st : engine) (u : Z) (b : Q) :
  pi_branch st u = Ok b -> b = branch_of (st_pi st) (st_node_time st) u.
Proof.
  unfold pi_branch, branch_of. intros H.
  bind_inv H p Hp. bind_inv H tp Htp. bind_inv H tu Htu.
  injection H as <-. rewrite Hp, Htp, Htu. reflexivity.
Qed.

Lemma path_up_rank N rank bound (pi : list Z) :
  pi_shaped N rank bound pi ->
  forall f u v, in_range N u -> v ∈ path_up f pi u ->
  in_range N v /\ (rank u <= rank v)%nat.
Proof.
  intros Hpi. induction f as [|f IH]; intros u v Hu Hv; simpl in Hv.
  - apply list_elem_of_singleton in Hv. subst v. split; [exact Hu | lia].
  - apply elem_of_cons in Hv. destruct Hv as [-> | Hv]; [split; [exact Hu | lia] |].
    destruct (pi_get_ok N rank bound pi u Hpi Hu) as (p & Hp & Hrange & Hrank).
    rewrite Hp in Hv. destruct (p =? -1) eqn:Ep; [inversion Hv |].
    apply Z.eqb_neq in Ep. specialize (Hrank Ep).
    destruct (IH p v) as [Hin Hr]; [unfold in_range; lia | exact Hv |].
    split; [exact Hin | lia].
Qed.

(** The two tests on [old_f] and [new_f] add the flip to [L]. *)
Lemma flip_block_value (condition : list Z -> bool) (st : engine)
  (u next_u : Z) (old new : list Z) (b : Q) :
  py_get (st_pi st) u = Ok next_u ->
  pi_branch st u = Ok b ->
  exists st2,
    (if negb (next_u =? -1) then
       st0 ← (if condition old && negb (condition new) then
                b ← pi_branch st u; Ok (with_L st (st_L st - b)%Q)
              else Ok st);
       (if condition new && negb (condition old) then
          b ← pi_branch st0 u; Ok (with_L st0 (st_L st0 + b)%Q)
        else Ok st0)
     else Ok st) = Ok st2
    /\ st_X st2 = st_X st /\ st_pi st2 = st_pi st
    /\ st_node_time st2 = st_node_time st
    /\ (st_L st2 == st_L st
          + flip condition (st_pi st) (st_node_time st) u old new)%Q.
Proof.
  intros Hnext Hb. pose proof (pi_branch_value st u b Hb) as Eb.
  unfold flip. rewrite Hnext.
  assert (Hdone : forall st2 : engine,
            st_X st2 = st_X st -> st_pi st2 = st_pi st ->
            st_node_time st2 = st_node_time st -> forall q,
            (st_L st2 == st_L st + q)%Q ->
            st_X st2 = st_X st /\ st_pi st2 = st_pi st
            /\ st_node_time st2 = st_node_time st
            /\ (st_L st2 == st_L st + q)%Q) by (intros; tauto).
  destruct (next_u =? -1); simpl.
  { exists st. split; [reflexivity |]. apply Hdone; try reflexivity. ring. }
  rewrite <- Eb.
  destruct (condition old), (condition new); simpl;
    try rewrite Hb; simpl;
    (eexists; split; [reflexivity |]; apply Hdone; try reflexivity;
     simpl; unfold indicator; ring).
Qed.

Lemma py_get_at {A} (N : nat) (l : list A) (u : Z) (a : A) :
  in_range N u -> l !! Z.to_nat u = Some a -> py_get l u = Ok a.
Proof.
  intros Hu Ha. rewrite <- (Z2Nat.id u) at 1 by (destruct Hu; lia).
  apply py_get_of_nat. exact Ha.
Qed.

(** What the loop that walks up does: the count vector of every node it
    walks through is combined with [d], the count vector of [node], and
    [L] changes by the flips. *)
Lemma propagate_exact N n rank bound (condition : list Z -> bool)
  (update : list (list Z) -> Z -> result (list (list Z)))
  (op : Z -> Z -> Z) (node : Z) (d : list Z) :
  in_range N node ->
  (forall X u row,
     X_shaped N n X -> in_range N u -> u ≠ node ->
     X !! Z.to_nat node = Some d -> X !! Z.to_nat u = Some row ->
     update X u = Ok (<[Z.to_nat u := zip_with op row d]> X)) ->
  forall fuel st u next_u,
  engine_shaped N n rank bound st ->
  st_X st !! Z.to_nat node = Some d ->
  (u ≠ -1 -> in_range N u /\ py_get (st_pi st) u = Ok next_u
             /\ (rank node < rank u <= bound)%nat
             /\ (bound < rank u + fuel)%nat) ->
  exists st',
    propagate condition update fuel st u next_u = Ok st'
    /\ st_pi st' = st_pi st
    /\ st_node_time st' = st_node_time st
    /\ (forall j, st_X st' !! j
          = if decide (Z.of_nat j ∈ walked fuel (st_pi st) u)
            then (fun row => zip_with op row d) <$> st_X st !! j
            else st_X st !! j)
    /\ (st_L st' == st_L st
          + Qsum (map (fun v => flip condition (st_pi st) (st_node_time st) v
                                  (row_of (st_X st) v)
                                  (zip_with op (row_of (st_X st) v) d))
                    (walked fuel (st_pi st) u)))%Q.
Proof.
  intros Hnode Hupd. induction fuel as [|f IH]; intros st u next_u Hst Hd Hu.
  - destruct (Z.eq_dec u (-1)) as [-> | Hne].
    + exists st. simpl. repeat split; try reflexivity. ring.
    + destruct (Hu Hne) as (_ & _ & Hr1 & Hr2). lia.
  - destruct (Z.eq_dec u (-1)) as [-> | Hne].
    { exists st. simpl. repeat split; try reflexivity. ring. }
    destruct (Hu Hne) as (Hin & Hnext & Hr1 & Hr2).
    pose proof Hst as (HX & Hpi & Htime).
    assert (Hun : u ≠ node) by (intros ->; lia).
    destruct (lookup_lt_is_Some_2 (st_X st) (Z.to_nat u)) as [row Hrow].
    { destruct HX as [-> _]. unfold in_range in Hin. lia. }
    assert (Hgetu : forall X, X !! Z.to_nat u = Some row ->
                              py_get X u = Ok row).
    { intros X HXu. apply (py_get_at N); assumption. }
    cbn [propagate]. apply Z.eqb_neq in Hne. rewrite Hne.
    apply Z.eqb_neq in Hne.
    rewrite (Hgetu _ Hrow). cbn [mbind result_bind].
    rewrite (Hupd _ u row HX Hin Hun Hd Hrow). cbn [mbind result_bind].
    set (new := zip_with op row d).
    set (X1 := <[Z.to_nat u := new]> (st_X st)).
    assert (HX1u : X1 !! Z.to_nat u = Some new).
    { apply list_lookup_insert_eq. apply lookup_lt_Some in Hrow. exact Hrow. }
    assert (Hget1 : py_get (st_X (with_X st X1)) u = Ok new).
    { apply (py_get_at N); assumption. }
    rewrite Hget1. cbn [mbind result_bind].
    assert (HX1 : X_shaped N n X1).
    { destruct HX as [HXlen HXrows]. split.
      - unfold X1. rewrite length_insert. exact HXlen.
      - apply Forall_insert; [exact HXrows |].
        pose proof (Forall_lookup_1 _ _ _ _ HXrows Hrow) as Hrl.
        pose proof (Forall_lookup_1 _ _ _ _ HXrows Hd) as Hdl.
        simpl in Hrl, Hdl. unfold new.
        rewrite length_zip_with. lia. }
    assert (Hst1 : engine_shaped N n rank bound (with_X st X1)).
    { split; [exact HX1 | split; [exact Hpi | exact Htime]]. }
    destruct (pi_branch_ok N n rank bound _ u Hst1 Hin) as (b & Hb).
    destruct (flip_block_value condition (with_X st X1) u next_u row new b
                Hnext Hb) as (st2 & Hflip & EX2 & Epi2 & Et2 & EL2).
    simpl in EX2, Epi2, Et2, EL2.
    rewrite Hflip. cbn [mbind result_bind].
    destruct (pi_get_ok N rank bound _ u Hpi Hin)
      as (p & Hp & Hprange & Hprank).
    rewrite Hnext in Hp. injection Hp as <-.
    destruct (time_get_ok N (st_pi st2) next_u) as (nn & Hnn).
    { rewrite Epi2. apply Hpi. }
    { exact (in_range_pos _ _ Hin). }
    { exact Hprange. }
    rewrite Hnn. cbn [mbind result_bind].
    assert (Hst2 : engine_shaped N n rank bound st2).
    { split; [rewrite EX2; exact HX1 |].
      split; [rewrite Epi2; exact Hpi | rewrite Et2; exact Htime]. }
    destruct (IH st2 next_u nn Hst2) as (st' & Hrun & Epi' & Et' & HX' & HL').
    { rewrite EX2. unfold X1. rewrite list_lookup_insert_ne; [exact Hd |].
      intros E. apply Hun. apply Z2Nat.inj in E;
        [exact E | destruct Hin; lia | destruct Hnode; lia]. }
    { intros Hnn1. specialize (Hprank Hnn1).
      split; [unfold in_range; lia |]. split; [exact Hnn |]. lia. }
    exists st'. split; [exact Hrun |].
    rewrite Epi2 in Epi', HX', HL'. rewrite Et2 in Et', HL'.
    rewrite EX2 in HX', HL'.
    split; [exact Epi' |]. split; [exact Et' |].
    (* the nodes walked through from [u] are [u] and those from [next_u] *)
    assert (Hwalk : walked (S f) (st_pi st) u
                    = u :: walked f (st_pi st) next_u).
    { unfold walked. apply Z.eqb_neq in Hne. rewrite Hne.
      apply Z.eqb_neq in Hne. replace (S f - 1)%nat with f by lia.
      destruct (next_u =? -1) eqn:En.
      - destruct f; simpl; [reflexivity |]. rewrite Hnext, En. reflexivity.
      - apply Z.eqb_neq in En. specialize (Hprank En).
        destruct f as [|f']; [lia |].
        replace (S f' - 1)%nat with f' by lia.
        apply path_up_step; assumption. }
    assert (Habove : forall v, v ∈ walked f (st_pi st) next_u ->
                               in_range N v /\ (rank u < rank v)%nat).
    { intros v Hv. unfold walked in Hv.
      destruct (next_u =? -1) eqn:En; [inversion Hv |].
      apply Z.eqb_neq in En. specialize (Hprank En).
      destruct (path_up_rank N rank bound _ Hpi (f - 1)%nat next_u v)
        as [Hvin Hvr];
        [unfold in_range; lia | exact Hv |].
      split; [exact Hvin | lia]. }
    rewrite Hwalk. split.
    + intros j. rewrite HX'.
      destruct (decide (Z.of_nat j ∈ walked f (st_pi st) next_u)) as [Hj | Hj].
      * rewrite decide_True by (now right).
        destruct (Habove _ Hj) as [_ Hjr].
        unfold X1. rewrite list_lookup_insert_ne; [reflexivity |].
        intros E. subst j. rewrite Z2Nat.id in Hjr by (destruct Hin; lia).
        lia.
      * destruct (decide (j = Z.to_nat u)) as [-> | Hju].
        -- rewrite decide_True
             by (rewrite Z2Nat.id by (destruct Hin; lia); left).
           rewrite HX1u, Hrow. reflexivity.
        -- rewrite decide_False.
           ++ unfold X1. apply list_lookup_insert_ne. congruence.
           ++ rewrite elem_of_cons. intros [E | E]; [| contradiction].
              apply Hju. rewrite <- E. rewrite Nat2Z.id. reflexivity.
    + rewrite HL', EL2. cbn [map Qsum].
      assert (Hrowu : row_of (st_X st) u = row).
      { unfold row_of. rewrite Hrow. reflexivity. }
      rewrite Hrowu. fold new.
      assert (Hsame :
        map (fun v => flip condition (st_pi st) (st_node_time st) v
                        (row_of X1 v) (zip_with op (row_of X1 v) d))
            (walked f (st_pi st) next_u)
        = map (fun v => flip condition (st_pi st) (st_node_time st) v
                          (row_of (st_X st) v)
                          (zip_with op (row_of (st_X st) v) d))
              (walked f (st_pi st) next_u)).
      { apply map_ext_in. intros v Hv. apply list_elem_of_In in Hv.
        destruct (Habove v Hv) as [Hvin Hvr].
        assert (Er : row_of X1 v = row_of (st_X st) v).
        { unfold row_of, X1. rewrite list_lookup_insert_ne; [reflexivity |].
          intros E. apply Z2Nat.inj in E;
            [subst v; lia | destruct Hin; lia | destruct Hvin; lia]. }
        rewrite Er. reflexivity. }
      rewrite Hsame. ring.
Qed.

Lemma ancestors_detached (fuel : nat) (pi : list Z) (node : Z) :
  py_get pi node = Ok (-1) -> ancestors fuel pi node = [].
Proof.
  intros Hp. unfold ancestors. destruct fuel; simpl; [reflexivity |].
  rewrite Hp. reflexivity.
Qed.

Lemma ancestors_attached (fuel : nat) (pi : list Z) (node u : Z) :
  py_get pi node = Ok u -> u ≠ -1 ->
  ancestors (S fuel) pi node = path_up fuel pi u.
Proof.
  intros Hp Hne. unfold ancestors.
  rewrite (path_up_step fuel pi node u Hp Hne). reflexivity.
Qed.

Lemma propagate_from_exact N n rank bound (condition : list Z -> bool)
  (update : list (list Z) -> Z -> result (list (list Z)))
  (op : Z -> Z -> Z) (node : Z) (d : list Z) (fuel : nat) (st : engine) :
  in_range N node ->
  (forall X u row,
     X_shaped N n X -> in_range N u -> u ≠ node ->
     X !! Z.to_nat node = Some d -> X !! Z.to_nat u = Some row ->
     update X u = Ok (<[Z.to_nat u := zip_with op row d]> X)) ->
  engine_shaped N n rank bound st ->
  st_X st !! Z.to_nat node = Some d ->
  (bound <= fuel)%nat ->
  exists st',
    propagate_from condition update fuel st node = Ok st'
    /\ st_pi st' = st_pi st
    /\ st_node_time st' = st_node_time st
    /\ (forall j, st_X st' !! j
          = if decide (Z.of_nat j ∈ ancestors fuel (st_pi st) node)
            then (fun row => zip_with op row d) <$> st_X st !! j
            else st_X st !! j)
    /\ (st_L st' == st_L st
          + Qsum (map (fun v => flip condition (st_pi st) (st_node_time st) v
                                  (row_of (st_X st) v)
                                  (zip_with op (row_of (st_X st) v) d))
                    (ancestors fuel (st_pi st) node)))%Q.
Proof.
  intros Hnode Hupd Hst Hd Hfuel. unfold propagate_from.
  pose proof Hst as (HX & Hpi & Htime).
  destruct (pi_get_ok N rank bound _ node Hpi Hnode)
    as (u & Hu & Hurange & Hurank).
  rewrite Hu. cbn [mbind result_bind].
  destruct (Z.eq_dec u (-1)) as [-> | Hne].
  - simpl. rewrite (ancestors_detached fuel _ node Hu).
    exists st. repeat split; try reflexivity. simpl. ring.
  - apply Z.eqb_neq in Hne. rewrite Hne. apply Z.eqb_neq in Hne. simpl negb.
    cbv iota.
    specialize (Hurank Hne).
    assert (Hin : in_range N u) by (unfold in_range; lia).
    destruct (pi_get_ok N rank bound _ u Hpi Hin) as (next_u & Hnext & _ & _).
    rewrite Hnext. cbn [mbind result_bind].
    destruct fuel as [|f]; [lia |].
    destruct (propagate_exact N n rank bound condition update op node d
                Hnode Hupd (S f) st u next_u Hst Hd)
      as (st' & Hrun & Epi & Et & HX' & HL').
    { intros _. split; [exact Hin |]. split; [exact Hnext |]. lia. }
    exists st'. split; [exact Hrun |]. split; [exact Epi |].
    split; [exact Et |].
    rewrite (ancestors_attached f _ node u Hu Hne).
    unfold walked in HX', HL'. apply Z.eqb_neq in Hne. rewrite Hne in HX', HL'.
    replace (S f - 1)%nat with f in HX', HL' by lia.
    split; [exact HX' | exact HL'].
Qed.

Lemma reparent_lookup N (pi : list Z) (children : list Z) (p : Z) :
  List.length pi = N -> Forall (in_range N) children ->
  forall i, reparent pi children p !! i
            = if decide (Z.of_nat i ∈ children) then Some p else pi !! i.
Proof.
  intros Hlen Hall. revert pi Hlen.
  induction Hall as [|c cs Hc _ IH]; intros pi Hlen i.
  - unfold reparent. cbn [foldl].
    destruct (decide (Z.of_nat i ∈ [])) as [H | _];
      [inversion H | reflexivity].
  - unfold reparent in *. cbn [foldl].
    rewrite IH by (rewrite length_insert; exact Hlen).
    destruct (decide (Z.of_nat i ∈ cs)) as [Hi | Hi].
    + rewrite decide_True by (now right). reflexivity.
    + destruct (decide (i = Z.to_nat c)) as [-> | Hne].
      * rewrite decide_True
          by (rewrite Z2Nat.id by (destruct Hc; lia); left).
        apply list_lookup_insert_eq. destruct Hc. lia.
      * rewrite decide_False.
        -- apply list_lookup_insert_ne. congruence.
        -- rewrite elem_of_cons. intros [E | E]; [| contradiction].
           apply Hne. rewrite <- E, Nat2Z.id. reflexivity.
Qed.

Lemma reparent_length (pi : list Z) (children : list Z) (p : Z) :
  List.length (reparent pi children p) = List.length pi.
Proof.
  revert pi. induction children as [|c cs IH]; intros pi; simpl;
    [reflexivity |].
  rewrite IH. apply length_insert.
Qed.

Lemma branch_of_insert_ne N (pi : list Z) (nt : list Q) (c u p : Z) :
  List.length pi = N -> in_range N c -> in_range N u -> u ≠ c ->
  branch_of (<[Z.to_nat c := p]> pi) nt u = branch_of pi nt u.
Proof.
  intros Hlen Hc Hu Hne. unfold branch_of, py_get.
  rewrite length_insert, Hlen, (py_index_in_range N u Hu).
  rewrite list_lookup_insert_ne; [reflexivity |].
  intros E. apply Hne. symmetry.
  apply Z2Nat.inj in E; [exact E | destruct Hc; lia | destruct Hu; lia].
Qed.

(** The loop over the children of a record that leaves: each child loses
    its parent, and [L] loses the branch above each counted child. *)
Lemma out_children_exact N n rank bound (condition : list Z -> bool)
  (children : list Z) :
  Forall (in_range N) children -> NoDup children ->
  forall st, engine_shaped N n rank bound st ->
  exists st1,
    for_each children (fun st child =>
        xc ← py_get (st_X st) child;
        st ← (if condition xc then
                b ← pi_branch st child; Ok (with_L st (st_L st - b)%Q)
              else Ok st);
        pi ← py_set (st_pi st) child (-1);
        Ok (with_pi st pi)) st = Ok st1
    /\ st_X st1 = st_X st
    /\ st_node_time st1 = st_node_time st
    /\ st_pi st1 = reparent (st_pi st) children (-1)
    /\ (st_L st1 == st_L st
          - Qsum (map (fun c => indicator (condition (row_of (st_X st) c))
                                * branch_of (st_pi st) (st_node_time st) c)
                    children))%Q.
Proof.
  intros Hall Hnd. induction Hall as [|c cs Hc Hcs IH]; intros st Hst.
  - exists st. simpl. repeat split; try reflexivity. ring.
  - apply NoDup_cons in Hnd. destruct Hnd as [Hnotin Hnd].
    pose proof Hst as (HX & Hpi & Htime).
    destruct (lookup_lt_is_Some_2 (st_X st) (Z.to_nat c)) as [xc Hxc].
    { destruct HX as [-> _]. destruct Hc. lia. }
    cbn [for_each].
    rewrite (py_get_at N _ c xc Hc Hxc). cbn [mbind result_bind].
    destruct (pi_branch_ok N n rank bound st c Hst Hc) as (b & Hb).
    pose proof (pi_branch_value st c b Hb) as Eb.
    assert (Hmid : exists st0,
      (if condition xc then
         b ← pi_branch st c; Ok (with_L st (st_L st - b)%Q)
       else Ok st) = Ok st0
      /\ st_X st0 = st_X st /\ st_pi st0 = st_pi st
      /\ st_node_time st0 = st_node_time st
      /\ (st_L st0 == st_L st - indicator (condition xc) * b)%Q).
    { destruct (condition xc).
      - rewrite Hb. simpl. eexists. split; [reflexivity |].
        repeat split; simpl; unfold indicator; ring.
      - eexists. split; [reflexivity |].
        repeat split; simpl; unfold indicator; ring. }
    destruct Hmid as (st0 & -> & EX0 & Epi0 & Et0 & EL0).
    cbn [mbind result_bind].
    rewrite (py_set_some (st_pi st0) c (Z.to_nat c))
      by (rewrite Epi0; destruct Hpi as [-> _];
          apply py_index_in_range; exact Hc).
    cbn [mbind result_bind].
    destruct (IH Hnd (with_pi st0 (<[Z.to_nat c := -1]> (st_pi st0))))
      as (st1 & Hloop & EX1 & Et1 & Epi1 & EL1).
    { split; [simpl; rewrite EX0; exact HX |].
      split; [simpl; rewrite Epi0; apply pi_shaped_detach; exact Hpi |].
      simpl. rewrite Et0. exact Htime. }
    exists st1. split; [exact Hloop |]. simpl in EX1, Et1, Epi1, EL1.
    split; [congruence |]. split; [congruence |].
    split; [rewrite Epi1, Epi0; reflexivity |].
    rewrite EL1, EL0, EX0, Et0, Epi0. cbn [map Qsum].
    assert (Hrow : row_of (st_X st) c = xc).
    { unfold row_of. rewrite Hxc. reflexivity. }
    rewrite Hrow, <- Eb.
    assert (Hsame :
      map (fun c0 => indicator (condition (row_of (st_X st) c0))
                     * branch_of (<[Z.to_nat c := (-1)%Z]> (st_pi st))
                         (st_node_time st) c0)%Q cs
      = map (fun c0 => indicator (condition (row_of (st_X st) c0))
                       * branch_of (st_pi st) (st_node_time st) c0)%Q cs).
    { apply map_ext_in. intros c0 Hc0. apply list_elem_of_In in Hc0.
      rewrite (branch_of_insert_ne N); try assumption.
      - reflexivity.
      - apply Hpi.
      - rewrite Forall_forall in Hcs. apply Hcs. exact Hc0.
      - intros ->. contradiction. }
    rewrite Hsame. ring.
Qed.

(** The loop over the children of a record that enters: each child gets
    the node as its parent, [dx] gathers the count vectors of the
    children, and [L] gains the branch above each counted child. *)
Lemma in_children_exact N n rank bound (condition : list Z -> bool)
  (node : Z) (children : list Z) :
  in_range N node -> (rank node <= bound)%nat ->
  Forall (fun c => in_range N c /\ (rank c < rank node)%nat) children ->
  forall st dx,
  engine_shaped N n rank bound st -> List.length dx = n ->
  exists st1 dx1,
    for_each children (fun '(st, dx) child =>
        xc ← py_get (st_X st) child;
        st ← (if condition xc then
                tn ← py_get (st_node_time st) node;
                tchild ← py_get (st_node_time st) child;
                Ok (with_L st (st_L st + (tn - tchild))%Q)
              else Ok st);
        pi ← py_set (st_pi st) child node;
        dx ← dx_add_row n (st_X (with_pi st pi)) dx child;
        Ok (with_pi st pi, dx)) (st, dx) = Ok (st1, dx1)
    /\ st_X st1 = st_X st
    /\ st_node_time st1 = st_node_time st
    /\ st_pi st1 = reparent (st_pi st) children node
    /\ dx1 = children_sum (st_X st) dx children
    /\ List.length dx1 = n
    /\ (st_L st1 == st_L st
          + Qsum (map (fun c => indicator (condition (row_of (st_X st) c))
                                * rise (st_node_time st) node c)
                    children))%Q.
Proof.
  intros Hnode Hbound Hall.
  induction Hall as [|c cs [Hc Hrank] _ IH]; intros st dx Hst Hdx.
  - exists st, dx. simpl. repeat split; try reflexivity; [exact Hdx | ring].
  - pose proof Hst as (HX & Hpi & Htime).
    destruct (lookup_lt_is_Some_2 (st_X st) (Z.to_nat c)) as [xc Hxc].
    { destruct HX as [-> _]. destruct Hc. lia. }
    cbn [for_each].
    rewrite (py_get_at N _ c xc Hc Hxc). cbn [mbind result_bind].
    destruct (lookup_lt_is_Some_2 (st_node_time st) (Z.to_nat node))
      as [tn Htn]; [rewrite Htime; destruct Hnode; lia |].
    destruct (lookup_lt_is_Some_2 (st_node_time st) (Z.to_nat c))
      as [tchild Htc]; [rewrite Htime; destruct Hc; lia |].
    assert (Erise : rise (st_node_time st) node c = (tn - tchild)%Q).
    { unfold rise. rewrite (py_get_at N _ node tn Hnode Htn).
      rewrite (py_get_at N _ c tchild Hc Htc). reflexivity. }
    assert (Hmid : exists st0,
      (if condition xc then
         tn ← py_get (st_node_time st) node;
         tchild ← py_get (st_node_time st) c;
         Ok (with_L st (st_L st + (tn - tchild))%Q)
       else Ok st) = Ok st0
      /\ st_X st0 = st_X st /\ st_pi st0 = st_pi st
      /\ st_node_time st0 = st_node_time st
      /\ (st_L st0 == st_L st + indicator (condition xc) * (tn - tchild))%Q).
    { destruct (condition xc).
      - rewrite (py_get_at N _ node tn Hnode Htn).
        rewrite (py_get_at N _ c tchild Hc Htc). simpl.
        eexists. split; [reflexivity |].
        repeat split; simpl; unfold indicator; ring.
      - eexists. split; [reflexivity |].
        repeat split; simpl; unfold indicator; ring. }
    destruct Hmid as (st0 & -> & EX0 & Epi0 & Et0 & EL0).
    cbn [mbind result_bind].
    rewrite (py_set_some (st_pi st0) c (Z.to_nat c))
      by (rewrite Epi0; destruct Hpi as [-> _];
          apply py_index_in_range; exact Hc).
    cbn [mbind result_bind].
    assert (Hrows : Forall (fun row => List.length row = n) (st_X st))
      by apply HX.
    pose proof (Forall_lookup_1 _ _ _ _ Hrows Hxc) as Hxclen.
    simpl in Hxclen.
    assert (Hdxadd :
      dx_add_row n (st_X (with_pi st0 (<[Z.to_nat c := node]> (st_pi st0))))
        dx c = Ok (vec_add dx xc)).
    { rewrite <- (Z2Nat.id c) at 2 by (destruct Hc; lia).
      apply dx_add_row_exact; [simpl; rewrite EX0; exact Hxc | | ];
        assumption. }
    rewrite Hdxadd. cbn [mbind result_bind].
    destruct (IH (with_pi st0 (<[Z.to_nat c := node]> (st_pi st0)))
                (vec_add dx xc))
      as (st1 & dx1 & Hloop & EX1 & Et1 & Epi1 & Edx1 & Hdx1 & EL1).
    { split; [simpl; rewrite EX0; exact HX |].
      split; [simpl; rewrite Epi0; apply pi_shaped_attach;
              [exact Hpi | exact Hc | exact Hnode | lia] |].
      simpl. rewrite Et0. exact Htime. }
    { unfold vec_add. rewrite length_zip_with. lia. }
    exists st1, dx1. split; [exact Hloop |].
    simpl in EX1, Et1, Epi1, Edx1, EL1.
    assert (Hrow : row_of (st_X st) c = xc).
    { unfold row_of. rewrite Hxc. reflexivity. }
    split; [congruence |]. split; [congruence |].
    split; [rewrite Epi1, Epi0; reflexivity |].
    split; [rewrite Edx1, EX0; simpl; rewrite Hrow; reflexivity |].
    split; [exact Hdx1 |].
    rewrite EL1, EL0, EX0, Et0. cbn [map Qsum]. rewrite Hrow, Erise. ring.
Qed.

Lemma ancestors_above N rank bound (pi : list Z) :
  pi_shaped N rank bound pi ->
  forall f node v, in_range N node -> v ∈ ancestors f pi node ->
  in_range N v /\ (rank node < rank v)%nat.
Proof.
  intros Hpi f node v Hnode Hv. unfold ancestors in Hv.
  destruct f as [|f]; simpl in Hv; [inversion Hv |].
  destruct (pi_get_ok N rank bound pi node Hpi Hnode)
    as (p & Hp & Hrange & Hrank).
  rewrite Hp in Hv. destruct (p =? -1) eqn:Ep; [inversion Hv |].
  apply Z.eqb_neq in Ep. specialize (Hrank Ep).
  destruct (path_up_rank N rank bound pi Hpi f p v) as [Hin Hr];
    [unfold in_range; lia | exact Hv |].
  split; [exact Hin | lia].
Qed.

Lemma X_sub_row_update N n (node : Z) (d : list Z) :
  in_range N node ->
  forall X u row,
    X_shaped N n X -> in_range N u -> u ≠ node ->
    X !! Z.to_nat node = Some d -> X !! Z.to_nat u = Some row ->
    X_sub_row n X u node = Ok (<[Z.to_nat u := zip_with Z.sub row d]> X).
Proof.
  intros Hnode X u row [_ Hrows] Hu Hne Hd Hrow.
  rewrite <- (Z2Nat.id u) at 1 by (destruct Hu; lia).
  rewrite <- (Z2Nat.id node) at 1 by (destruct Hnode; lia).
  apply (X_sub_row_exact n X (Z.to_nat u) (Z.to_nat node) row d);
    try assumption.
  - intros E. apply Hne.
    apply Z2Nat.inj in E; [exact E | destruct Hu; lia | destruct Hnode; lia].
  - exact (Forall_lookup_1 _ _ _ _ Hrows Hrow).
  - exact (Forall_lookup_1 _ _ _ _ Hrows Hd).
Qed.

Lemma X_add_vec_update N n (node : Z) (d : list Z) :
  List.length d = n ->
  forall X u row,
    X_shaped N n X -> in_range N u -> u ≠ node ->
    X !! Z.to_nat node = Some d -> X !! Z.to_nat u = Some row ->
    X_add_vec n X u d = Ok (<[Z.to_nat u := zip_with Z.add row d]> X).
Proof.
  intros Hdlen X u row [_ Hrows] Hu Hne Hd Hrow.
  rewrite <- (Z2Nat.id u) at 1 by (destruct Hu; lia).
  apply (X_add_vec_exact n X (Z.to_nat u) row d); try assumption.
  exact (Forall_lookup_1 _ _ _ _ Hrows Hrow).
Qed.

(** The test [pi[node] != -1 and condition(X[node])] and the change of
    [L] that it guards. *)
Lemma counted_block_value N n rank bound (condition : list Z -> bool)
  (st : engine) (node : Z) (d : list Z) (sign : Q) (adjust : Q -> Q -> Q) :
  (forall L b, adjust L b == L + sign * b)%Q ->
  engine_shaped N n rank bound st -> in_range N node ->
  st_X st !! Z.to_nat node = Some d ->
  exists st2,
    (c ← attached_and_counted condition st node;
     (if c : bool then
        b ← pi_branch st node; Ok (with_L st (adjust (st_L st) b))
      else Ok st)) = Ok st2
    /\ st_X st2 = st_X st /\ st_pi st2 = st_pi st
    /\ st_node_time st2 = st_node_time st
    /\ (st_L st2 == st_L st
          + sign * (if attached (st_pi st) node
                    then indicator (condition d)
                         * branch_of (st_pi st) (st_node_time st) node
                    else 0))%Q.
Proof.
  intros Hadj Hst Hnode Hd. pose proof Hst as (HX & Hpi & Htime).
  destruct (pi_get_ok N rank bound _ node Hpi Hnode) as (p & Hp & _ & _).
  destruct (pi_branch_ok N n rank bound st node Hst Hnode) as (b & Hb).
  pose proof (pi_branch_value st node b Hb) as Eb.
  unfold attached_and_counted, attached. rewrite Hp.
  cbn [mbind result_bind].
  destruct (negb (p =? -1)).
  - rewrite (py_get_at N _ node d Hnode Hd). cbn [mbind result_bind].
    destruct (condition d).
    + rewrite Hb. cbn [mbind result_bind]. eexists.
      split; [reflexivity |]. repeat split. simpl. rewrite <- Eb, Hadj.
      unfold indicator. ring.
    + eexists. split; [reflexivity |]. repeat split.
      unfold indicator. ring.
  - eexists. split; [reflexivity |]. repeat split. ring.
Qed.

(** What a record that leaves does to the state. *)
Lemma record_out_exact N n rank bound (condition : list Z -> bool)
  (fuel : nat) (st : engine) (node : Z) (children : list Z) (time : Q) :
  engine_shaped N n rank bound st ->
  edge_in_range N (node, children, time) ->
  NoDup children ->
  (bound <= fuel)%nat ->
  let X := st_X st in
  let nt := st_node_time st in
  let pi' := reparent (st_pi st) children (-1) in
  let d := row_of X node in
  exists st',
    record_out n condition fuel st (node, children, time) = Ok st'
    /\ engine_shaped N n rank bound st'
    /\ st_pi st' = pi'
    /\ st_node_time st' = nt
    /\ (forall j, st_X st' !! j
          = if decide (j = Z.to_nat node) then Some (replicate n 0)
            else if decide (Z.of_nat j ∈ ancestors fuel pi' node)
                 then (fun row => vec_sub row d) <$> X !! j
                 else X !! j)
    /\ (st_L st' == st_L st
          - Qsum (map (fun c => indicator (condition (row_of X c))
                                * branch_of (st_pi st) nt c) children)
          - (if attached pi' node
             then indicator (condition d) * branch_of pi' nt node
             else 0)
          + Qsum (map (fun v => flip condition pi' nt v (row_of X v)
                                  (vec_sub (row_of X v) d))
                    (ancestors fuel pi' node)))%Q.
Proof.
  intros Hst [Hnode Hchildren] Hnd Hfuel X nt pi' d.
  simpl in Hnode, Hchildren. unfold record_out.
  destruct (out_children_exact N n rank bound condition children Hchildren
              Hnd st Hst) as (st1 & -> & EX1 & Et1 & Epi1 & EL1).
  cbn [mbind result_bind].
  pose proof Hst as (HX & Hpi & Htime).
  assert (Hst1 : engine_shaped N n rank bound st1).
  { split; [rewrite EX1; exact HX |]. split; [| rewrite Et1; exact Htime].
    rewrite Epi1. clear -Hpi Hchildren.
    revert Hpi. generalize (st_pi st).
    induction Hchildren as [|c cs Hc _ IH]; intros pi Hpi; [exact Hpi |].
    unfold reparent. cbn [foldl]. apply IH.
    apply pi_shaped_detach. exact Hpi. }
  destruct (lookup_lt_is_Some_2 X (Z.to_nat node)) as [row Hrow].
  { unfold X. destruct HX as [-> _]. destruct Hnode. lia. }
  assert (Ed : d = row) by (unfold d, row_of; rewrite Hrow; reflexivity).
  assert (Hd1 : st_X st1 !! Z.to_nat node = Some d)
    by (rewrite EX1, Ed; exact Hrow).
  destruct (counted_block_value N n rank bound condition st1 node d (-1)%Q
              Qminus) as (st2 & Hcnt & EX2 & Epi2 & Et2 & EL2);
    [intros; ring | exact Hst1 | exact Hnode | exact Hd1 |].
  apply bind_ok in Hcnt. destruct Hcnt as (c & -> & Hcnt).
  cbn [mbind result_bind]. rewrite Hcnt. cbn [mbind result_bind].
  assert (Hst2 : engine_shaped N n rank bound st2).
  { destruct Hst1 as (H1 & H2 & H3).
    split; [rewrite EX2; exact H1 |].
    split; [rewrite Epi2; exact H2 | rewrite Et2; exact H3]. }
  destruct (propagate_from_exact N n rank bound condition
              (fun X u => X_sub_row n X u node) Z.sub node d fuel st2
              Hnode (X_sub_row_update N n node d Hnode) Hst2)
    as (st3 & -> & Epi3 & Et3 & HX3 & EL3);
    [rewrite EX2; exact Hd1 | exact Hfuel |].
  cbn [mbind result_bind].
  rewrite Epi2, Epi1 in Epi3, HX3, EL3. fold pi' in Epi3, HX3, EL3.
  rewrite Et2, Et1 in Et3, EL3. fold nt in Et3, EL3.
  rewrite EX2, EX1 in HX3, EL3. fold X in HX3, EL3.
  assert (Hnotanc : Z.of_nat (Z.to_nat node) ∉ ancestors fuel pi' node).
  { rewrite Z2Nat.id by (destruct Hnode; lia). intros Hin.
    destruct (ancestors_above N rank bound pi') with (f := fuel)
      (node := node) (v := node) as [_ Hr]; try assumption; [| lia].
    destruct Hst1 as (_ & H2 & _). rewrite Epi1 in H2. exact H2. }
  assert (HX3node : st_X st3 !! Z.to_nat node = Some row).
  { rewrite HX3, decide_False by exact Hnotanc. exact Hrow. }
  assert (Hrowlen : List.length row = n).
  { destruct HX as [_ Hrows]. exact (Forall_lookup_1 _ _ _ _ Hrows Hrow). }
  assert (Hzero : X_zero_row n (st_X st3) node
                  = Ok (<[Z.to_nat node := replicate n 0]> (st_X st3))).
  { rewrite <- (Z2Nat.id node) at 1 by (destruct Hnode; lia).
    exact (X_zero_row_exact n (st_X st3) (Z.to_nat node) row HX3node
             Hrowlen). }
  rewrite Hzero.
  cbn [mbind result_bind]. eexists. split; [reflexivity |].
  assert (Hlen3 : List.length (st_X st3) = N).
  { apply lookup_lt_Some in HX3node.
    destruct HX as [HXlen _].
    assert (Hsame : forall j, is_Some (st_X st3 !! j) <-> is_Some (X !! j)).
    { intros j. rewrite HX3.
      destruct (decide (Z.of_nat j ∈ ancestors fuel pi' node));
        [| reflexivity].
      rewrite fmap_is_Some. reflexivity. }
    destruct (Nat.lt_trichotomy (List.length (st_X st3)) N)
      as [Hlt | [Heq | Hgt]]; [| exact Heq |].
    - assert (Hs : is_Some (X !! List.length (st_X st3))).
      { apply lookup_lt_is_Some_2. unfold X. lia. }
      apply Hsame, lookup_lt_is_Some_1 in Hs. lia.
    - assert (Hs : is_Some (st_X st3 !! N)).
      { apply lookup_lt_is_Some_2. lia. }
      apply Hsame, lookup_lt_is_Some_1 in Hs. unfold X in Hs. lia. }
  split.
  { split; [| split].
    - split; [simpl; rewrite length_insert; exact Hlen3 |].
      simpl. apply Forall_insert; [| apply length_replicate].
      apply Forall_lookup. intros j r Hj. rewrite HX3 in Hj.
      destruct HX as [_ Hrows].
      destruct (decide (Z.of_nat j ∈ ancestors fuel pi' node)).
      + apply fmap_Some in Hj. destruct Hj as (r0 & Hr0 & ->).
        pose proof (Forall_lookup_1 _ _ _ _ Hrows Hr0) as Hl. simpl in Hl.
        unfold vec_sub. rewrite length_zip_with, Ed. lia.
      + exact (Forall_lookup_1 _ _ _ _ Hrows Hj).
    - simpl. rewrite Epi3. destruct Hst1 as (_ & H2 & _).
      rewrite Epi1 in H2. exact H2.
    - simpl. rewrite Et3. exact Htime. }
  split; [exact Epi3 |]. split; [exact Et3 |]. split.
  - intros j. simpl.
    destruct (decide (j = Z.to_nat node)) as [-> | Hj].
    + apply list_lookup_insert_eq. rewrite Hlen3. destruct Hnode. lia.
    + rewrite list_lookup_insert_ne by congruence. rewrite HX3.
      reflexivity.
  - simpl. rewrite EL3, EL2, EL1, Epi1, Et1.
    fold pi' nt X. unfold vec_sub.
    destruct (attached pi' node); ring.
Qed.

Lemma pi_shaped_reparent N rank bound (pi : list Z) (children : list Z)
  (node : Z) :
  pi_shaped N rank bound pi -> in_range N node -> (rank node <= bound)%nat ->
  Forall (fun c => in_range N c /\ (rank c < rank node)%nat) children ->
  pi_shaped N rank bound (reparent pi children node).
Proof.
  intros Hpi Hnode Hbound Hall. revert pi Hpi.
  induction Hall as [|c cs [Hc Hr] _ IH]; intros pi Hpi; [exact Hpi |].
  unfold reparent. cbn [foldl]. apply IH.
  apply pi_shaped_attach; [exact Hpi | exact Hc | exact Hnode | lia].
Qed.

(** What a record that enters does to the state. *)
Lemma record_in_exact N n rank bound (condition : list Z -> bool)
  (fuel : nat) (st : engine) (node : Z) (children : list Z) (time : Q) :
  engine_shaped N n rank bound st ->
  edge_in_range N (node, children, time) ->
  edge_ranked rank bound (node, children, time) ->
  (bound <= fuel)%nat ->
  let X := st_X st in
  let nt' := <[Z.to_nat node := time]> (st_node_time st) in
  let pi' := reparent (st_pi st) children node in
  let dx := children_sum X (replicate n 0) children in
  exists st',
    record_in n condition fuel st (node, children, time) = Ok st'
    /\ engine_shaped N n rank bound st'
    /\ st_pi st' = pi'
    /\ st_node_time st' = nt'
    /\ (forall j, st_X st' !! j
          = if decide (j = Z.to_nat node) then Some dx
            else if decide (Z.of_nat j ∈ ancestors fuel pi' node)
                 then (fun row => vec_add row dx) <$> X !! j
                 else X !! j)
    /\ (st_L st' == st_L st
          + Qsum (map (fun c => indicator (condition (row_of X c))
                                * rise nt' node c) children)
          + (if attached pi' node
             then indicator (condition dx) * branch_of pi' nt' node
             else 0)
          + Qsum (map (fun v => flip condition pi' nt' v (row_of X v)
                                  (vec_add (row_of X v) dx))
                    (ancestors fuel pi' node)))%Q.
Proof.
  intros Hst [Hnode Hchildren] [Hbound Hranks] Hfuel X nt' pi' dx.
  simpl in Hnode, Hchildren, Hbound, Hranks. unfold record_in.
  pose proof Hst as (HX & Hpi & Htime).
  rewrite (py_set_some (st_node_time st) node (Z.to_nat node))
    by (rewrite Htime; apply py_index_in_range; exact Hnode).
  cbn [mbind result_bind]. fold nt'.
  assert (Hboth : Forall (fun c => in_range N c /\ (rank c < rank node)%nat)
                         children).
  { apply Forall_and. split; assumption. }
  assert (Hst0 : engine_shaped N n rank bound (with_node_time st nt')).
  { split; [exact HX | split; [exact Hpi |]].
    simpl. unfold nt'. rewrite length_insert. exact Htime. }
  destruct (in_children_exact N n rank bound condition node children
              Hnode Hbound Hboth (with_node_time st nt') (replicate n 0)
              Hst0 (length_replicate n 0))
    as (st1 & dx1 & -> & EX1 & Et1 & Epi1 & Edx1 & Hdx1 & EL1).
  cbn [mbind result_bind]. simpl in EX1, Et1, Epi1, Edx1, EL1.
  fold X in EX1, Edx1, EL1. fold pi' in Epi1. fold dx in Edx1. subst dx1.
  assert (Hpi' : pi_shaped N rank bound pi').
  { apply pi_shaped_reparent; assumption. }
  assert (Hst1 : engine_shaped N n rank bound st1).
  { split; [rewrite EX1; exact HX |].
    split; [rewrite Epi1; exact Hpi' |].
    rewrite Et1. unfold nt'. rewrite length_insert. exact Htime. }
  destruct (lookup_lt_is_Some_2 X (Z.to_nat node)) as [row Hrow].
  { unfold X. destruct HX as [-> _]. destruct Hnode. lia. }
  assert (Hrowlen : List.length row = n).
  { destruct HX as [_ Hrows]. exact (Forall_lookup_1 _ _ _ _ Hrows Hrow). }
  assert (Hassign : X_assign_row n (st_X st1) node dx
                    = Ok (<[Z.to_nat node := dx]> X)).
  { rewrite EX1. rewrite <- (Z2Nat.id node) at 1 by (destruct Hnode; lia).
    exact (X_assign_row_exact n X (Z.to_nat node) row dx Hrow Hrowlen Hdx1). }
  rewrite Hassign. cbn [mbind result_bind].
  set (X2 := <[Z.to_nat node := dx]> X).
  assert (HX2node : X2 !! Z.to_nat node = Some dx).
  { apply list_lookup_insert_eq. apply lookup_lt_Some in Hrow. exact Hrow. }
  assert (HX2 : X_shaped N n X2).
  { destruct HX as [HXlen Hrows]. split.
    - unfold X2. rewrite length_insert. exact HXlen.
    - apply Forall_insert; [exact Hrows | exact Hdx1]. }
  assert (Hst2 : engine_shaped N n rank bound (with_X st1 X2)).
  { destruct Hst1 as (_ & H2 & H3). split; [exact HX2 | split; assumption]. }
  destruct (counted_block_value N n rank bound condition (with_X st1 X2)
              node dx 1%Q Qplus) as (st3 & Hcnt & EX3 & Epi3 & Et3 & EL3);
    [intros; ring | exact Hst2 | exact Hnode | exact HX2node |].
  simpl in EX3, Epi3, Et3, EL3.
  apply bind_ok in Hcnt. destruct Hcnt as (c & -> & Hcnt).
  cbn [mbind result_bind]. rewrite Hcnt. cbn [mbind result_bind].
  assert (Hst3 : engine_shaped N n rank bound st3).
  { destruct Hst2 as (H1 & H2 & H3).
    split; [rewrite EX3; exact H1 |].
    split; [rewrite Epi3; exact H2 | rewrite Et3; exact H3]. }
  destruct (propagate_from_exact N n rank bound condition
              (fun X u => X_add_vec n X u dx) Z.add node dx fuel st3
              Hnode (X_add_vec_update N n node dx Hdx1) Hst3)
    as (st' & Hrun & Epi' & Et' & HX' & EL');
    [rewrite EX3; exact HX2node | exact Hfuel |].
  exists st'. split; [exact Hrun |].
  rewrite Epi3, Epi1 in Epi', HX', EL'. rewrite Et3, Et1 in Et', EL'.
  rewrite EX3 in HX', EL'.
  assert (Habove : forall v, v ∈ ancestors fuel pi' node ->
                             in_range N v /\ v ≠ node).
  { intros v Hv.
    destruct (ancestors_above N rank bound pi' Hpi' fuel node v Hnode Hv)
      as [Hin Hr].
    split; [exact Hin | intros ->; lia]. }
  assert (Hlen' : List.length (st_X st') = N).
  { destruct HX2 as [HXlen _].
    assert (Hsame : forall j, is_Some (st_X st' !! j) <-> is_Some (X2 !! j)).
    { intros j. rewrite HX'.
      destruct (decide (Z.of_nat j ∈ ancestors fuel pi' node));
        [| reflexivity].
      rewrite fmap_is_Some. reflexivity. }
    destruct (Nat.lt_trichotomy (List.length (st_X st')) N)
      as [Hlt | [Heq | Hgt]]; [| exact Heq |].
    - assert (Hs : is_Some (X2 !! List.length (st_X st'))).
      { apply lookup_lt_is_Some_2. lia. }
      apply Hsame, lookup_lt_is_Some_1 in Hs. lia.
    - assert (Hs : is_Some (st_X st' !! N)).
      { apply lookup_lt_is_Some_2. lia. }
      apply Hsame, lookup_lt_is_Some_1 in Hs. lia. }
  split.
  { split; [| split].
    - split; [exact Hlen' |].
      apply Forall_lookup. intros j r Hj. rewrite HX' in Hj.
      destruct HX2 as [_ Hrows2].
      destruct (decide (Z.of_nat j ∈ ancestors fuel pi' node)).
      + apply fmap_Some in Hj. destruct Hj as (r0 & Hr0 & ->).
        pose proof (Forall_lookup_1 _ _ _ _ Hrows2 Hr0) as Hl. simpl in Hl.
        rewrite length_zip_with. lia.
      + exact (Forall_lookup_1 _ _ _ _ Hrows2 Hj).
    - rewrite Epi'. exact Hpi'.
    - rewrite Et'. unfold nt'. rewrite length_insert. exact Htime. }
  split; [exact Epi' |]. split; [exact Et' |]. split.
  - intros j. rewrite HX'.
    destruct (decide (j = Z.to_nat node)) as [-> | Hj].
    + rewrite decide_False; [exact HX2node |].
      rewrite Z2Nat.id by (destruct Hnode; lia). intros Hin.
      destruct (Habove node Hin) as [_ Hne]. contradiction.
    + unfold X2. rewrite list_lookup_insert_ne by congruence. reflexivity.
  - rewrite EL', EL3, EL1, Epi1, Et1. fold pi'.
    assert (Hsame :
      map (fun v => flip condition pi' nt' v (row_of X2 v)
                      (zip_with Z.add (row_of X2 v) dx))
          (ancestors fuel pi' node)
      = map (fun v => flip condition pi' nt' v (row_of X v)
                        (vec_add (row_of X v) dx))
            (ancestors fuel pi' node)).
    { apply map_ext_in. intros v Hv. apply list_elem_of_In in Hv.
      destruct (Habove v Hv) as [Hvin Hvne].
      assert (Er : row_of X2 v = row_of X v).
      { unfold row_of, X2. rewrite list_lookup_insert_ne; [reflexivity |].
        intros E. apply Hvne. symmetry. apply Z2Nat.inj in E;
          [exact E | destruct Hnode; lia | destruct Hvin; lia]. }
      rewrite Er. reflexivity. }
    rewrite Hsame. simpl. destruct (attached pi' node); ring.
Qed.

(** ** A record that enters and leaves *)

(** The path above [u] is the same in two parent arrays that agree at
    [u] and above it. *)
Lemma path_up_agree N rank bound (pi pi' : list Z) :
  pi_shaped N rank bound pi -> List.length pi' = N ->
  forall f u, in_range N u ->
  (forall v, in_range N v -> (rank u <= rank v)%nat ->
             pi' !! Z.to_nat v = pi !! Z.to_nat v) ->
  path_up f pi' u = path_up f pi u.
Proof.
  intros Hpi Hlen'. induction f as [|f IH]; intros u Hu Hagree;
    simpl; [reflexivity |].
  destruct (pi_get_ok N rank bound pi u Hpi Hu) as (p & Hp & Hrange & Hrank).
  assert (Hp' : py_get pi' u = Ok p).
  { unfold py_get in *. destruct Hpi as [Hlen _].
    rewrite Hlen' . rewrite Hlen in Hp.
    rewrite (py_index_in_range N u Hu) in *.
    rewrite (Hagree u Hu) by lia. exact Hp. }
  rewrite Hp, Hp'. destruct (p =? -1) eqn:Ep; [reflexivity |].
  apply Z.eqb_neq in Ep. specialize (Hrank Ep). f_equal.
  apply IH; [unfold in_range; lia |].
  intros v Hv Hr. apply Hagree; [exact Hv | lia].
Qed.

Lemma py_get_in_range {A} (N : nat) (l : list A) (u : Z) :
  List.length l = N -> in_range N u ->
  py_get l u = match l !! Z.to_nat u with
               | Some a => Ok a
               | None => Raise IndexError
               end.
Proof.
  intros Hlen Hu. unfold py_get.
  rewrite Hlen, (py_index_in_range N u Hu). reflexivity.
Qed.

(** The count vector of a node after a record, from the rows. *)
Lemma row_of_after (X X' : list (list Z)) (node : Z) (anc : list Z)
  (fresh : list Z) (change : list Z -> list Z) (N : nat) :
  List.length X = N -> in_range N node ->
  (forall j, X' !! j
     = if decide (j = Z.to_nat node) then Some fresh
       else if decide (Z.of_nat j ∈ anc) then change <$> X !! j
            else X !! j) ->
  forall u, in_range N u ->
  row_of X' u
  = if decide (u = node) then fresh
    else if decide (u ∈ anc) then change (row_of X u) else row_of X u.
Proof.
  intros Hlen Hnode HX' u Hu. unfold row_of. rewrite HX'.
  destruct (decide (u = node)) as [-> | Hne].
  - rewrite decide_True by reflexivity. reflexivity.
  - rewrite decide_False.
    + rewrite Z2Nat.id by (destruct Hu; lia).
      destruct (decide (u ∈ anc)); [| reflexivity].
      destruct (lookup_lt_is_Some_2 X (Z.to_nat u)) as [row ->];
        [destruct Hu; lia | reflexivity].
    + intros E. apply Hne.
      apply Z2Nat.inj in E; [exact E | destruct Hu; lia | destruct Hnode; lia].
Qed.

Lemma vec_sub_add (a b : list Z) :
  List.length a = List.length b -> vec_sub (vec_add a b) b = a.
Proof.
  revert b. induction a as [|x a IH]; intros [|y b] Hlen;
    try discriminate; [reflexivity |].
  unfold vec_sub, vec_add in *. simpl. f_equal; [lia |].
  apply IH. simpl in Hlen. lia.
Qed.

Lemma children_sum_length (X : list (list Z)) (N n : nat)
  (children : list Z) :
  X_shaped N n X -> Forall (in_range N) children ->
  forall dx, List.length dx = n ->
  List.length (children_sum X dx children) = n.
Proof.
  intros [HN Hrows] Hall. induction Hall as [|c cs Hc _ IH]; intros dx Hdx;
    [exact Hdx |].
  unfold children_sum in *. cbn [foldl]. apply IH.
  unfold vec_add, row_of. rewrite length_zip_with.
  destruct (lookup_lt_is_Some_2 X (Z.to_nat c)) as [row Hrow];
    [destruct Hc; lia |].
  rewrite Hrow. simpl.
  pose proof (Forall_lookup_1 _ _ _ _ Hrows Hrow) as Hl. simpl in Hl. lia.
Qed.

(** X12.  A record that enters and then leaves.  From a state in which
    the children of the record have no parent and the count vector of its
    node is zero, [record_in] followed by [record_out] of the same record
    returns the count vectors and the parents as they were;
    [node_time[node]] keeps the time of the record.  (The counts are
    Python ints: nothing is rounded.  [L] has gained and lost the same
    branch lengths, and is not stated here.) *)
Theorem record_in_then_out_restores N n rank bound
  (condition : list Z -> bool) (fuel : nat) (st : engine) (node : Z)
  (children : list Z) (time : Q) :
  engine_shaped N n rank bound st ->
  edge_in_range N (node, children, time) ->
  edge_ranked rank bound (node, children, time) ->
  NoDup children ->
  Forall (fun c => attached (st_pi st) c = false) children ->
  row_of (st_X st) node = replicate n 0 ->
  (bound <= fuel)%nat ->
  exists st1 st2,
    record_in n condition fuel st (node, children, time) = Ok st1
    /\ record_out n condition fuel st1 (node, children, time) = Ok st2
    /\ st_X st2 = st_X st
    /\ st_pi st2 = st_pi st
    /\ st_node_time st2 = <[Z.to_nat node := time]> (st_node_time st).
Proof.
  intros Hst Hrange Hranked Hnd Hdet Hzero Hfuel.
  pose proof (record_in_exact N n rank bound condition fuel st node children
                time Hst Hrange Hranked Hfuel) as H.
  cbv zeta in H. destruct H as (st1 & Hrun1 & Hst1 & Epi1 & Et1 & HX1 & _).
  pose proof (record_out_exact N n rank bound condition fuel st1 node
                children time Hst1 Hrange Hnd Hfuel) as H.
  cbv zeta in H. destruct H as (st2 & Hrun2 & Hst2 & Epi2 & Et2 & HX2 & _).
  exists st1, st2. split; [exact Hrun1 |]. split; [exact Hrun2 |].
  destruct Hrange as [Hnode Hchildren]. destruct Hranked as [_ Hranks].
  simpl in Hnode, Hchildren, Hranks.
  pose proof Hst as (HX & Hpi & Htime). pose proof HX as (HXlen & Hrows).
  pose proof Hst1 as (HXs1 & Hpi1 & _). pose proof HXs1 as (HXlen1 & _).
  pose proof Hpi as (Hlen & _). pose proof Hpi1 as (Hlen1 & _).
  set (pi1 := reparent (st_pi st) children node) in *.
  set (dx := children_sum (st_X st) (replicate n 0) children) in *.
  set (anc := ancestors fuel pi1 node) in *.
  assert (Hdx : List.length dx = n).
  { apply (children_sum_length (st_X st) N n children HX Hchildren).
    apply length_replicate. }
  assert (Hpi2 : reparent (st_pi st1) children (-1) = st_pi st).
  { apply list_eq. intros i.
    rewrite (reparent_lookup N (st_pi st1) children (-1) Hlen1 Hchildren).
    rewrite Epi1. unfold pi1.
    rewrite (reparent_lookup N (st_pi st) children node Hlen Hchildren).
    destruct (decide (Z.of_nat i ∈ children)) as [Hi | Hi]; [| reflexivity].
    rewrite Forall_forall in Hdet, Hchildren.
    specialize (Hdet _ Hi). specialize (Hchildren _ Hi).
    destruct (pi_get_ok N rank bound (st_pi st) _ Hpi Hchildren)
      as (p & Hp & _ & _).
    unfold attached in Hdet. rewrite Hp in Hdet.
    destruct (p =? -1) eqn:Ep; [| discriminate].
    apply Z.eqb_eq in Ep. subst p.
    rewrite (py_get_in_range N _ _ Hlen Hchildren), Nat2Z.id in Hp.
    destruct (st_pi st !! i) as [q|]; [| discriminate].
    injection Hp as ->. reflexivity. }
  rewrite Hpi2 in *.
  assert (Hsame : ancestors fuel (st_pi st) node = anc).
  { unfold anc, ancestors. f_equal. symmetry.
    apply (path_up_agree N rank bound (st_pi st) pi1 Hpi);
      [rewrite <- Epi1; exact Hlen1 | exact Hnode |].
    intros v Hv Hr. unfold pi1.
    rewrite (reparent_lookup N (st_pi st) children node Hlen Hchildren).
    rewrite Z2Nat.id by (destruct Hv; lia).
    rewrite decide_False; [reflexivity |].
    intros Hc. rewrite Forall_forall in Hranks. specialize (Hranks v Hc).
    lia. }
  rewrite Hsame in *.
  assert (Hd1 : row_of (st_X st1) node = dx).
  { rewrite (row_of_after (st_X st) (st_X st1) node anc dx
               (fun row => vec_add row dx) N HXlen Hnode HX1 node Hnode).
    rewrite decide_True by reflexivity. reflexivity. }
  rewrite Hd1 in *.
  split; [| split; [exact Epi2 | rewrite Et2; exact Et1]].
  apply list_eq. intros j. rewrite HX2, HX1.
  destruct (decide (j = Z.to_nat node)) as [-> | Hj].
  - unfold row_of in Hzero.
    destruct (lookup_lt_is_Some_2 (st_X st) (Z.to_nat node)) as [row Hrow];
      [destruct Hnode; lia |].
    rewrite Hrow in Hzero |- *. simpl in Hzero. rewrite Hzero. reflexivity.
  - destruct (decide (Z.of_nat j ∈ anc)) as [Ha | Ha]; [| reflexivity].
    destruct (st_X st !! j) as [row|] eqn:Hrow; [| reflexivity].
    simpl. f_equal. apply vec_sub_add.
    pose proof (Forall_lookup_1 _ _ _ _ Hrows Hrow) as Hl. simpl in Hl.
    lia.
Qed.

Lemma leaf_edge_present_shaped :
  engine_shaped 4 2 Z.to_nat 4 leaf_edge_present.
Proof.
  split; [split; [reflexivity | repeat constructor] |].
  split; [| reflexivity].
  split; [reflexivity |]. split; [repeat constructor; lia |].
  intros i p Hi Hp.
  do 4 (destruct i as [|i];
        [simpl in Hi; injection Hi as <-; simpl; try lia; contradiction |]).
  discriminate.
Qed.

Lemma leaf_edge_gone_shaped :
  engine_shaped 4 2 Z.to_nat 4 leaf_edge_gone.
Proof.
  split; [split; [reflexivity | repeat constructor] |].
  split; [| reflexivity].
  split; [reflexivity |]. split; [repeat constructor; lia |].
  intros i p Hi Hp.
  do 4 (destruct i as [|i];
        [simpl in Hi; injection Hi as <-; simpl; try lia; contradiction |]).
  discriminate.
Qed.

Lemma leaf_edge_in_range : edge_in_range 4 (2, [0], 1%Q).
Proof. split; [unfold in_range; simpl; lia |]. repeat constructor; simpl; lia. Qed.

Lemma leaf_edge_ranked : edge_ranked Z.to_nat 4 (2, [0], 1%Q).
Proof. split; [simpl; lia |]. repeat constructor; simpl; lia. Qed.

Lemma leaf_edge_children_once : NoDup [0].
Proof. apply NoDup_singleton. Qed.

(** X10.  What a record that enters does.  On a state in shape and a
    record in range whose children rank below its node, [record_in]
    returns a state in which every child has the node as its parent,
    [node_time[node]] is the time of the record, the count vector of the
    node is the sum [dx] of the count vectors of the children, every
    proper ancestor of the node has gained [dx], every other count vector
    is as before, and [L] has gained the branch above each counted child,
    the branch above the node when it has a parent and [dx] is counted,
    and the flip of every ancestor that has a parent. *)
Theorem record_in_effect N n rank bound (condition : list Z -> bool)
  (fuel : nat) (st : engine) (node : Z) (children : list Z) (time : Q) :
  engine_shaped N n rank bound st ->
  edge_in_range N (node, children, time) ->
  edge_ranked rank bound (node, children, time) ->
  (bound <= fuel)%nat ->
  let X := st_X st in
  let nt' := <[Z.to_nat node := time]> (st_node_time st) in
  let pi' := reparent (st_pi st) children node in
  let dx := children_sum X (replicate n 0) children in
  exists st',
    record_in n condition fuel st (node, children, time) = Ok st'
    /\ st_pi st' = pi'
    /\ st_node_time st' = nt'
    /\ (forall j, st_X st' !! j
          = if decide (j = Z.to_nat node) then Some dx
            else if decide (Z.of_nat j ∈ ancestors fuel pi' node)
                 then (fun row => vec_add row dx) <$> X !! j
                 else X !! j)
    /\ (st_L st' == st_L st
          + Qsum (map (fun c => indicator (condition (row_of X c))
                                * rise nt' node c) children)
          + (if attached pi' node
             then indicator (condition dx) * branch_of pi' nt' node
             else 0)
          + Qsum (map (fun v => flip condition pi' nt' v (row_of X v)
                                  (vec_add (row_of X v) dx))
                    (ancestors fuel pi' node)))%Q.
Proof.
  intros Hst Hrange Hranked Hfuel.
  pose proof (record_in_exact N n rank bound condition fuel st node children
                time Hst Hrange Hranked Hfuel) as H.
  cbv zeta in *. destruct H as (st' & Hrun & _ & Epi & Et & HX & EL).
  exists st'. split; [exact Hrun |]. split; [exact Epi |].
  split; [exact Et |]. split; [exact HX | exact EL].
Qed.

Lemma record_in_effect_witness :
  exists st',
    record_in 2 (fun _ => true) 4 leaf_edge_gone (2, [0], 1%Q) = Ok st'
    /\ st_pi st' = [2; 3; 3; -1]
    /\ st_X st' !! 2%nat = Some [1; 0]
    /\ st_X st' !! 3%nat = Some [1; 1].
Proof.
  destruct (record_in_effect 4 2 Z.to_nat 4 (fun _ => true) 4 leaf_edge_gone
              2 [0] 1%Q leaf_edge_gone_shaped leaf_edge_in_range
              leaf_edge_ranked (Nat.le_refl 4))
    as (st' & Hrun & Epi & _ & HX & _).
  exists st'. split; [exact Hrun |]. split; [exact Epi |].
  split; [exact (HX 2%nat) | exact (HX 3%nat)].
Defined.

(** X11.  What a record that leaves does.  On a state in shape and a
    record in range whose children are listed once, [record_out] returns a
    state in which every child has no parent, [node_time] is as before,
    the count vector of the node is zero, every proper ancestor of the
    node has lost the count vector [d] that the node had, every other
    count vector is as before, and [L] has lost the branch above each
    counted child and the branch above the node when it has a parent and
    [d] is counted, and gained the flip of every ancestor that has a
    parent. *)
Theorem record_out_effect N n rank bound (condition : list Z -> bool)
  (fuel : nat) (st : engine) (node : Z) (children : list Z) (time : Q) :
  engine_shaped N n rank bound st ->
  edge_in_range N (node, children, time) ->
  NoDup children ->
  (bound <= fuel)%nat ->
  let X := st_X st in
  let nt := st_node_time st in
  let pi' := reparent (st_pi st) children (-1) in
  let d := row_of X node in
  exists st',
    record_out n condition fuel st (node, children, time) = Ok st'
    /\ st_pi st' = pi'
    /\ st_node_time st' = nt
    /\ (forall j, st_X st' !! j
          = if decide (j = Z.to_nat node) then Some (replicate n 0)
            else if decide (Z.of_nat j ∈ ancestors fuel pi' node)
                 then (fun row => vec_sub row d) <$> X !! j
                 else X !! j)
    /\ (st_L st' == st_L st
          - Qsum (map (fun c => indicator (condition (row_of X c))
                                * branch_of (st_pi st) nt c) children)
          - (if attached pi' node
             then indicator (condition d) * branch_of pi' nt node
             else 0)
          + Qsum (map (fun v => flip condition pi' nt v (row_of X v)
                                  (vec_sub (row_of X v) d))
                    (ancestors fuel pi' node)))%Q.
Proof.
  intros Hst Hrange Hnd Hfuel.
  pose proof (record_out_exact N n rank bound condition fuel st node children
                time Hst Hrange Hnd Hfuel) as H.
  cbv zeta in *. destruct H as (st' & Hrun & _ & Epi & Et & HX & EL).
  exists st'. split; [exact Hrun |]. split; [exact Epi |].
  split; [exact Et |]. split; [exact HX | exact EL].
Qed.

Lemma record_out_effect_witness :
  exists st',
    record_out 2 (fun _ => true) 4 leaf_edge_present (2, [0], 1%Q) = Ok st'
    /\ st_pi st' = [-1; 3; 3; -1]
    /\ st_X st' !! 2%nat = Some [0; 0]
    /\ st_X st' !! 3%nat = Some [0; 1].
Proof.
  destruct (record_out_effect 4 2 Z.to_nat 4 (fun _ => true) 4
              leaf_edge_present 2 [0] 1%Q leaf_edge_present_shaped
              leaf_edge_in_range leaf_edge_children_once (Nat.le_refl 4))
    as (st' & Hrun & Epi & _ & HX & _).
  exists st'. split; [exact Hrun |]. split; [exact Epi |].
  split; [exact (HX 2%nat) | exact (HX 3%nat)].
Defined.

Lemma record_in_then_out_restores_witness :
  exists st1 st2,
    record_in 2 (fun _ => true) 4 leaf_edge_gone (2, [0], 1%Q) = Ok st1
    /\ record_out 2 (fun _ => true) 4 st1 (2, [0], 1%Q) = Ok st2
    /\ st_X st2 = st_X leaf_edge_gone
    /\ st_pi st2 = st_pi leaf_edge_gone.
Proof.
  destruct (record_in_then_out_restores 4 2 Z.to_nat 4 (fun _ => true) 4
              leaf_edge_gone 2 [0] 1%Q leaf_edge_gone_shaped
              leaf_edge_in_range leaf_edge_ranked leaf_edge_children_once)
    as (st1 & st2 & H1 & H2 & HX & Hpi & _);
    [repeat constructor | reflexivity | apply Nat.le_refl |].
  exists st1, st2. split; [exact H1 |]. split; [exact H2 |].
  split; [exact HX | exact Hpi].
Defined.

(** ** The final division *)

Lemma py_div_by_zero (a b : Q) :
  (b == 0)%Q -> py_div a b = Raise ZeroDivisionError.
Proof.
  intros Hb. unfold py_div. apply Qeq_bool_iff in Hb. rewrite Hb. reflexivity.
Qed.

Lemma bind_py_div_by_zero {A} (r : result A) (f : A -> Q) (b : Q) :
  (b == 0)%Q -> forall q, (a ← r; py_div (f a) b) <> Ok q.
Proof.
  intros Hb q. destruct r as [a| |]; cbn [mbind result_bind];
    [| discriminate | discriminate].
  rewrite (py_div_by_zero _ _ Hb). discriminate.
Qed.

(** X15.  A tree sequence of length zero.  When [sequence_length] is
    zero none of the four statistics returns a number: the division by
    the sequence length that ends each of them raises
    [ZeroDivisionError], unless the loop before it has already failed. *)
Theorem zero_sequence_length_never_returns (fuel : nat)
  (ts : TreeSequence.t) (x y z : Z) (leaf_sets : list (list Z))
  (condition : list Z -> bool) (method : string) :
  (TreeSequence.sequence_length ts == 0)%Q ->
  (forall q, branch_length_diversity fuel ts x y <> Ok q)
  /\ (forall q, branch_length_Y fuel ts x y z <> Ok q)
  /\ (forall q, branch_stats_node_iter ts leaf_sets condition method <> Ok q)
  /\ (forall q, branch_stats fuel ts leaf_sets condition method <> Ok q).
Proof.
  intros Hzero. split; [| split; [| split]]; intros q.
  - unfold branch_length_diversity.
    exact (bind_py_div_by_zero _ (fun S_ => S_) _ Hzero q).
  - unfold branch_length_Y.
    exact (bind_py_div_by_zero _ (fun S_ => S_) _ Hzero q).
  - unfold branch_stats_node_iter, TreeSequence.get_sequence_length.
    match goal with
    | |- (mbind _ ?r) <> _ => destruct r as [[S_ its]| |]
    end; cbn [mbind result_bind]; [| discriminate | discriminate].
    rewrite (py_div_by_zero _ _ Hzero). discriminate.
  - unfold branch_stats, TreeSequence.get_sequence_length.
    destruct (branch_stats_run fuel ts leaf_sets condition) as [[st S_]| |];
      cbn [mbind result_bind]; [| discriminate | discriminate].
    rewrite (py_div_by_zero _ _ Hzero). discriminate.
Qed.

Lemma zero_sequence_length_never_returns_witness :
  branch_length_diversity 1 (Tables.load empty_tables) 0 1
  = Raise ZeroDivisionError
  /\ forall q, branch_stats 1 (Tables.load empty_tables) [[0]]
                 (fun _ => true) "length" <> Ok q.
Proof.
  split; [reflexivity |].
  apply (zero_sequence_length_never_returns 1 (Tables.load empty_tables)
           0 1 2 [[0]] (fun _ => true) "length").
  reflexivity.
Defined.

(** ** branch_length_Y: the last two samples *)

Lemma branch_length_Y_tree_swap (fuel : nat) (tr : SparseTree.t)
  (x y z : Z) (S_ : Q) :
  SparseTree.mrca tr y z = SparseTree.mrca tr z y ->
  branch_length_Y_tree fuel tr x y z S_
  = branch_length_Y_tree fuel tr x z y S_.
Proof.
  intros Hsym. unfold branch_length_Y_tree. rewrite <- Hsym.
  set (xy := SparseTree.mrca tr x y). set (xz := SparseTree.mrca tr x z).
  set (yz := SparseTree.mrca tr y z).
  rewrite (Z.eqb_sym xz xy).
  destruct (xy =? xz) eqn:E1; [reflexivity |].
  destruct (xy =? yz) eqn:E2, (xz =? yz) eqn:E3; try reflexivity.
  apply Z.eqb_eq in E2, E3. apply Z.eqb_neq in E1. congruence.
Qed.

(** X16.  [branch_length_Y] does not tell its last two samples apart:
    when in every tree [mrca(y, z)] and [mrca(z, y)] are the same node,
    [branch_length_Y(ts, x, y, z)] and [branch_length_Y(ts, x, z, y)] have
    the same outcome. *)
Theorem branch_length_Y_swaps_last_two (fuel : nat) (ts : TreeSequence.t)
  (x y z : Z) :
  Forall (fun tr => SparseTree.mrca tr y z = SparseTree.mrca tr z y)
         (TreeSequence.trees ts []) ->
  branch_length_Y fuel ts x y z = branch_length_Y fuel ts x z y.
Proof.
  intros Hsym. unfold branch_length_Y.
  rewrite (for_each_body_eq (TreeSequence.trees ts [])
             (fun S_ tr => branch_length_Y_tree fuel tr x y z S_)
             (fun S_ tr => branch_length_Y_tree fuel tr x z y S_));
    [reflexivity |].
  intros S_ tr Htr. apply branch_length_Y_tree_swap.
  rewrite Forall_forall in Hsym. apply Hsym. exact Htr.
Qed.

Lemma branch_length_Y_swaps_last_two_witness :
  branch_length_Y 5 (Tables.load cherry_tables) 2 0 1
  = branch_length_Y 5 (Tables.load cherry_tables) 2 1 0.
Proof.
  apply (branch_length_Y_swaps_last_two 5 (Tables.load cherry_tables) 2 0 1).
  repeat constructor.
Defined.
